(** * A stack-based backtracking Sudoku solver

    Shallow embedding of [SudokuSolverWithHardestEver.cpp] (the diagnostic
    variant; [Simplified.cpp] is the same engine with the run-time checks
    removed) and proofs of its properties.

    Conventions of the embedding:
    - a C++ [int] is a [Z]; every integer the engine handles is a grid
      index, a digit or a container size, so no wrap-around arises;
    - [std::vector<std::vector<int>>] is a [list (list Z)];
    - [std::pair<int,int>] is a pair [Z * Z];
    - [std::unordered_map<int, std::vector<pair>>] is a [gmap] read with the
      empty vector as default, which is what [operator[]] observes;
    - [std::list<pair>] is a [list], an iterator into it a position;
    - [std::stack<stackData>] is a [list] whose head is the top;
    - [throw std::runtime_error] is the [Throw] result, one constructor of
      [error] per throw site; undefined behaviour (dereferencing [end()])
      is the separate [Undefined] constructor;
    - printing and timing are dropped; the checking helpers that no
      function calls ([checkBlank], [errorIntroduced], [errorCopyChanged],
      [tooManyChanges]) are embedded apart from the engine, with a result
      type of their own.

    Where the diagnostic variant throws, [Simplified.cpp] erases at
    [end()] or reads an empty vector; both are the [Throw] result here.

    The recursive solver of [EPI_Simplified.cpp] is embedded after the
    engine and compared with it. *)

From Stdlib Require Import ZArith Lia.
From stdpp Require Import base numbers option list gmap.

Local Open Scope Z_scope.

(** ** Data *)

Definition coord : Type := Z * Z.

Abbreviation Grid := (list (list Z)).

Abbreviation records := (gmap Z (list coord)).

Record stackData := StackData {
  coordinates : coord;
  choices : list Z;
  index : Z;
  revisited : bool
}.

Record state := State {
  stack : list stackData;
  blanksInProcess : list coord;
  record : records;
  grid : Grid
}.

Inductive error :=
| PushNoBlanks
| PushChoicesEmpty
| PopEmptyStack
| PopChoicesEmpty
| PopNotInRecord
| IncrementEmptyStack
| IncrementAtHighest
| IncrementNotInRecord
| Undefined.

Inductive result (A : Type) :=
| Ok (a : A)
| Throw (e : error).
Arguments Ok {A} a.
Arguments Throw {A} e.

Definition bind {A B} (m : result A) (f : A → result B) : result B :=
  match m with
  | Ok a => f a
  | Throw e => Throw e
  end.

(** ** Grid and record access *)

(** [grid.size()] *)
Definition size {A} (l : list A) : Z := Z.of_nat (length l).

(** [grid[i][j]] as an rvalue; a read outside the vectors gives 0. *)
Definition cell (g : Grid) (c : coord) : Z :=
  if (0 <=? c.1) && (0 <=? c.2)
  then default 0 (g !! Z.to_nat c.1 ≫= λ row, row !! Z.to_nat c.2)
  else 0.

(** [grid[i][j] = v]; a write outside the vectors changes nothing. *)
Definition set_cell (g : Grid) (c : coord) (v : Z) : Grid :=
  if (0 <=? c.1) && (0 <=? c.2)
  then alter (λ row, <[Z.to_nat c.2 := v]> row) (Z.to_nat c.1) g
  else g.

(** [record[digit]] as an rvalue. *)
Definition rec_get (r : records) (digit : Z) : list coord :=
  default [] (r !! digit).

(** [record[digit].push_back(c)] *)
Definition rec_push (r : records) (digit : Z) (c : coord) : records :=
  <[digit := rec_get r digit ++ [c]]> r.

(** [std::find(column.begin(), column.end(), c)] as a position. *)
Definition find (column : list coord) (c : coord) : option nat :=
  fst <$> list_find (λ x, x = c) column.

(** ** The validator *)

Definition checkFormat (g : Grid) (gridSize : Z) : bool :=
  bool_decide (size g = gridSize) &&
  forallb (λ row,
    bool_decide (size row = gridSize) &&
    forallb (λ v, negb ((v <? 0) || (v >? gridSize))) row) g.

Definition checkIndex (i : Z) (g : Grid) : bool :=
  negb ((i <? 0) || (i >=? size g)).

Definition checkPair (c : coord) (g : Grid) : bool :=
  checkIndex c.1 g && checkIndex c.2 g.

Definition checkHorizontal (i j : Z) (g : Grid) : bool :=
  if negb (checkPair (i, j) g) then false
  else if cell g (i, j) =? 0 then true
  else forallb (λ J, negb (negb (j =? J) && (cell g (i, J) =? cell g (i, j))))
         (seqZ 0 (size g)).

Definition checkVertical (i j : Z) (g : Grid) : bool :=
  if negb (checkPair (i, j) g) then false
  else if cell g (i, j) =? 0 then true
  else forallb (λ I, negb (negb (i =? I) && (cell g (i, j) =? cell g (I, j))))
         (seqZ 0 (size g)).

(** The window [startI .. startI + subgridSize) lies on the grid when the
    subregion size divides the grid size, as it does for the grids that
    [checkFormat] lets through with [gridSize] the square of
    [subgridSize]; there [cell] reads what the source reads. On other
    grids the source indexes past the vectors, which is undefined, and
    [cell] reads 0. *)
Definition checkSubgrid (i j : Z) (g : Grid) (subgridSize : Z) : bool :=
  if negb (checkPair (i, j) g) then false
  else
    let startI := i - Z.rem i subgridSize in
    let startJ := j - Z.rem j subgridSize in
    if cell g (i, j) =? 0 then true
    else forallb (λ I,
           forallb (λ J,
             negb (negb (i =? I) && negb (j =? J) &&
                   (cell g (i, j) =? cell g (I, J))))
             (seqZ startJ subgridSize))
           (seqZ startI subgridSize).

Definition checkLegal_at (i j : Z) (g : Grid) (subgridSize : Z) : bool :=
  checkHorizontal i j g && checkVertical i j g && checkSubgrid i j g subgridSize.

Definition checkLegal (g : Grid) (subgridSize : Z) : bool :=
  forallb (λ i, forallb (λ j, checkLegal_at i j g subgridSize)
                  (seqZ 0 (size g)))
    (seqZ 0 (size g)).

Definition checkUserGrid (g : Grid) (gridSize subgridSize : Z) : bool :=
  checkFormat g gridSize && checkLegal g subgridSize.

(** ** The consistency checker *)

(** [/] on [int] truncates, as [Z.quot] does; the source leaves a zero
    [subgridSize] undefined, [Z.quot] gives 0 there. *)
Definition sameSubgrid (lhs rhs : coord) (subgridSize : Z) : bool :=
  (Z.quot lhs.1 subgridSize =? Z.quot rhs.1 subgridSize) &&
  (Z.quot lhs.2 subgridSize =? Z.quot rhs.2 subgridSize).

(** The two-coordinate overload of [consistent]. *)
Definition consistent_pair (lhs rhs : coord) (subgridSize : Z) : bool :=
  bool_decide (lhs = rhs) ||
  (negb (lhs.1 =? rhs.1) && negb (lhs.2 =? rhs.2) &&
   negb (sameSubgrid lhs rhs subgridSize)).

Fixpoint consistent_column (location : coord) (column : list coord)
    (subgridSize : Z) : bool :=
  match column with
  | [] => true
  | c :: column' =>
      if negb (consistent_pair location c subgridSize) then false
      else consistent_column location column' subgridSize
  end.

(** The digit overload of [consistent]; the grid argument is unused, as in
    the source. *)
Definition consistent (digit : Z) (location : coord) (g : Grid)
    (r : records) (subgridSize : Z) : bool :=
  consistent_column location (rec_get r digit) subgridSize.

(** ** Blank pool and occurrence index *)

(** The cells in the order of the two nested loops, with their values. *)
Definition cells (g : Grid) : list (coord * Z) :=
  concat (imap (λ i row,
            imap (λ j v, ((Z.of_nat i, Z.of_nat j), v)) row) g).

Definition blankSquares (g : Grid) : list coord :=
  fold_left (λ blanks cv, if cv.2 =? 0 then blanks ++ [cv.1] else blanks)
    (cells g) [].

Definition occurrences (g : Grid) : records :=
  fold_left (λ res cv, if cv.2 =? 0 then res else rec_push res cv.2 cv.1)
    (cells g) ∅.

(** ** Options and the most-constrained-blank selector *)

Definition options (location : coord) (g : Grid) (r : records)
    (subgridSize : Z) : list Z * Grid :=
  if checkPair location g then
    let '(res, g') :=
      fold_left (λ '(res, g0) attemptDigit,
          let g1 := set_cell g0 location (attemptDigit + 1) in
          let val := cell g1 location in
          if consistent val location g1 r subgridSize
          then (res ++ [val], g1) else (res, g1))
        (seqZ 0 (size g)) ([], g) in
    (res, set_cell g' location 0)
  else ([], g).

(** The inner [for] of [min]: digits from [attemptedDigit] up, stopping when
    the running count reaches the threshold; [fuel] bounds the number of
    digits left. *)
Fixpoint count_successful (fuel : nat) (attemptedDigit successfulDigits
    threshold : Z) (location : coord) (g : Grid) (r : records)
    (subgridSize : Z) : Z :=
  match fuel with
  | O => successfulDigits
  | S fuel' =>
      if (attemptedDigit <=? size g) && (successfulDigits <? threshold) then
        count_successful fuel' (attemptedDigit + 1)
          (if consistent attemptedDigit location g r subgridSize
           then successfulDigits + 1 else successfulDigits)
          threshold location g r subgridSize
      else successfulDigits
  end.

(** The [while] of [min] after its first iteration: [rest] is the part of
    the list from [iter] on, [pos] the position of [iter]. *)
Fixpoint min_loop (rest : list coord) (pos : nat) (threshold : Z)
    (currentMin : nat) (g : Grid) (r : records) (subgridSize : Z)
    : nat * Z :=
  match rest with
  | [] => (currentMin, threshold)
  | c :: rest' =>
      if threshold =? 0 then (currentMin, threshold)
      else
        let successfulDigits :=
          count_successful (length g) 1 0 threshold c g r subgridSize in
        if successfulDigits <? threshold
        then min_loop rest' (S pos) successfulDigits pos g r subgridSize
        else min_loop rest' (S pos) threshold currentMin g r subgridSize
  end.

(** [min]: the position of the selected blank, the [nonEmpty] flag and the
    grid as [options] leaves it. *)
Definition min (g : Grid) (blanks : list coord) (r : records)
    (subgridSize : Z) : nat * bool * Grid :=
  match blanks with
  | [] => (0%nat, true, g)
  | c :: rest =>
      let '(opts, g') := options c g r subgridSize in
      let '(currentMin, threshold) :=
        min_loop rest 1 (size opts) 0 g' r subgridSize in
      (currentMin, negb (threshold =? 0), g')
  end.

(** ** The search engine *)

Definition set_grid (st : state) (g : Grid) : state :=
  State (stack st) (blanksInProcess st) (record st) g.

(** [push]: [Ok (false, _)] when no legal option exists. *)
Definition push (st : state) (subgridSize : Z) : result (bool * state) :=
  match blanksInProcess st with
  | [] => Throw PushNoBlanks
  | _ :: _ =>
      let '(easiest, nonEmptyIndicator, g1) :=
        min (grid st) (blanksInProcess st) (record st) subgridSize in
      if negb nonEmptyIndicator then Ok (false, set_grid st g1)
      else
        match blanksInProcess st !! easiest with
        | None => Throw Undefined
        | Some location =>
            let '(chs, g2) := options location g1 (record st) subgridSize in
            match chs with
            | [] => Throw PushChoicesEmpty
            | choice0 :: _ =>
                Ok (true,
                    State (StackData location chs 0 false :: stack st)
                          (delete easiest (blanksInProcess st))
                          (rec_push (record st) choice0 location)
                          (set_cell g2 location choice0))
            end
        end
  end.

(** Mark the exposed stack top (if any) as revisited. *)
Definition mark_revisited (stk : list stackData) : list stackData :=
  match stk with
  | [] => []
  | top :: stk' =>
      StackData (coordinates top) (choices top) (index top) true :: stk'
  end.

Definition pop (st : state) : result state :=
  match stack st with
  | [] => Throw PopEmptyStack
  | top :: stk' =>
      match last (choices top) with
      | None => Throw PopChoicesEmpty
      | Some back =>
          let column := rec_get (record st) back in
          match find column (coordinates top) with
          | None => Throw PopNotInRecord
          | Some iter =>
              Ok (State (mark_revisited stk')
                        (blanksInProcess st ++ [coordinates top])
                        (<[back := delete iter column]> (record st))
                        (set_cell (grid st) (coordinates top) 0))
          end
      end
  end.

Definition tryToPush (st : state) (subgridSize : Z) : result state :=
  bind (push st subgridSize) (λ '(pushed, st'),
    if negb pushed then pop st' else Ok st').

(** The three-argument overload of [increment]: advance the top frame. *)
Definition increment_top (st : state) : result state :=
  match stack st with
  | [] => Throw IncrementEmptyStack
  | top :: stk' =>
      if index top + 1 >=? size (choices top) then Throw IncrementAtHighest
      else
        let location := coordinates top in
        let digit := cell (grid st) location in
        let column := rec_get (record st) digit in
        match find column location with
        | None => Throw IncrementNotInRecord
        | Some iter =>
            let index' := index top + 1 in
            let digit' := choices top !!! Z.to_nat index' in
            Ok (State
                  (StackData location (choices top) index' (revisited top)
                   :: stk')
                  (blanksInProcess st)
                  (rec_push (<[digit := delete iter column]> (record st))
                            digit' location)
                  (set_cell (grid st) location digit'))
        end
  end.

(** The five-argument overload of [increment]. *)
Definition increment (st : state) (subgridSize : Z) : result state :=
  bind (increment_top st) (λ st1,
  bind (tryToPush st1 subgridSize) (λ st2,
    match stack st2, blanksInProcess st2 with
    | [], _ :: _ => bind (push st2 subgridSize) (λ '(_, st3), Ok st3)
    | _, _ => Ok st2
    end)).

(** One pass through the body of the [while] of [backtrack], for a stack
    that is neither empty nor full. *)
Definition iteration (st : state) (subgridSize : Z) : result state :=
  match stack st with
  | [] => Throw Undefined
  | topMember :: _ =>
      if revisited topMember &&
         (index topMember + 1 <? size (choices topMember))
      then increment st subgridSize
      else if negb (revisited topMember) then tryToPush st subgridSize
      else pop st
  end.

(** The [while] of [backtrack]; [None] when [fuel] iterations did not
    reach a [return]. The result is the returned vector with the final
    state. *)
Fixpoint loop (fuel : nat) (fullStackSize : Z) (subgridSize : Z)
    (st : state) : option (result (Grid * state)) :=
  match fuel with
  | O => None
  | S fuel' =>
      match stack st with
      | [] => Some (Ok ([], st))
      | _ :: _ =>
          if size (stack st) =? fullStackSize then Some (Ok (grid st, st))
          else
            match iteration st subgridSize with
            | Throw e => Some (Throw e)
            | Ok st' => loop fuel' fullStackSize subgridSize st'
            end
      end
  end.

Definition initial (g : Grid) : state :=
  State [] (blankSquares g) (occurrences g) g.

(** [backtrack]: the returned vector and the final state, whose [grid] is
    the caller's grid, passed by reference. *)
Definition backtrack (fuel : nat) (g : Grid) (subgridSize : Z)
    : option (result (Grid * state)) :=
  let st0 := initial g in
  match blanksInProcess st0 with
  | [] => Some (Ok (g, st0))
  | _ :: _ =>
      match push st0 subgridSize with
      | Throw e => Some (Throw e)
      | Ok (_, st1) =>
          loop fuel (size (blankSquares g)) subgridSize st1
      end
  end.

(** * Specification vocabulary *)

(** ** Grids, index and pool *)

(** [c] is a coordinate of an [n]×[n] grid. *)
Definition InRange (n : Z) (c : coord) : Prop :=
  0 ≤ c.1 < n ∧ 0 ≤ c.2 < n.

(** [g] has [n] rows of [n] cells. *)
Definition square (n : Z) (g : Grid) : Prop :=
  size g = n ∧ Forall (λ row, size row = n) g.

(** The occurrence index agrees with the grid: [c] is recorded under the
    digit [d] exactly when the grid holds [d] at [c]; no coordinate is
    recorded twice. *)
Definition rec_ok (n : Z) (r : records) (g : Grid) : Prop :=
  ∀ d, NoDup (rec_get r d) ∧
       ∀ c, c ∈ rec_get r d ↔ d ≠ 0 ∧ InRange n c ∧ cell g c = d.

(** The blank pool holds exactly the blank cells of the grid, once each. *)
Definition blanks_ok (n : Z) (blanks : list coord) (g : Grid) : Prop :=
  NoDup blanks ∧ ∀ c, c ∈ blanks ↔ InRange n c ∧ cell g c = 0.

(** Two coordinates share a row, a column or a subregion. *)
Definition shares_unit (s : Z) (c1 c2 : coord) : Prop :=
  c1.1 = c2.1 ∨ c1.2 = c2.2 ∨
  (Z.quot c1.1 s = Z.quot c2.1 s ∧ Z.quot c1.2 s = Z.quot c2.2 s).

(** [d] can go to [c]: every cell holding [d] is consistent with [c]. *)
Definition legal (g : Grid) (s : Z) (c : coord) (d : Z) : bool :=
  forallb (λ cv, negb (cv.2 =? d) || consistent_pair c cv.1 s) (cells g).

(** The legal digits of [c], ascending. *)
Definition opts (g : Grid) (s : Z) (c : coord) : list Z :=
  filter (λ d, legal g s c d = true) (seqZ 1 (size g)).

(** The digits [1..n] that [consistent] accepts at [c]. *)
Definition raw_opts (c : coord) (r : records) (s n : Z) : list Z :=
  filter (λ d, consistent_column c (rec_get r d) s = true) (seqZ 1 n).

(** How many digits [consistent] accepts at [c]. *)
Definition raw_count (c : coord) (g : Grid) (r : records) (s : Z) : Z :=
  size (raw_opts c r s (size g)).

(** ** The invariant of the engine *)

(** The grid a stack stands for: the input grid with the current choice of
    every frame written at its coordinate. *)
Definition grid_of (stk : list stackData) (g0 : Grid) : Grid :=
  foldr (λ f g, set_cell g (coordinates f) (choices f !!! Z.to_nat (index f)))
    g0 stk.

(** A frame over the grid [G] of the frames below it: its cell is a blank of
    [G], its choices are all the legal digits of that cell in [G], its
    cursor is inside them, and no blank of [G] has fewer legal digits. *)
Definition frame_ok (n s : Z) (G : Grid) (f : stackData) : Prop :=
  InRange n (coordinates f) ∧ cell G (coordinates f) = 0 ∧
  choices f = opts G s (coordinates f) ∧
  0 ≤ index f < size (choices f) ∧
  ∀ b, InRange n b → cell G b = 0 → size (choices f) ≤ size (opts G s b).

(** Every frame is in order over the grid of the frames below it. *)
Fixpoint StackOK (n s : Z) (g0 : Grid) (stk : list stackData) : Prop :=
  match stk with
  | [] => True
  | f :: stk' => frame_ok n s (grid_of stk' g0) f ∧ StackOK n s g0 stk'
  end.

(** The state of the engine between two operations of a solve of [g0]. *)
Record Inv (n s : Z) (g0 : Grid) (st : state) : Prop := {
  inv_stack : StackOK n s g0 (stack st);
  inv_grid : grid st = grid_of (stack st) g0;
  inv_record : rec_ok n (record st) (grid st);
  inv_blanks : blanks_ok n (blanksInProcess st) (grid st);
  inv_count :
    size (stack st) + size (blanksInProcess st) = size (blankSquares g0)
}.

(** ** Solutions *)

(** Every cell holds a digit of [1..n]. *)
Definition filled (n : Z) (g : Grid) : Prop :=
  ∀ c, InRange n c → 1 ≤ cell g c ≤ n.

(** No two different cells of a row, a column or a subregion hold the same
    digit. *)
Definition no_clash (n s : Z) (g : Grid) : Prop :=
  ∀ c1 c2, InRange n c1 → InRange n c2 → c1 ≠ c2 → shares_unit s c1 c2 →
           cell g c1 ≠ 0 → cell g c1 ≠ cell g c2.

(** [sol] keeps every digit that [g] already holds. *)
Definition extends (n : Z) (g sol : Grid) : Prop :=
  ∀ c, InRange n c → cell g c ≠ 0 → cell sol c = cell g c.

(** A solved [n]×[n] grid. *)
Definition is_solution (n s : Z) (sol : Grid) : Prop :=
  square n sol ∧ filled n sol ∧ no_clash n s sol.

(** A solved grid that keeps the digits of [g]. *)
Definition completion (n s : Z) (g sol : Grid) : Prop :=
  is_solution n s sol ∧ extends n g sol.

(** No solved grid keeps the digits of [g]. *)
Definition NoSol (n s : Z) (g : Grid) : Prop :=
  ∀ sol, is_solution n s sol → ¬ extends n g sol.

(** ** Runs *)

(** Some number of passes through the loop leads from [st] to [st']
    without returning. *)
Definition runs_to (full s : Z) (st st' : state) : Prop :=
  ∃ k : nat, ∀ fuel, loop (k + fuel) full s st = loop fuel full s st'.

(** Where exploring below the top frame ends: with a full stack, or with
    the top frame popped and no solution above the frames left. *)
Definition explored (n s : Z) (g0 : Grid) (st : state)
    (stk' : list stackData) : Prop :=
  ∃ st', runs_to (size (blankSquares g0)) s st st' ∧ Inv n s g0 st' ∧
    (size (stack st') = size (blankSquares g0) ∨
     (stack st' = mark_revisited stk' ∧ NoSol n s (grid_of stk' g0))).

(** How many frames the stack still lacks. *)
Definition depth (g0 : Grid) (st : state) : nat :=
  Z.to_nat (size (blankSquares g0) - size (stack st)).

(** The choices up to the cursor lead to no solution. *)
Definition tried (n s : Z) (g0 : Grid) (stk' : list stackData)
    (f : stackData) : Prop :=
  ∀ sol, is_solution n s sol → extends n (grid_of stk' g0) sol →
    ∀ (j : nat) v, (j ≤ Z.to_nat (index f))%nat →
      choices f !! j = Some v → cell sol (coordinates f) ≠ v.

(** Exploring below a frame just pushed ends, for stacks that lack at most
    [m] frames. *)
Definition fresh_explored (n s : Z) (g0 : Grid) (m : nat) : Prop :=
  ∀ st f stk',
    Inv n s g0 st → stack st = f :: stk' → index f = 0 →
    revisited f = false → (depth g0 st ≤ m)%nat → explored n s g0 st stk'.

(** A well-formed input: an [n]×[n] grid with [n] the square of the
    subregion size, values in [0..n], and no two equal digits in a row, a
    column or a subregion. *)
Definition well_formed (n s : Z) (g : Grid) : Prop :=
  0 < s ∧ n = s * s ∧ square n g ∧
  (∀ c, InRange n c → 0 ≤ cell g c ≤ n) ∧ no_clash n s g.

(** The states a solve can pass through: the initial one and those a
    completed [push], [pop] or [increment] leads to. *)
Inductive run_state (g0 : Grid) (s : Z) : state → Prop :=
| run_initial : run_state g0 s (initial g0)
| run_push st pushed st' :
    run_state g0 s st → push st s = Ok (pushed, st') → run_state g0 s st'
| run_pop st st' :
    run_state g0 s st → pop st = Ok st' → run_state g0 s st'
| run_increment st st' :
    run_state g0 s st → increment_top st = Ok st' → run_state g0 s st'.

(** ** Example grids

    All are 4×4 with subregions of size 2. *)

(** A puzzle with four givens. *)
Definition small : Grid :=
  [[1;0;0;0];[0;0;3;0];[0;4;0;0];[0;0;0;2]].

(** What the engine makes of [small]. *)
Definition small_solved : Grid :=
  [[1;3;2;4];[4;2;3;1];[2;4;1;3];[3;1;4;2]].

(** A puzzle every blank of which has a single legal digit. *)
Definition forced : Grid :=
  [[0;0;2;4];[4;2;3;1];[2;4;0;0];[3;1;4;0]].

(** The cell (0,1) must take 3, after which (1,0) has no legal digit. *)
Definition stuck : Grid :=
  [[4;0;2;0];[0;1;0;0];[1;0;0;0];[2;0;0;0]].

(** No solution, found after three pushes, an increment and three pops. *)
Definition hopeless : Grid :=
  [[0;3;0;0];[0;0;0;1];[0;0;0;3];[1;0;0;0]].

(** The blank (0,0) has no legal digit, the blank (1,1) has two. *)
Definition blocked : Grid :=
  [[0;1;2;3];[4;0;0;0];[0;0;0;0];[0;0;0;0]].

(** The stored puzzle of [createTestGrid], 9×9 with subregions of size 3. *)
Definition hardest : Grid :=
  [[8;0;0;0;0;0;0;0;0];[0;0;3;6;0;0;0;0;0];[0;7;0;0;9;0;2;0;0];
   [0;5;0;0;0;7;0;0;0];[0;0;0;0;4;5;7;0;0];[0;0;0;1;0;0;0;3;0];
   [0;0;1;0;0;0;0;6;8];[0;0;8;5;0;0;0;1;0];[0;9;0;0;0;0;4;0;0]].

(** A solved grid that keeps the digits of [hardest]. *)
Definition hardest_filled : Grid :=
  [[8;1;2;7;5;3;6;4;9];[9;4;3;6;8;2;1;7;5];[6;7;5;4;9;1;2;8;3];
   [1;5;4;2;3;7;8;9;6];[3;6;9;8;4;5;7;2;1];[2;8;7;1;6;9;5;3;4];
   [5;2;1;9;7;4;3;6;8];[4;3;8;5;2;6;9;1;7];[7;9;6;3;1;8;4;5;2]].

(** The 9×9 grid without any digit. *)
Definition all_blank : Grid := replicate 9 (replicate 9 0).

(** No cell of [g] is blank. *)
Definition no_blank (g : Grid) : bool :=
  forallb (λ cv, negb (cv.2 =? 0)) (cells g).

(** [sol] holds every digit of [g] where [g] holds it. *)
Definition keeps (g sol : Grid) : bool :=
  forallb (λ cv, (cv.2 =? 0) || (cell sol cv.1 =? cv.2)) (cells g).

(** The vector a finished run returns. *)
Definition returned (run : option (result (Grid * state))) : option Grid :=
  match run with
  | Some (Ok (ret, _)) => Some ret
  | _ => None
  end.

(** The state a finished run ends in. *)
Definition final_state (g : Grid) (run : option (result (Grid * state)))
    : state :=
  match run with
  | Some (Ok (_, st)) => st
  | _ => initial g
  end.

(** Every blank of [g] has exactly one legal digit. *)
Definition all_forced (g : Grid) (s : Z) : bool :=
  forallb (λ cv, negb (cv.2 =? 0) ||
                 bool_decide (length (opts g s cv.1) = 1%nat)) (cells g).

(** The number of legal options of a blank, as [options] counts them. *)
Definition num_options (c : coord) (g : Grid) (r : records) (s : Z) : Z :=
  size (options c g r s).1.

(** The flag of [min] read as telling whether some blank of the pool has
    an option. *)
Definition flag_tells_any_option (g : Grid) (blanks : list coord)
    (r : records) (s : Z) : Prop :=
  (min g blanks r s).1.2 = true ↔ ∃ c, c ∈ blanks ∧ (options c g r s).1 ≠ [].

(** The state a [push] leads to. *)
Definition pushed (st : state) (s : Z) : state :=
  match push st s with
  | Ok (_, st') => st'
  | Throw _ => st
  end.

(** ** The checking helpers of the diagnostic variant

    [checkBlank], [errorIntroduced], [errorCopyChanged] and
    [tooManyChanges] return nothing and throw on a finding; no function of
    the file calls them. Their line-number argument only feeds the
    printed message and is dropped. *)

Inductive finding :=
| FilledSupposedBlank
| FilledInBlanksContainer
| NonBlankChanged
| TooManyChanges.

(** The outcome of a helper: it returns, or it throws. *)
Inductive verdict :=
| Fine
| Raise (e : finding).

(** The [(i, j)] overload of [checkBlank]. *)
Definition checkBlank_at (i j : Z) (g : Grid) : verdict :=
  if cell g (i, j) =? 0 then Fine else Raise FilledSupposedBlank.

(** The pair overload of [checkBlank]. *)
Definition checkBlank (blankPair : coord) (g : Grid) : verdict :=
  checkBlank_at blankPair.1 blankPair.2 g.

Fixpoint errorIntroduced (blanksInProcess : list coord) (g : Grid)
    : verdict :=
  match blanksInProcess with
  | [] => Fine
  | iter :: rest =>
      let square := cell g (iter.1, iter.2) in
      if square =? 0 then errorIntroduced rest g
      else Raise FilledInBlanksContainer
  end.

(** The two loops of [errorCopyChanged], over the cells of [original]. *)
Fixpoint errorCopyChanged_loop (original_cells : list (coord * Z))
    (copy : Grid) : verdict :=
  match original_cells with
  | [] => Fine
  | cv :: rest =>
      if negb (cv.2 =? 0) && negb (cell copy cv.1 =? cv.2)
      then Raise NonBlankChanged
      else errorCopyChanged_loop rest copy
  end.

Definition errorCopyChanged (original copy : Grid) : verdict :=
  errorCopyChanged_loop (cells original) copy.

(** The index pairs of two nested loops that both run to [n]. *)
Definition index_pairs (n : Z) : list coord :=
  seqZ 0 n ≫= λ i, (λ j, (i, j)) <$> seqZ 0 n.

(** The two loops of [tooManyChanges]; [++numChanges] happens only at a
    cell that differs. *)
Fixpoint tooManyChanges_loop (pairs : list coord) (numChanges : Z)
    (previousGrid currentGrid : Grid) : verdict :=
  match pairs with
  | [] => Fine
  | c :: rest =>
      if negb (cell previousGrid c =? cell currentGrid c) then
        if numChanges + 1 =? 2 then Raise TooManyChanges
        else tooManyChanges_loop rest (numChanges + 1)
               previousGrid currentGrid
      else tooManyChanges_loop rest numChanges previousGrid currentGrid
  end.

Definition tooManyChanges (previousGrid currentGrid : Grid) : verdict :=
  tooManyChanges_loop (index_pairs (size previousGrid)) 0
    previousGrid currentGrid.

(** The 4×4 grid without any digit. *)
Definition blank4 : Grid := replicate 4 (replicate 4 0).

(** The state a [pop] leads to. *)
Definition popped (st : state) : state :=
  match pop st with
  | Ok st' => st'
  | Throw _ => st
  end.

(** The state after [k] passes through the loop body. *)
Fixpoint passes (k : nat) (st : state) (s : Z) : state :=
  match k with
  | O => st
  | S k' =>
      match iteration st s with
      | Ok st' => passes k' st' s
      | Throw _ => st
      end
  end.

(** ** The recursive solver of [EPI_Simplified.cpp]

    [SolvePartialSudoku] walks the cells column by column and tries the
    digits in turn. A read outside a vector, and the division by a zero
    region size, are undefined in the source: they are the [Throw Undefined]
    result. The square root is taken on a [double] and truncated; it is
    exact on the sizes of a grid, so it is [Z.sqrt]. [SolveSudoku], which
    flows off its end without a [return], is left out. *)

Definition kEmptyEntry : Z := 0.

(** [partial_assignment[i][j]] as an rvalue, [None] outside the
    vectors. *)
Definition entry (g : Grid) (i j : Z) : option Z :=
  if (0 <=? i) && (0 <=? j)
  then g !! Z.to_nat i ≫= λ row, row !! Z.to_nat j
  else None.

(** A loop over [places] that returns false at the first entry equal to
    [val]. *)
Fixpoint no_entry_is (val : Z) (g : Grid) (places : list coord)
    : result bool :=
  match places with
  | [] => Ok true
  | c :: rest =>
      match entry g c.1 c.2 with
      | None => Throw Undefined
      | Some v => if val =? v then Ok false else no_entry_is val g rest
      end
  end.

(** The cells of the region of [(i, j)], as the two nested loops visit
    them. *)
Definition region_places (region_size i j : Z) : list coord :=
  let I := Z.quot i region_size in
  let J := Z.quot j region_size in
  seqZ 0 region_size ≫= λ a,
    (λ b, (region_size * I + a, region_size * J + b)) <$> seqZ 0 region_size.

Definition ValidToAddVal (g : Grid) (i j val : Z) : result bool :=
  bind (no_entry_is val g ((λ k, (k, j)) <$> seqZ 0 (size g))) (λ free,
    if negb free then Ok false
    else
      bind (no_entry_is val g ((λ k, (i, k)) <$> seqZ 0 (size g))) (λ free,
        if negb free then Ok false
        else
          let region_size := Z.sqrt (size g) in
          if region_size =? 0 then Throw Undefined
          else no_entry_is val g (region_places region_size i j))).

(** The [for] loop of [SolvePartialSudoku] over the digits still to
    try; [next] is the recursive call for the following cell. After the
    last digit the cell is emptied again. *)
Fixpoint try_vals (next : Grid → option (result (bool * Grid)))
    (i j : Z) (vals : list Z) (g : Grid) : option (result (bool * Grid)) :=
  match vals with
  | [] => Some (Ok (false, set_cell g (i, j) kEmptyEntry))
  | val :: vals' =>
      match ValidToAddVal g i j val with
      | Throw e => Some (Throw e)
      | Ok false => try_vals next i j vals' g
      | Ok true =>
          match next (set_cell g (i, j) val) with
          | None => None
          | Some (Throw e) => Some (Throw e)
          | Some (Ok (true, g')) => Some (Ok (true, g'))
          | Some (Ok (false, g')) => try_vals next i j vals' g'
          end
      end
  end.

(** [SolvePartialSudoku]: the returned flag with the grid behind the
    pointer; [None] when the recursion is deeper than [fuel]. *)
Fixpoint SolvePartialSudoku (fuel : nat) (i j : Z) (g : Grid)
    : option (result (bool * Grid)) :=
  match fuel with
  | O => None
  | S fuel' =>
      let wrap := i =? size g in
      let i1 := if wrap then 0 else i in
      let j1 := if wrap then j + 1 else j in
      let filled_up :=
        if wrap then
          match g !! 0%nat with
          | None => Throw Undefined
          | Some row => Ok (j1 =? size row)
          end
        else Ok false in
      match filled_up with
      | Throw e => Some (Throw e)
      | Ok true => Some (Ok (true, g))
      | Ok false =>
          match entry g i1 j1 with
          | None => Some (Throw Undefined)
          | Some v =>
              if negb (v =? kEmptyEntry)
              then SolvePartialSudoku fuel' (i1 + 1) j1 g
              else try_vals (SolvePartialSudoku fuel' (i1 + 1) j1) i1 j1
                     (seqZ 1 (size g)) g
          end
      end
  end.

(** The cells at or after [(i, j)] on the way of [SolvePartialSudoku]. *)
Definition ahead (i j : Z) (c : coord) : Prop :=
  j < c.2 ∨ (c.2 = j ∧ i ≤ c.1).

(** What [SolvePartialSudoku] called at [(i, j)] on [g] may return: true
    with [g] filled from [(i, j)] on and nothing else changed, or false
    with [g] as it was and no solution. *)
Definition solved_from (n s i j : Z) (g : Grid) (r : bool * Grid) : Prop :=
  if r.1
  then square n r.2 ∧ (∀ c, InRange n c → 0 ≤ cell r.2 c ≤ n) ∧
       no_clash n s r.2 ∧ extends n g r.2 ∧
       (∀ c, InRange n c → ahead i j c → cell r.2 c ≠ 0) ∧
       (∀ c, InRange n c → ¬ ahead i j c → cell r.2 c = cell g c)
  else r.2 = g ∧ NoSol n s g.

(** * Properties *)

(** ** Coordinates and grids *)

Lemma size_nonneg {A} (l : list A) : 0 ≤ size l.
Proof. unfold size. lia. Qed.

Lemma checkPair_true c g : checkPair c g = true ↔ InRange (size g) c.
Proof.
  unfold checkPair, checkIndex, InRange.
  rewrite andb_true_iff, !negb_true_iff, !orb_false_iff.
  rewrite !Z.ltb_ge, !Z.geb_leb, !Z.leb_gt. lia.
Qed.

Lemma square_row n g i row :
  square n g → g !! i = Some row → size row = n.
Proof.
  intros [_ Hrows] Hi. rewrite Forall_lookup in Hrows. by eapply Hrows.
Qed.

Lemma inrange_lookup n g c :
  square n g → InRange n c →
  ∃ row v, g !! Z.to_nat c.1 = Some row ∧ row !! Z.to_nat c.2 = Some v.
Proof.
  intros Hsq [H1 H2].
  destruct (lookup_lt_is_Some_2 g (Z.to_nat c.1)) as [row Hrow].
  { destruct Hsq as [Hs _]. unfold size in Hs. lia. }
  destruct (lookup_lt_is_Some_2 row (Z.to_nat c.2)) as [v Hv].
  { pose proof (square_row _ _ _ _ Hsq Hrow) as Hs. unfold size in Hs. lia. }
  eauto.
Qed.

Lemma nonneg_guard (c : coord) :
  0 ≤ c.1 → 0 ≤ c.2 → (0 <=? c.1) && (0 <=? c.2) = true.
Proof. intros. apply andb_true_iff. split; by apply Z.leb_le. Qed.

Lemma cell_set_cell_eq n g c v :
  square n g → InRange n c → cell (set_cell g c v) c = v.
Proof.
  intros Hsq Hc. destruct (inrange_lookup _ _ _ Hsq Hc) as (row & w & Hrow & Hw).
  destruct Hc as [H1 H2]. unfold cell, set_cell.
  rewrite nonneg_guard by lia.
  rewrite list_lookup_alter_eq, Hrow. simpl.
  rewrite list_lookup_insert_eq; [done|]. by eapply lookup_lt_Some.
Qed.

Lemma cell_set_cell_ne g c c' v :
  c ≠ c' → cell (set_cell g c' v) c = cell g c.
Proof.
  intros Hne. unfold cell, set_cell.
  destruct ((0 <=? c.1) && (0 <=? c.2)) eqn:Hc; [|done].
  destruct ((0 <=? c'.1) && (0 <=? c'.2)) eqn:Hc'; [|done].
  apply andb_true_iff in Hc as [?%Z.leb_le ?%Z.leb_le].
  apply andb_true_iff in Hc' as [?%Z.leb_le ?%Z.leb_le].
  destruct (decide (Z.to_nat c'.1 = Z.to_nat c.1)) as [Heq|Hrow].
  - rewrite Heq, list_lookup_alter_eq.
    destruct (g !! Z.to_nat c.1) as [row|]; [simpl|done].
    rewrite list_lookup_insert_ne; [done|].
    intros Heq2. apply Hne. destruct c, c'; simpl in *. f_equal; lia.
  - by rewrite list_lookup_alter_ne.
Qed.

Lemma square_set_cell n g c v : square n g → square n (set_cell g c v).
Proof.
  intros [Hs Hrows]. unfold set_cell.
  destruct ((0 <=? c.1) && (0 <=? c.2)); [|done]. split.
  - unfold size in *. by rewrite length_alter.
  - apply Forall_alter; [done|]. intros row _ Hrow.
    unfold size in *. by rewrite length_insert.
Qed.

Lemma size_set_cell g c v : size (set_cell g c v) = size g.
Proof.
  unfold set_cell, size. destruct (_ && _); [|done]. by rewrite length_alter.
Qed.

Lemma set_cell_set_cell g c v w :
  set_cell (set_cell g c v) c w = set_cell g c w.
Proof.
  unfold set_cell. destruct (_ && _); [|done].
  rewrite list_alter_alter_eq. apply list_alter_ext; [|done].
  intros row _. simpl. by rewrite list_insert_insert_eq.
Qed.

Lemma set_cell_id n g c :
  square n g → InRange n c → set_cell g c (cell g c) = g.
Proof.
  intros Hsq Hc. destruct (inrange_lookup _ _ _ Hsq Hc) as (row & w & Hrow & Hw).
  destruct Hc as [H1 H2]. unfold cell, set_cell.
  rewrite nonneg_guard by lia. rewrite Hrow. simpl. rewrite Hw. simpl.
  apply list_eq. intros i.
  destruct (decide (i = Z.to_nat c.1)) as [->|Hi].
  - rewrite list_lookup_alter_eq, Hrow. simpl. by rewrite list_insert_id.
  - by rewrite list_lookup_alter_ne.
Qed.

(** Two square grids with the same cells are equal. *)
Lemma grid_ext n g1 g2 :
  square n g1 → square n g2 →
  (∀ c, InRange n c → cell g1 c = cell g2 c) → g1 = g2.
Proof.
  intros Hsq1 Hsq2 Hc.
  pose proof (proj1 Hsq1) as Hl1. pose proof (proj1 Hsq2) as Hl2.
  unfold size in Hl1, Hl2.
  apply list_eq_same_length with (Z.to_nat n); [lia..|].
  intros i r1 r2 Hi Hr1 Hr2.
  pose proof (square_row _ _ _ _ Hsq1 Hr1) as Hs1.
  pose proof (square_row _ _ _ _ Hsq2 Hr2) as Hs2.
  unfold size in Hs1, Hs2.
  apply list_eq_same_length with (Z.to_nat n); [lia..|].
  intros j v1 v2 Hj Hv1 Hv2.
  specialize (Hc (Z.of_nat i, Z.of_nat j)). unfold cell in Hc. simpl in Hc.
  rewrite !Nat2Z.id, Hr1, Hr2 in Hc. simpl in Hc.
  rewrite Hv1, Hv2 in Hc. simpl in Hc.
  destruct (0 <=? Z.of_nat i) eqn:E1; [|apply Z.leb_gt in E1; lia].
  destruct (0 <=? Z.of_nat j) eqn:E2; [|apply Z.leb_gt in E2; lia].
  apply Hc. unfold InRange. simpl. lia.
Qed.

(** ** The cell enumeration *)

Lemma concat_join {A} (ls : list (list A)) : concat ls = mjoin ls.
Proof. induction ls; simpl; [done|]. by rewrite IHls. Qed.

Lemma elem_of_cells g c v :
  (c, v) ∈ cells g ↔
  0 ≤ c.1 ∧ 0 ≤ c.2 ∧
  ∃ row, g !! Z.to_nat c.1 = Some row ∧ row !! Z.to_nat c.2 = Some v.
Proof.
  unfold cells. rewrite concat_join, list_elem_of_join. split.
  - intros (l & Hin & Hl).
    apply elem_of_lookup_imap in Hl as (i & row & -> & Hrow).
    apply elem_of_lookup_imap in Hin as (j & w & Heq & Hw).
    injection Heq as -> ->. simpl. rewrite !Nat2Z.id.
    split; [lia|]. split; [lia|]. eauto.
  - intros (H1 & H2 & row & Hrow & Hv).
    exists (imap (λ j w, ((Z.of_nat (Z.to_nat c.1), Z.of_nat j), w)) row).
    split.
    + apply elem_of_lookup_imap. exists (Z.to_nat c.2), v. split; [|done].
      destruct c as [i j]. simpl in *. f_equal. f_equal; lia.
    + apply elem_of_lookup_imap. by exists (Z.to_nat c.1), row.
Qed.

Lemma elem_of_cells_square n g c v :
  square n g → (c, v) ∈ cells g ↔ InRange n c ∧ cell g c = v.
Proof.
  intros Hsq. rewrite elem_of_cells. split.
  - intros (H1 & H2 & row & Hrow & Hv). split.
    + split.
      * apply lookup_lt_Some in Hrow. destruct Hsq as [Hs _].
        unfold size in Hs. lia.
      * pose proof (square_row _ _ _ _ Hsq Hrow) as Hs.
        apply lookup_lt_Some in Hv. unfold size in Hs. lia.
    + unfold cell. rewrite nonneg_guard by done. rewrite Hrow. simpl.
      by rewrite Hv.
  - intros [Hc <-]. destruct (inrange_lookup _ _ _ Hsq Hc) as (row & w & Hrow & Hw).
    destruct Hc as [H1 H2]. split; [lia|]. split; [lia|].
    exists row. split; [done|]. unfold cell.
    rewrite nonneg_guard by lia. rewrite Hrow. simpl. by rewrite Hw.
Qed.

Lemma NoDup_imap_fst {A B} (f : nat → B) (l : list A) k :
  Inj (=) (=) f →
  NoDup (fmap (M:=list) (@fst B A) (imap (λ j v, (f (k + j)%nat, v)) l)).
Proof.
  intros Hinj. revert k. induction l as [|x l IH]; intros k.
  - constructor.
  - rewrite imap_cons. simpl. constructor.
    + intros Hin. apply list_elem_of_fmap in Hin as ([b w] & Heq & Hin). simpl in Heq.
      apply elem_of_lookup_imap in Hin as (j & y & Hy & _).
      injection Hy as -> ->. apply Hinj in Heq. lia.
    + specialize (IH (S k)).
      erewrite imap_ext; [exact IH|].
      intros j y _. simpl. do 2 f_equal. lia.
Qed.

Lemma NoDup_cells_from (g : Grid) (k : nat) :
  NoDup ((mjoin (imap (λ i row,
            imap (λ j (v : Z), ((Z.of_nat (k + i), Z.of_nat j), v)) row) g)).*1).
Proof.
  revert k. induction g as [|row g IH]; intros k.
  - constructor.
  - rewrite imap_cons. simpl. rewrite fmap_app. apply NoDup_app. split; [|split].
    + pose proof (NoDup_imap_fst (A:=Z)
                    (λ j, (Z.of_nat (k + 0), Z.of_nat j)) row 0) as H.
      simpl in H. apply H. intros a b Hab. injection Hab. lia.
    + intros c Hc1 Hc2.
      apply list_elem_of_fmap in Hc1 as ([c1 v1] & -> & Hin1).
      apply elem_of_lookup_imap in Hin1 as (j1 & w1 & Heq1 & _).
      apply list_elem_of_fmap in Hc2 as ([c2 v2] & Heq & Hin2).
      apply list_elem_of_join in Hin2 as (l & Hin2 & Hl).
      apply elem_of_lookup_imap in Hl as (i & row' & -> & _).
      apply elem_of_lookup_imap in Hin2 as (j2 & w2 & Heq2 & _).
      simpl in *. injection Heq1 as -> ->. injection Heq2 as -> ->.
      simpl in Heq. injection Heq. lia.
    + specialize (IH (S k)). erewrite imap_ext; [exact IH|].
      intros i row' _. simpl. apply imap_ext. intros j v _. simpl.
      do 3 f_equal. lia.
Qed.

Lemma NoDup_cells g : NoDup (cells g).*1.
Proof.
  unfold cells. rewrite concat_join. exact (NoDup_cells_from g 0).
Qed.

(** ** The blank pool and the occurrence index of a grid *)

Lemma blankSquares_fold (l : list (coord * Z)) (acc : list coord) :
  fold_left (λ blanks cv, if cv.2 =? 0 then blanks ++ [cv.1] else blanks) l acc
  = acc ++ (filter (λ cv, cv.2 = 0) l).*1.
Proof.
  revert acc. induction l as [|[c v] l IH]; intros acc; simpl.
  - by rewrite app_nil_r.
  - rewrite IH. rewrite filter_cons. simpl.
    destruct (Z.eqb_spec v 0) as [->|Hv].
    + rewrite decide_True by done. simpl. by rewrite <- app_assoc.
    + by rewrite decide_False by done.
Qed.

Lemma blankSquares_filter g :
  blankSquares g = (filter (λ cv, cv.2 = 0) (cells g)).*1.
Proof. unfold blankSquares. by rewrite blankSquares_fold. Qed.

Lemma NoDup_filter_cells (P : coord * Z → Prop) `{∀ x, Decision (P x)} g :
  NoDup (filter P (cells g)).*1.
Proof.
  eapply sublist_NoDup; [apply NoDup_cells|].
  apply fmap_sublist, sublist_filter.
Qed.

Lemma elem_of_filter_cells n g (P : coord * Z → Prop) `{∀ x, Decision (P x)} c :
  square n g →
  c ∈ (filter P (cells g)).*1 ↔ InRange n c ∧ P (c, cell g c).
Proof.
  intros Hsq. rewrite list_elem_of_fmap. split.
  - intros ([c' v] & -> & Hin). apply list_elem_of_filter in Hin as [HP Hin].
    apply (elem_of_cells_square n) in Hin as [Hc <-]; [|done]. done.
  - intros [Hc HP]. exists (c, cell g c). split; [done|].
    apply list_elem_of_filter. split; [done|].
    by apply (elem_of_cells_square n).
Qed.

Lemma elem_of_blankSquares n g c :
  square n g → c ∈ blankSquares g ↔ InRange n c ∧ cell g c = 0.
Proof.
  intros Hsq. rewrite blankSquares_filter.
  by rewrite (elem_of_filter_cells n).
Qed.

Lemma NoDup_blankSquares g : NoDup (blankSquares g).
Proof. rewrite blankSquares_filter. apply NoDup_filter_cells. Qed.

Lemma rec_get_push r d' c d :
  rec_get (rec_push r d' c) d =
  if decide (d = d') then rec_get r d ++ [c] else rec_get r d.
Proof.
  unfold rec_push, rec_get at 1. case_decide as Hd.
  - subst. by rewrite lookup_insert_eq.
  - by rewrite lookup_insert_ne.
Qed.

Lemma rec_get_insert (r : records) d' col d :
  rec_get (<[d' := col]> r) d = if decide (d = d') then col else rec_get r d.
Proof.
  unfold rec_get at 1. case_decide as Hd.
  - subst. by rewrite lookup_insert_eq.
  - by rewrite lookup_insert_ne.
Qed.

Lemma occurrences_fold (l : list (coord * Z)) (r : records) d :
  rec_get (fold_left (λ res cv,
             if cv.2 =? 0 then res else rec_push res cv.2 cv.1) l r) d
  = rec_get r d ++
    (if decide (d = 0) then [] else (filter (λ cv, cv.2 = d) l).*1).
Proof.
  revert r. induction l as [|[c v] l IH]; intros r; simpl.
  - case_decide; by rewrite app_nil_r.
  - rewrite IH. rewrite filter_cons. simpl.
    destruct (Z.eqb_spec v 0) as [->|Hv].
    + case_decide as Hd; [done|]. by rewrite decide_False by done.
    + rewrite rec_get_push. case_decide as Hd.
      * by rewrite decide_False by congruence.
      * destruct (decide (d = v)) as [->|Hdv].
        -- rewrite decide_True by done. simpl. by rewrite <- app_assoc.
        -- by rewrite decide_False by done.
Qed.

Lemma rec_get_occurrences g d :
  rec_get (occurrences g) d =
  if decide (d = 0) then [] else (filter (λ cv, cv.2 = d) (cells g)).*1.
Proof. unfold occurrences. by rewrite occurrences_fold. Qed.

Lemma rec_ok_occurrences n g : square n g → rec_ok n (occurrences g) g.
Proof.
  intros Hsq d. rewrite rec_get_occurrences. case_decide as Hd.
  - split; [constructor|]. intros c. split; [intros Hc; inversion Hc|].
    by intros [? _].
  - split; [apply NoDup_filter_cells|]. intros c.
    rewrite (elem_of_filter_cells n) by done. simpl.
    split; [intros [? ?]; by subst|intros (? & ? & ?); by subst].
Qed.

Lemma blanks_ok_blankSquares n g : square n g → blanks_ok n (blankSquares g) g.
Proof.
  intros Hsq. split; [apply NoDup_blankSquares|].
  intros c. by apply elem_of_blankSquares.
Qed.

(** ** The consistency checker *)

Lemma consistent_pair_true lhs rhs s :
  consistent_pair lhs rhs s = true ↔ lhs = rhs ∨ ¬ shares_unit s lhs rhs.
Proof.
  unfold consistent_pair, sameSubgrid, shares_unit.
  rewrite orb_true_iff, !andb_true_iff, !negb_true_iff, andb_false_iff.
  rewrite bool_decide_eq_true, !Z.eqb_neq.
  destruct lhs as [l1 l2], rhs as [r1 r2]. simpl.
  assert ((l1, l2) = (r1, r2) ↔ l1 = r1 ∧ l2 = r2) as ->.
  { split; [by intros [= -> ->]|by intros [-> ->]]. }
  lia.
Qed.

Lemma consistent_pair_sym c1 c2 s :
  consistent_pair c1 c2 s = consistent_pair c2 c1 s.
Proof.
  apply eq_true_iff_eq. rewrite !consistent_pair_true.
  unfold shares_unit. split; (intros [->|H]; [by left|right; lia]).
Qed.

Lemma consistent_column_true location column s :
  consistent_column location column s = true ↔
  ∀ c, c ∈ column → consistent_pair location c s = true.
Proof.
  induction column as [|c0 column IH]; simpl.
  - split; [|done]. intros _ c Hc. inversion Hc.
  - destruct (consistent_pair location c0 s) eqn:E; simpl.
    + rewrite IH. split.
      * intros H c Hc. apply elem_of_cons in Hc as [->|Hc]; auto.
      * intros H c Hc. apply H. by right.
    + split; [done|]. intros H. rewrite <- E. apply H. by left.
Qed.

(** ** Legal digits of a cell, read off the grid *)

Lemma legal_true n g s c d :
  square n g →
  legal g s c d = true ↔
  ∀ c', InRange n c' → cell g c' = d → consistent_pair c c' s = true.
Proof.
  intros Hsq. unfold legal. rewrite forallb_forall. split.
  - intros H c' Hc' Hd.
    specialize (H (c', d)). simpl in H. rewrite Z.eqb_refl in H. simpl in H.
    apply H. apply list_elem_of_In. by apply (elem_of_cells_square n).
  - intros H [c' v] Hin. simpl.
    apply list_elem_of_In, (elem_of_cells_square n) in Hin as [Hc' Hv]; [|done].
    destruct (Z.eqb_spec v d) as [->|Hne]; simpl; [|done]. by apply H.
Qed.

Lemma consistent_legal n g r s c d :
  square n g → rec_ok n r g → d ≠ 0 →
  consistent d c g r s = legal g s c d.
Proof.
  intros Hsq Hr Hd. apply eq_true_iff_eq. unfold consistent.
  rewrite consistent_column_true, (legal_true n) by done.
  destruct (Hr d) as [_ Hmem]. split.
  - intros H c' Hc' Hv. apply H, Hmem. done.
  - intros H c' Hin. apply Hmem in Hin as (_ & Hc' & Hv). by apply H.
Qed.

Lemma elem_of_opts g s c d :
  d ∈ opts g s c ↔ 1 ≤ d ≤ size g ∧ legal g s c d = true.
Proof.
  unfold opts. rewrite list_elem_of_filter, elem_of_seqZ.
  split; (intros [? ?]; split; [done || lia..]).
Qed.

Lemma NoDup_opts g s c : NoDup (opts g s c).
Proof. apply NoDup_filter, NoDup_seqZ. Qed.

Lemma filter_ext_in {A} (P Q : A → Prop) `{∀ x, Decision (P x)}
    `{∀ x, Decision (Q x)} (l : list A) :
  (∀ x, x ∈ l → P x ↔ Q x) → filter P l = filter Q l.
Proof.
  induction l as [|x l IH]; intros HPQ; [done|].
  rewrite !filter_cons. rewrite IH.
  - destruct (decide (P x)) as [HP|HP], (decide (Q x)) as [HQ|HQ]; try done.
    + exfalso. apply HQ, HPQ; [by left|done].
    + exfalso. apply HP, HPQ; [by left|done].
  - intros y Hy. apply HPQ. by right.
Qed.

(** ** [options] *)

Lemma options_fold n (location : coord) (r : records) s :
  InRange n location →
  ∀ (l : list Z) (res : list Z) (g0 : Grid), square n g0 →
  ∃ g',
    fold_left (λ '(res, g0) attemptDigit,
        let g1 := set_cell g0 location (attemptDigit + 1) in
        let val := cell g1 location in
        if consistent val location g1 r s
        then (res ++ [val], g1) else (res, g1)) l (res, g0)
    = (res ++ filter (λ d, consistent_column location (rec_get r d) s = true)
                 ((λ a, a + 1) <$> l), g')
    ∧ square n g' ∧ set_cell g' location 0 = set_cell g0 location 0.
Proof.
  intros Hloc.
  set (F := λ '(res, g0) attemptDigit,
        let g1 := set_cell g0 location (attemptDigit + 1) in
        let val := cell g1 location in
        if consistent val location g1 r s
        then (res ++ [val], g1) else (res, g1)).
  induction l as [|a l IH]; intros res g0 Hsq; cbn [fold_left].
  - exists g0. by rewrite app_nil_r.
  - pose proof (square_set_cell n g0 location (a + 1) Hsq) as Hsq1.
    assert (F (res, g0) a =
            (if consistent_column location (rec_get r (a + 1)) s
             then res ++ [a + 1] else res, set_cell g0 location (a + 1)))
      as ->.
    { unfold F. cbv zeta. rewrite (cell_set_cell_eq n) by done.
      unfold consistent. by destruct (consistent_column _ _ _). }
    rewrite fmap_cons, filter_cons.
    destruct (IH (if consistent_column location (rec_get r (a + 1)) s
                  then res ++ [a + 1] else res) _ Hsq1)
      as (g' & Hfold & Hsq' & Hset).
    exists g'. rewrite Hfold. split; [|split; [done|]].
    + destruct (consistent_column location (rec_get r (a + 1)) s) eqn:E.
      * rewrite decide_True by done. by rewrite <- app_assoc.
      * by rewrite decide_False by done.
    + by rewrite Hset, set_cell_set_cell.
Qed.

Lemma options_raw n c g r s :
  square n g → InRange n c →
  options c g r s =
  (filter (λ d, consistent_column c (rec_get r d) s = true) (seqZ 1 n),
   set_cell g c 0).
Proof.
  intros Hsq Hc. unfold options.
  pose proof (proj1 Hsq) as Hn.
  rewrite (proj2 (checkPair_true c g)) by (by rewrite Hn).
  destruct (options_fold n c r s Hc (seqZ 0 (size g)) [] g Hsq)
    as (g' & Hfold & _ & Hset).
  cbv zeta in Hfold. rewrite Hfold. simpl. rewrite Hset. f_equal. f_equal.
  rewrite Hn. change (seqZ 1 n) with (seqZ (1 + 0) n).
  rewrite <- (fmap_add_seqZ 1 0 n).
  apply list_fmap_ext. intros _ a _. lia.
Qed.

Lemma options_spec n c g r s :
  square n g → InRange n c → rec_ok n r g →
  options c g r s = (opts g s c, set_cell g c 0).
Proof.
  intros Hsq Hc Hr. rewrite (options_raw n) by done. f_equal.
  unfold opts. rewrite (proj1 Hsq). apply filter_ext_in.
  intros d Hd%elem_of_seqZ.
  change (consistent_column c (rec_get r d) s) with (consistent d c g r s).
  rewrite (consistent_legal n) by (done || lia). done.
Qed.

(** ** The selector [min] *)

Lemma count_successful_spec c g r s thr :
  ∀ fuel a k,
    a + Z.of_nat fuel = size g + 1 → k ≤ thr →
    count_successful fuel a k thr c g r s =
    Z.min thr (k + size (filter (λ d, consistent_column c (rec_get r d) s = true)
                           (seqZ a (Z.of_nat fuel)))).
Proof.
  induction fuel as [|fuel IH]; intros a k Ha Hk.
  - simpl. unfold size. simpl. lia.
  - cbn [count_successful].
    rewrite seqZ_cons by lia. rewrite filter_cons.
    replace (Z.pred (Z.of_nat (S fuel))) with (Z.of_nat fuel) by lia.
    replace (Z.succ a) with (a + 1) by lia.
    destruct (Z.leb_spec a (size g)) as [_|?]; [|lia]. simpl.
    destruct (Z.ltb_spec k thr) as [Hlt|Hge].
    + unfold consistent at 1. case_decide as E.
      * rewrite E. rewrite IH by lia. unfold size. simpl. lia.
      * apply not_true_is_false in E. rewrite E. rewrite IH by lia. done.
    + pose proof (size_nonneg (if decide (consistent_column c (rec_get r a) s = true)
        then a :: filter (λ d, consistent_column c (rec_get r d) s = true)
                    (seqZ (a + 1) (Z.of_nat fuel))
        else filter (λ d, consistent_column c (rec_get r d) s = true)
                    (seqZ (a + 1) (Z.of_nat fuel)))). lia.
Qed.

Lemma count_successful_min c g r s thr :
  0 ≤ thr →
  count_successful (length g) 1 0 thr c g r s =
  Z.min thr (size (raw_opts c r s (size g))).
Proof.
  intros Hthr. rewrite count_successful_spec by (unfold size; lia).
  unfold raw_opts, size. done.
Qed.

Section min_loop.
Context (g : Grid) (r : records) (s : Z).

Lemma min_loop_spec rest :
  ∀ pos thr cm, 0 ≤ thr →
    ∃ cm' thr',
      min_loop rest pos thr cm g r s = (cm', thr')
      ∧ 0 ≤ thr' ≤ thr
      ∧ (∀ c, c ∈ rest → thr' ≤ raw_count c g r s)
      ∧ ((cm' = cm ∧ thr' = thr) ∨
         (∃ j c, rest !! j = Some c ∧ cm' = (pos + j)%nat
                 ∧ raw_count c g r s = thr' ∧ thr' < thr
                 ∧ ∀ j' c', (j' < j)%nat → rest !! j' = Some c' →
                            thr' < raw_count c' g r s)).
Proof.
  induction rest as [|c rest IH]; intros pos thr cm Hthr.
  - exists cm, thr. simpl. split; [done|]. split; [lia|].
    split; [intros c Hc; inversion Hc|by left].
  - cbn [min_loop]. destruct (Z.eqb_spec thr 0) as [->|Hnz].
    { exists cm, 0. split; [done|]. split; [lia|]. split; [|by left].
      intros c' _. apply size_nonneg. }
    rewrite count_successful_min by done. fold (raw_count c g r s).
    assert (0 ≤ raw_count c g r s) as Hc0 by apply size_nonneg.
    destruct (Z.ltb_spec (Z.min thr (raw_count c g r s)) thr) as [Hlt|Hge].
    + replace (Z.min thr (raw_count c g r s)) with (raw_count c g r s)
        by lia.
      destruct (IH (S pos) (raw_count c g r s) pos Hc0)
        as (cm' & thr' & Heq & Hle & Hall & Hcase).
      exists cm', thr'. split; [done|]. split; [lia|]. split.
      * intros c' [->|Hc']%elem_of_cons; [lia|by apply Hall].
      * right.
        destruct Hcase
          as [[-> ->]|(j & c2 & Hj & -> & Hc2 & Hlt2 & Hbefore)].
        -- exists 0%nat, c. split; [done|]. split; [lia|]. split; [done|].
           split; [lia|]. intros j' c' Hj'. lia.
        -- exists (S j), c2. split; [done|]. split; [lia|]. split; [done|].
           split; [lia|]. intros [|j'] c' Hj' Hl; simpl in Hl.
           ++ injection Hl as <-. lia.
           ++ apply (Hbefore j'); [lia|done].
    + destruct (IH (S pos) thr cm Hthr)
        as (cm' & thr' & Heq & Hle & Hall & Hcase).
      exists cm', thr'. split; [done|]. split; [lia|]. split.
      * intros c' [->|Hc']%elem_of_cons; [lia|by apply Hall].
      * destruct Hcase as [[-> ->]|(j & c2 & Hj & -> & Hc2 & Hlt2 & Hbefore)];
          [by left|right].
        exists (S j), c2. split; [done|]. split; [lia|]. split; [done|].
        split; [lia|]. intros [|j'] c' Hj' Hl; simpl in Hl.
        -- injection Hl as <-. lia.
        -- apply (Hbefore j'); [lia|done].
Qed.
End min_loop.

(** [min] on a non-empty pool whose first blank lies on the grid: the
    selected position holds a blank with the least count, no earlier blank
    has a count as small, and the flag tells whether that count is
    non-zero. *)
Lemma min_spec n g blanks r s c0 rest :
  square n g → blanks = c0 :: rest → InRange n c0 →
  ∃ i loc,
    min g blanks r s =
      (i, negb (size (raw_opts loc r s n) =? 0), set_cell g c0 0)
    ∧ blanks !! i = Some loc
    ∧ (∀ c, c ∈ blanks → size (raw_opts loc r s n) ≤ size (raw_opts c r s n))
    ∧ (∀ j c, (j < i)%nat → blanks !! j = Some c →
              size (raw_opts loc r s n) < size (raw_opts c r s n)).
Proof.
  intros Hsq -> Hc0. unfold min.
  rewrite (options_raw n) by done. fold (raw_opts c0 r s n).
  pose proof (square_set_cell n g c0 0 Hsq) as Hsq'.
  destruct (min_loop_spec (set_cell g c0 0) r s rest 1
              (size (raw_opts c0 r s n)) 0%nat)
    as (cm' & thr' & Heq & Hle & Hall & Hcase); [apply size_nonneg|].
  rewrite Heq. unfold raw_count in Hall, Hcase.
  rewrite (proj1 Hsq') in Hall, Hcase.
  destruct Hcase as [[-> ->]|(j & c2 & Hj & -> & Hc2 & Hlt2 & Hbefore)].
  - exists 0%nat, c0. split; [done|]. split; [done|]. split.
    + intros c [->|Hc]%elem_of_cons; [lia|by apply Hall].
    + intros j c Hj. lia.
  - exists (S j), c2. rewrite Hc2. split; [done|]. split; [done|]. split.
    + intros c [->|Hc]%elem_of_cons; [lia|by apply Hall].
    + intros [|j'] c Hj' Hl; simpl in Hl.
      * injection Hl as <-. lia.
      * apply (Hbefore j'); [lia|done].
Qed.

(** ** Updating the index and the pool along with the grid *)

Lemma find_Some column c iter :
  find column c = Some iter → column !! iter = Some c.
Proof.
  unfold find. intros H. apply fmap_Some in H as ([i x] & Hf & ->).
  apply list_find_Some in Hf as (Hl & -> & _). done.
Qed.

Lemma find_elem_of column c :
  c ∈ column → ∃ iter, find column c = Some iter.
Proof.
  intros Hin. unfold find.
  destruct (list_find (λ x, x = c) column) as [[i x]|] eqn:E; [by exists i|].
  apply list_find_None in E. rewrite Forall_forall in E.
  by destruct (E c Hin).
Qed.

Lemma elem_of_delete_NoDup {A} (l : list A) i x y :
  NoDup l → l !! i = Some x → y ∈ delete i l ↔ y ∈ l ∧ y ≠ x.
Proof.
  intros Hnd Hi. rewrite <- (take_drop_middle l i x Hi) in Hnd |- * at 2.
  rewrite delete_take_drop. apply NoDup_app in Hnd as (_ & Hdisj & Hnd2).
  apply NoDup_cons in Hnd2 as [Hx _].
  rewrite !elem_of_app, elem_of_cons. split.
  - intros [Hy|Hy].
    + split; [by left|]. intros ->. apply (Hdisj x Hy). by left.
    + split; [by right; right|]. by intros ->.
  - intros [[Hy|[->|Hy]] Hne]; [by left|done|by right].
Qed.

Lemma NoDup_delete {A} (l : list A) i : NoDup l → NoDup (delete i l).
Proof. intros H. eapply sublist_NoDup; [done|]. apply sublist_delete. Qed.

Section updates.
Context (n : Z).

Lemma rec_ok_place r g c d :
  square n g → rec_ok n r g → InRange n c → cell g c = 0 → d ≠ 0 →
  rec_ok n (rec_push r d c) (set_cell g c d).
Proof.
  intros Hsq Hr Hc Hblank Hd d'. rewrite rec_get_push.
  destruct (Hr d') as [Hnd Hmem]. case_decide as Hdd.
  - subst d'. split.
    + apply NoDup_app. split; [done|]. split; [|apply NoDup_singleton].
      intros x Hx ->%list_elem_of_singleton.
      apply Hmem in Hx as (_ & _ & Hx). congruence.
    + intros x. rewrite elem_of_app, list_elem_of_singleton, Hmem.
      destruct (decide (x = c)) as [->|Hne].
      * rewrite (cell_set_cell_eq n) by done. split; [|by right].
        intros _. done.
      * rewrite cell_set_cell_ne by done. split; [|by left].
        by intros [?|?].
  - split; [done|]. intros x. rewrite Hmem.
    destruct (decide (x = c)) as [->|Hne].
    + rewrite (cell_set_cell_eq n) by done. split.
      * intros (? & _ & ?). congruence.
      * intros (_ & _ & ?). congruence.
    + by rewrite cell_set_cell_ne.
Qed.

Lemma rec_ok_remove r g c d iter :
  square n g → rec_ok n r g → InRange n c →
  find (rec_get r d) c = Some iter →
  rec_ok n (<[d := delete iter (rec_get r d)]> r) (set_cell g c 0).
Proof.
  intros Hsq Hr Hc Hfind%find_Some d'. rewrite rec_get_insert.
  destruct (Hr d') as [Hnd Hmem]. destruct (Hr d) as [Hndd Hmemd].
  assert (d ≠ 0 ∧ cell g c = d) as [Hd Hcd].
  { assert (c ∈ rec_get r d) as Hin by by eapply list_elem_of_lookup_2.
    apply Hmemd in Hin. tauto. }
  case_decide as Hdd.
  - subst d'. split; [by apply NoDup_delete|]. intros x.
    rewrite (elem_of_delete_NoDup _ _ c) by done. rewrite Hmem.
    destruct (decide (x = c)) as [->|Hne].
    + rewrite (cell_set_cell_eq n) by done. split.
      * by intros [_ ?].
      * intros (? & _ & ?). congruence.
    + rewrite cell_set_cell_ne by done. split; [by intros [? _]|done].
  - split; [done|]. intros x. rewrite Hmem.
    destruct (decide (x = c)) as [->|Hne].
    + rewrite (cell_set_cell_eq n) by done. split.
      * intros (? & _ & ?). congruence.
      * intros (? & _ & ?). congruence.
    + by rewrite cell_set_cell_ne.
Qed.

Lemma blanks_ok_delete blanks g i c d :
  square n g → blanks_ok n blanks g → blanks !! i = Some c → d ≠ 0 →
  blanks_ok n (delete i blanks) (set_cell g c d).
Proof.
  intros Hsq [Hnd Hmem] Hi Hd. split; [by apply NoDup_delete|].
  intros x. rewrite (elem_of_delete_NoDup _ _ c) by done. rewrite Hmem.
  assert (InRange n c) as Hc.
  { assert (c ∈ blanks) as Hin by by eapply list_elem_of_lookup_2.
    apply Hmem in Hin. tauto. }
  destruct (decide (x = c)) as [->|Hne].
  - rewrite (cell_set_cell_eq n) by done. split; [by intros [_ ?]|].
    intros [_ ?]. congruence.
  - rewrite cell_set_cell_ne by done. split; [by intros [? _]|done].
Qed.

Lemma blanks_ok_add blanks g c :
  square n g → blanks_ok n blanks g → InRange n c → cell g c ≠ 0 →
  blanks_ok n (blanks ++ [c]) (set_cell g c 0).
Proof.
  intros Hsq [Hnd Hmem] Hc Hfilled. split.
  - apply NoDup_app. split; [done|]. split; [|apply NoDup_singleton].
    intros x Hx ->%list_elem_of_singleton. apply Hmem in Hx. tauto.
  - intros x. rewrite elem_of_app, list_elem_of_singleton, Hmem.
    destruct (decide (x = c)) as [->|Hne].
    + rewrite (cell_set_cell_eq n) by done. split; [done|by right].
    + rewrite cell_set_cell_ne by done. split; [|by left].
      by intros [?|?].
Qed.

Lemma blanks_ok_change blanks g c v w :
  square n g → InRange n c → v ≠ 0 → w ≠ 0 →
  blanks_ok n blanks (set_cell g c v) → blanks_ok n blanks (set_cell g c w).
Proof.
  intros Hsq Hc Hv Hw [Hnd Hmem]. split; [done|]. intros x. rewrite Hmem.
  destruct (decide (x = c)) as [->|Hne].
  - rewrite !(cell_set_cell_eq n) by done. split; intros [_ ?]; congruence.
  - by rewrite !cell_set_cell_ne.
Qed.
End updates.

(** ** The invariant of the engine *)

Section invariant.
Context (n s : Z) (g0 : Grid).
Hypothesis Hsq0 : square n g0.

Lemma square_grid_of stk : square n (grid_of stk g0).
Proof.
  induction stk as [|f stk IH]; simpl; [done|]. by apply square_set_cell.
Qed.

Lemma Inv_square st : Inv n s g0 st → square n (grid st).
Proof. intros H. rewrite (inv_grid _ _ _ _ H). apply square_grid_of. Qed.

Lemma grid_of_mark_revisited stk :
  grid_of (mark_revisited stk) g0 = grid_of stk g0.
Proof. by destruct stk. Qed.

Lemma StackOK_mark_revisited stk :
  StackOK n s g0 stk → StackOK n s g0 (mark_revisited stk).
Proof. by destruct stk. Qed.

Lemma size_mark_revisited stk : size (mark_revisited stk) = size stk.
Proof. by destruct stk. Qed.

Lemma Inv_initial : Inv n s g0 (initial g0).
Proof.
  split; simpl.
  - done.
  - done.
  - by apply rec_ok_occurrences.
  - by apply blanks_ok_blankSquares.
  - unfold size. simpl. lia.
Qed.

Lemma raw_opts_opts r g c :
  square n g → rec_ok n r g → raw_opts c r s n = opts g s c.
Proof.
  intros Hsq Hr. unfold raw_opts, opts. rewrite (proj1 Hsq).
  apply filter_ext_in. intros d Hd%elem_of_seqZ.
  change (consistent_column c (rec_get r d) s) with (consistent d c g r s).
  rewrite (consistent_legal n) by (done || lia). done.
Qed.

(** The current choice of a frame. *)
Lemma frame_choice G f :
  square n G → frame_ok n s G f →
  ∃ v, choices f !! Z.to_nat (index f) = Some v ∧ 1 ≤ v ≤ n ∧
       v ∈ opts G s (coordinates f).
Proof.
  intros HsqG (_ & _ & Hch & Hidx & _).
  destruct (lookup_lt_is_Some_2 (choices f) (Z.to_nat (index f))) as [v Hv].
  { unfold size in Hidx. lia. }
  exists v. split; [done|].
  assert (v ∈ opts G s (coordinates f)) as Hin.
  { rewrite <- Hch. by eapply list_elem_of_lookup_2. }
  split; [|done]. apply elem_of_opts in Hin as [Hin _].
  rewrite (proj1 HsqG) in Hin. lia.
Qed.

(** What the invariant says about the top frame. *)
Lemma Inv_top st f stk' :
  Inv n s g0 st → stack st = f :: stk' →
  ∃ v, frame_ok n s (grid_of stk' g0) f ∧ StackOK n s g0 stk' ∧
       choices f !! Z.to_nat (index f) = Some v ∧ 1 ≤ v ≤ n ∧
       grid st = set_cell (grid_of stk' g0) (coordinates f) v ∧
       cell (grid st) (coordinates f) = v.
Proof.
  intros HI Hstk. pose proof (inv_stack _ _ _ _ HI) as HS.
  pose proof (inv_grid _ _ _ _ HI) as Hg. rewrite Hstk in HS, Hg.
  destruct HS as [Hf HS'].
  destruct (frame_choice _ _ (square_grid_of stk') Hf) as (v & Hv & Hrange & _).
  exists v. split; [done|]. split; [done|]. split; [done|]. split; [done|].
  assert (grid st = set_cell (grid_of stk' g0) (coordinates f) v) as Hgv.
  { rewrite Hg. simpl. by rewrite (list_lookup_total_correct _ _ _ Hv). }
  split; [done|]. rewrite Hgv. apply (cell_set_cell_eq n).
  - apply square_grid_of.
  - apply Hf.
Qed.

Lemma push_cases st :
  Inv n s g0 st → blanksInProcess st ≠ [] →
  (∃ st' f, push st s = Ok (true, st') ∧ Inv n s g0 st' ∧
            stack st' = f :: stack st ∧ index f = 0 ∧ revisited f = false)
  ∨ (push st s = Ok (false, st) ∧
     ∃ b, InRange n b ∧ cell (grid st) b = 0 ∧ opts (grid st) s b = []).
Proof.
  intros HI Hne. pose proof (Inv_square _ HI) as Hsq.
  destruct HI as [Hstk Hg Hr Hbl Hcnt].
  destruct st as [stk blanks r g]. simpl in *.
  destruct blanks as [|c0 rest]; [done|].
  assert (InRange n c0 ∧ cell g c0 = 0) as [Hc0 Hc0b].
  { apply Hbl. by left. }
  destruct (min_spec n g (c0 :: rest) r s c0 rest Hsq eq_refl Hc0)
    as (i & loc & Hmin & Hi & Hleast & _).
  pose proof (set_cell_id n g c0 Hsq Hc0) as Hid. rewrite Hc0b in Hid.
  rewrite Hid in Hmin.
  assert (InRange n loc ∧ cell g loc = 0) as [Hloc Hlocb].
  { apply Hbl. by eapply list_elem_of_lookup_2. }
  pose proof (set_cell_id n g loc Hsq Hloc) as Hidl. rewrite Hlocb in Hidl.
  rewrite (raw_opts_opts r g) in Hmin by done.
  destruct (opts g s loc) as [|choice0 chs] eqn:Hopts.
  - right. split; [|by exists loc].
    unfold push. cbn [blanksInProcess grid record stack]. by rewrite Hmin.
  - left.
    assert (1 ≤ choice0 ≤ n) as Hch0.
    { assert (choice0 ∈ opts g s loc) as Hin by (rewrite Hopts; by left).
      apply elem_of_opts in Hin as [Hin _]. rewrite (proj1 Hsq) in Hin. lia. }
    exists (State (StackData loc (choice0 :: chs) 0 false :: stk)
              (delete i (c0 :: rest)) (rec_push r choice0 loc)
              (set_cell g loc choice0)),
           (StackData loc (choice0 :: chs) 0 false).
    split.
    { unfold push. cbn [blanksInProcess grid record stack]. rewrite Hmin.
      cbn [size length Z.of_nat negb Z.eqb]. rewrite Hi.
      rewrite (options_spec n) by done. by rewrite Hopts, Hidl. }
    split; [|done].
    split; cbn [blanksInProcess grid record stack].
    + split; [|done]. rewrite <- Hg. split; [done|]. split; [done|].
      split; [done|]. split; [unfold size; simpl; lia|].
      intros b Hb1 Hb2. cbn [choices]. rewrite <- Hopts.
      rewrite <- !(raw_opts_opts r g) by done. apply Hleast. by apply Hbl.
    + simpl. by rewrite <- Hg.
    + apply rec_ok_place; (done || lia).
    + apply blanks_ok_delete; (done || lia).
    + rewrite <- Hcnt. unfold size. rewrite length_delete by (by eexists).
      apply lookup_lt_Some in Hi. simpl in *. lia.
Qed.
End invariant.

Section invariant_ops.
Context (n s : Z) (g0 : Grid).
Hypothesis Hsq0 : square n g0.

Lemma push_preserves st b st' :
  Inv n s g0 st → push st s = Ok (b, st') → Inv n s g0 st'.
Proof.
  intros HI Hpush.
  destruct (blanksInProcess st) as [|c0 rest] eqn:Hb.
  { unfold push in Hpush. by rewrite Hb in Hpush. }
  destruct (push_cases n s g0 Hsq0 st HI) as
    [(st1 & f & Hp & HI1 & _)|[Hp _]]; [by rewrite Hb|..];
    rewrite Hp in Hpush; by injection Hpush as <- <-.
Qed.

Lemma pop_preserves st st' :
  Inv n s g0 st → pop st = Ok st' →
  Inv n s g0 st' ∧
  ∃ f stk', stack st = f :: stk' ∧ stack st' = mark_revisited stk'.
Proof.
  intros HI Hpop. pose proof (Inv_square n s g0 Hsq0 _ HI) as Hsq.
  unfold pop in Hpop. destruct (stack st) as [|f stk'] eqn:Hstk; [done|].
  destruct (Inv_top n s g0 Hsq0 st f stk' HI Hstk)
    as (v & Hf & HS' & Hv & Hrange & Hgv & Hcv).
  destruct HI as [_ _ Hr Hbl Hcnt].
  destruct (last (choices f)) as [back|]; [|done].
  destruct (find (rec_get (record st) back) (coordinates f)) as [iter|]
    eqn:Hfind; [|done].
  injection Hpop as <-. split; [|by eauto].
  pose proof (square_grid_of n g0 Hsq0 stk') as HsqG.
  assert (set_cell (grid st) (coordinates f) 0 = grid_of stk' g0) as Hg'.
  { rewrite Hgv, set_cell_set_cell.
    destruct Hf as (Hc & Hblank & _). rewrite <- Hblank at 1.
    by apply (set_cell_id n). }
  destruct Hf as (Hc & Hblank & _).
  split; cbn [blanksInProcess grid record stack].
  - by apply StackOK_mark_revisited.
  - by rewrite grid_of_mark_revisited.
  - by apply rec_ok_remove.
  - apply blanks_ok_add; [done..|]. lia.
  - rewrite size_mark_revisited. rewrite <- Hcnt, Hstk.
    unfold size. rewrite length_app. simpl. lia.
Qed.

Lemma pop_ok st f stk' :
  Inv n s g0 st → stack st = f :: stk' →
  index f + 1 = size (choices f) → ∃ st', pop st = Ok st'.
Proof.
  intros HI Hstk Hidx.
  destruct (Inv_top n s g0 Hsq0 st f stk' HI Hstk)
    as (v & Hf & HS' & Hv & Hrange & Hgv & Hcv).
  destruct Hf as (Hc & _).
  unfold pop. rewrite Hstk.
  assert (last (choices f) = Some v) as ->.
  { rewrite last_lookup, <- Hv. f_equal. unfold size in Hidx. lia. }
  destruct (find_elem_of (rec_get (record st) v) (coordinates f)) as [iter ->].
  { apply (inv_record _ _ _ _ HI). split; [lia|done]. }
  by eexists.
Qed.

Lemma increment_top_preserves st st' :
  Inv n s g0 st → increment_top st = Ok st' →
  Inv n s g0 st' ∧
  ∃ f stk', stack st = f :: stk' ∧ index f + 1 < size (choices f) ∧
    stack st' =
      StackData (coordinates f) (choices f) (index f + 1) (revisited f)
      :: stk'.
Proof.
  intros HI Hinc. pose proof (Inv_square n s g0 Hsq0 _ HI) as Hsq.
  unfold increment_top in Hinc.
  destruct (stack st) as [|f stk'] eqn:Hstk; [done|].
  destruct (Inv_top n s g0 Hsq0 st f stk' HI Hstk)
    as (v & Hf & HS' & Hv & Hrange & Hgv & Hcv).
  destruct HI as [_ _ Hr Hbl Hcnt].
  destruct (Z.geb_spec (index f + 1) (size (choices f))) as [|Hlt]; [done|].
  destruct (find (rec_get (record st) (cell (grid st) (coordinates f)))
              (coordinates f)) as [iter|] eqn:Hfind; [|done].
  injection Hinc as <-. split; [|by eauto 6].
  pose proof (square_grid_of n g0 Hsq0 stk') as HsqG.
  pose proof Hf as (Hc & Hblank & Hch & Hidx & Hmrv).
  set (f' := StackData (coordinates f) (choices f) (index f + 1) (revisited f)).
  assert (frame_ok n s (grid_of stk' g0) f') as Hf'.
  { split; [done|]. split; [done|]. split; [done|]. split; [simpl; lia|done]. }
  destruct (frame_choice n s _ f' HsqG Hf') as (w & Hw & Hwrange & _).
  simpl in Hw. rewrite (list_lookup_total_correct _ _ _ Hw).
  assert (set_cell (grid st) (coordinates f) 0 = grid_of stk' g0) as Hg0.
  { rewrite Hgv, set_cell_set_cell. rewrite <- Hblank at 1.
    by apply (set_cell_id n). }
  assert (set_cell (grid st) (coordinates f) w
          = set_cell (grid_of stk' g0) (coordinates f) w) as Hgw.
  { by rewrite Hgv, set_cell_set_cell. }
  split; cbn [blanksInProcess grid record stack].
  - by split.
  - rewrite Hgw. simpl. by rewrite (list_lookup_total_correct _ _ _ Hw).
  - rewrite Hgw. apply rec_ok_place; [done| |done|done|lia].
    rewrite <- Hg0. by apply rec_ok_remove.
  - rewrite Hgw. apply (blanks_ok_change n _ _ _ v); [done|done|lia|lia|].
    by rewrite <- Hgv.
  - rewrite <- Hcnt, Hstk. unfold size. simpl. lia.
Qed.

Lemma increment_top_ok st f stk' :
  Inv n s g0 st → stack st = f :: stk' →
  index f + 1 < size (choices f) → ∃ st', increment_top st = Ok st'.
Proof.
  intros HI Hstk Hidx.
  destruct (Inv_top n s g0 Hsq0 st f stk' HI Hstk)
    as (v & Hf & HS' & Hv & Hrange & Hgv & Hcv).
  destruct Hf as (Hc & _).
  unfold increment_top. rewrite Hstk.
  destruct (Z.geb_spec (index f + 1) (size (choices f))) as [|_]; [lia|].
  rewrite Hcv.
  destruct (find_elem_of (rec_get (record st) v) (coordinates f)) as [iter ->].
  { apply (inv_record _ _ _ _ HI). split; [lia|done]. }
  by eexists.
Qed.
End invariant_ops.

(** ** Why a frame with several choices is never popped early *)

Lemma filter_length_mono {A} (P Q : A → Prop) `{∀ x, Decision (P x)}
    `{∀ x, Decision (Q x)} (l : list A) :
  (∀ x, x ∈ l → P x → Q x) →
  (length (filter P l) ≤ length (filter Q l))%nat.
Proof.
  induction l as [|x l IH]; intros HPQ; [done|].
  rewrite !filter_cons.
  assert (length (filter P l) ≤ length (filter Q l))%nat as Hle.
  { apply IH. intros y Hy. apply HPQ. by right. }
  destruct (decide (P x)) as [HP|HP].
  - rewrite decide_True by (apply HPQ; [by left|done]). simpl. lia.
  - destruct (decide (Q x)); simpl; lia.
Qed.

Lemma filter_length_except {A} (P Q : A → Prop) `{∀ x, Decision (P x)}
    `{∀ x, Decision (Q x)} `{EqDecision A} (l : list A) (v : A) :
  NoDup l → (∀ x, x ∈ l → x ≠ v → P x → Q x) →
  (length (filter P l) ≤ length (filter Q l) + 1)%nat.
Proof.
  induction l as [|x l IH]; intros Hnd HPQ; [simpl; lia|].
  apply NoDup_cons in Hnd as [Hx Hnd]. rewrite !filter_cons.
  destruct (decide (x = v)) as [->|Hne].
  - assert (length (filter P l) ≤ length (filter Q l))%nat as Hle.
    { apply filter_length_mono. intros y Hy. apply HPQ; [by right|].
      by intros ->. }
    destruct (decide (P v)), (decide (Q v)); simpl; lia.
  - assert (length (filter P l) ≤ length (filter Q l) + 1)%nat as Hle.
    { apply IH; [done|]. intros y Hy. apply HPQ. by right. }
    destruct (decide (P x)) as [HP|HP].
    + rewrite decide_True by (apply HPQ; [by left|done..]). simpl. lia.
    + destruct (decide (Q x)); simpl; lia.
Qed.

Section most_constrained.
Context (n s : Z) (g0 : Grid).
Hypothesis Hsq0 : square n g0.

(** Writing a digit into one cell takes at most that digit away from
    the legal digits of another cell. *)
Lemma opts_after_place G loc v b :
  square n G → InRange n loc →
  size (opts G s b) ≤ size (opts (set_cell G loc v) s b) + 1.
Proof.
  intros HsqG Hloc. unfold opts. rewrite size_set_cell. unfold size.
  pose proof (filter_length_except
    (λ d, legal G s b d = true) (λ d, legal (set_cell G loc v) s b d = true)
    (seqZ 1 (Z.of_nat (length G))) v (NoDup_seqZ _ _)) as H.
  cut (∀ x, x ∈ seqZ 1 (Z.of_nat (length G)) → x ≠ v →
            legal G s b x = true → legal (set_cell G loc v) s b x = true).
  { intros Hcut. specialize (H Hcut). lia. }
  intros d _ Hdv. rewrite !(legal_true n) by (done || by apply square_set_cell).
  intros HG c' Hc' Hcell. destruct (decide (c' = loc)) as [->|Hne].
  - rewrite (cell_set_cell_eq n) in Hcell by done. congruence.
  - rewrite cell_set_cell_ne in Hcell by done. by apply HG.
Qed.

Lemma several_choices_no_dead_end st f stk' :
  Inv n s g0 st → stack st = f :: stk' → 2 ≤ size (choices f) →
  ∀ b, InRange n b → cell (grid st) b = 0 → opts (grid st) s b ≠ [].
Proof.
  intros HI Hstk Hwide b Hb Hblank.
  destruct (Inv_top n s g0 Hsq0 st f stk' HI Hstk)
    as (v & Hf & HS' & Hv & Hrange & Hgv & Hcv).
  destruct Hf as (Hc & _ & _ & _ & Hmrv).
  assert (b ≠ coordinates f) as Hne by (intros ->; lia).
  pose proof (opts_after_place (grid_of stk' g0) (coordinates f) v b
                (square_grid_of n g0 Hsq0 stk') Hc) as Hle.
  rewrite <- Hgv in Hle.
  assert (cell (grid_of stk' g0) b = 0) as HbG.
  { rewrite Hgv in Hblank. by rewrite cell_set_cell_ne in Hblank. }
  specialize (Hmrv b Hb HbG).
  intros Hnil. rewrite Hnil in Hle. unfold size in Hle at 2. simpl in Hle. lia.
Qed.

Lemma tryToPush_cases st f stk' :
  Inv n s g0 st → stack st = f :: stk' → blanksInProcess st ≠ [] →
  (∃ st' h, tryToPush st s = Ok st' ∧ Inv n s g0 st' ∧
            stack st' = h :: f :: stk' ∧ index h = 0 ∧ revisited h = false)
  ∨ (∃ st', tryToPush st s = Ok st' ∧ Inv n s g0 st' ∧
            stack st' = mark_revisited stk' ∧
            size (choices f) = 1 ∧
            ∃ b, InRange n b ∧ cell (grid st) b = 0 ∧ opts (grid st) s b = []).
Proof.
  intros HI Hstk Hne. unfold tryToPush.
  destruct (push_cases n s g0 Hsq0 st HI Hne)
    as [(st1 & h & -> & HI1 & Hstk1 & Hidx & Hrev)|[-> (b & Hb & Hblank & Hnil)]].
  - left. exists st1, h. rewrite Hstk in Hstk1. done.
  - right. simpl.
    assert (size (choices f) = 1) as Hone.
    { destruct (Z.le_gt_cases 2 (size (choices f))) as [Hwide|Hlt].
      - by destruct (several_choices_no_dead_end st f stk' HI Hstk Hwide b).
      - destruct (Inv_top n s g0 Hsq0 st f stk' HI Hstk)
          as (_ & (_ & _ & _ & Hidx & _) & _). lia. }
    destruct (pop_ok n s g0 Hsq0 st f stk' HI Hstk) as [st' Hpop].
    { destruct (Inv_top n s g0 Hsq0 st f stk' HI Hstk)
        as (_ & (_ & _ & _ & Hidx & _) & _). lia. }
    exists st'. split; [done|].
    destruct (pop_preserves n s g0 Hsq0 st st' HI Hpop)
      as (HI' & f1 & stk1 & Hs1 & Hs2).
    rewrite Hstk in Hs1. injection Hs1 as <- <-.
    split; [done|]. split; [done|]. split; [done|]. by exists b.
Qed.

Lemma increment_cases st f stk' :
  Inv n s g0 st → stack st = f :: stk' →
  index f + 1 < size (choices f) → blanksInProcess st ≠ [] →
  ∃ st' h, increment st s = Ok st' ∧ Inv n s g0 st' ∧
    stack st' =
      h :: StackData (coordinates f) (choices f) (index f + 1) (revisited f)
        :: stk' ∧
    index h = 0 ∧ revisited h = false.
Proof.
  intros HI Hstk Hidx Hne. unfold increment.
  destruct (increment_top_ok n s g0 Hsq0 st f stk' HI Hstk Hidx) as [st1 Hinc].
  rewrite Hinc. simpl.
  destruct (increment_top_preserves n s g0 Hsq0 st st1 HI Hinc)
    as (HI1 & f1 & stk1 & Hs & _ & Hstk1).
  rewrite Hstk in Hs. injection Hs as <- <-.
  assert (blanksInProcess st1 ≠ []) as Hne1.
  { unfold increment_top in Hinc. rewrite Hstk in Hinc.
    destruct (_ >=? _); [done|]. destruct (find _ _); [|done].
    by injection Hinc as <-. }
  destruct (tryToPush_cases st1 _ stk' HI1 Hstk1 Hne1)
    as [(st2 & h & -> & HI2 & Hstk2 & Hh)|(st2 & _ & _ & _ & Hone & _)].
  - simpl. rewrite Hstk2. exists st2, h. done.
  - simpl in Hone.
    destruct (Inv_top n s g0 Hsq0 st f stk' HI Hstk)
      as (_ & (_ & _ & _ & Hi & _) & _). lia.
Qed.

(** One pass through the loop body keeps the invariant and does not
    throw. *)
Lemma iteration_ok st :
  Inv n s g0 st → stack st ≠ [] →
  size (stack st) ≠ size (blankSquares g0) →
  ∃ st', iteration st s = Ok st' ∧ Inv n s g0 st'.
Proof.
  intros HI Hne Hfull.
  destruct (stack st) as [|f stk'] eqn:Hstk; [done|].
  assert (blanksInProcess st ≠ []) as Hbl.
  { intros Hnil. pose proof (inv_count _ _ _ _ HI) as Hc.
    rewrite Hstk, Hnil in Hc. unfold size in Hc at 2. simpl in Hc. lia. }
  destruct (Inv_top n s g0 Hsq0 st f stk' HI Hstk)
    as (_ & (_ & _ & _ & Hi & _) & _).
  unfold iteration. rewrite Hstk.
  destruct (revisited f) eqn:Hrev; simpl.
  - destruct (Z.ltb_spec (index f + 1) (size (choices f))) as [Hlt|Hge].
    + destruct (increment_cases st f stk' HI Hstk Hlt Hbl)
        as (st' & h & ? & ? & _). eauto.
    + destruct (pop_ok n s g0 Hsq0 st f stk' HI Hstk) as [st' Hpop]; [lia|].
      exists st'. split; [done|].
      by destruct (pop_preserves n s g0 Hsq0 st st' HI Hpop).
  - destruct (tryToPush_cases st f stk' HI Hstk Hbl)
      as [(st' & h & ? & ? & _)|(st' & ? & ? & _)]; eauto.
Qed.
End most_constrained.

(** ** Solutions *)

Lemma shares_unit_sym s c1 c2 : shares_unit s c1 c2 → shares_unit s c2 c1.
Proof. unfold shares_unit. lia. Qed.

Section solutions.
Context (n s : Z).

(** A solution puts a legal digit wherever the grid it extends has a
    cell. *)
Lemma solution_choice G sol c :
  square n G → is_solution n s sol → extends n G sol → InRange n c →
  cell sol c ∈ opts G s c.
Proof.
  intros HsqG (Hsq & Hfill & Hclash) Hext Hc.
  apply elem_of_opts. rewrite (proj1 HsqG). split; [by apply Hfill|].
  apply (legal_true n); [done|]. intros c' Hc' Hcell.
  apply consistent_pair_true. destruct (decide (c = c')) as [|Hne]; [by left|].
  right. intros Hshare.
  assert (cell sol c' = cell sol c) as Heq.
  { rewrite <- Hcell. apply Hext; [done|]. rewrite Hcell.
    specialize (Hfill c Hc). lia. }
  apply (Hclash c c'); [done..| |done]. specialize (Hfill c Hc). lia.
Qed.

Lemma extends_place G sol c :
  square n G → InRange n c → extends n G sol →
  extends n (set_cell G c (cell sol c)) sol.
Proof.
  intros HsqG Hc Hext c' Hc' Hcell. destruct (decide (c' = c)) as [->|Hne].
  - by rewrite (cell_set_cell_eq n).
  - rewrite cell_set_cell_ne in Hcell |- * by done. by apply Hext.
Qed.

(** A blank without legal digits rules every solution out. *)
Lemma dead_end G b :
  square n G → InRange n b → opts G s b = [] → NoSol n s G.
Proof.
  intros HsqG Hb Hnil sol Hsol Hext.
  pose proof (solution_choice G sol b HsqG Hsol Hext Hb) as Hin.
  rewrite Hnil in Hin. inversion Hin.
Qed.
End solutions.

(** ** The grid of a well-formed stack *)

Section stack_grid.
Context (n s : Z) (g0 : Grid).
Hypothesis Hsq0 : square n g0.

Lemma grid_of_extends stk :
  StackOK n s g0 stk → extends n g0 (grid_of stk g0).
Proof.
  induction stk as [|f stk IH]; intros HS c Hc Hcell; [done|].
  destruct HS as [Hf HS]. simpl.
  destruct Hf as (Hloc & Hblank & _).
  destruct (decide (c = coordinates f)) as [->|Hne].
  - rewrite (IH HS _ Hc Hcell) in Hblank. done.
  - rewrite cell_set_cell_ne by done. by apply IH.
Qed.

Lemma grid_of_range stk :
  (∀ c, InRange n c → 0 ≤ cell g0 c ≤ n) → StackOK n s g0 stk →
  ∀ c, InRange n c → 0 ≤ cell (grid_of stk g0) c ≤ n.
Proof.
  intros H0. induction stk as [|f stk IH]; intros HS c Hc; [by apply H0|].
  destruct HS as [Hf HS]. simpl.
  destruct (frame_choice n s _ f (square_grid_of n g0 Hsq0 stk) Hf)
    as (v & Hv & Hrange & _).
  rewrite (list_lookup_total_correct _ _ _ Hv).
  destruct (decide (c = coordinates f)) as [->|Hne].
  - rewrite (cell_set_cell_eq n); [lia|apply square_grid_of; done|apply Hf].
  - rewrite cell_set_cell_ne by done. by apply IH.
Qed.

Lemma grid_of_no_clash stk :
  no_clash n s g0 → StackOK n s g0 stk → no_clash n s (grid_of stk g0).
Proof.
  intros H0. induction stk as [|f stk IH]; intros HS; [done|].
  destruct HS as [Hf HS]. specialize (IH HS). simpl.
  pose proof (square_grid_of n g0 Hsq0 stk) as HsqG.
  destruct (frame_choice n s _ f HsqG Hf) as (v & Hv & Hrange & Hin).
  rewrite (list_lookup_total_correct _ _ _ Hv).
  destruct Hf as (Hloc & Hblank & _).
  apply elem_of_opts in Hin as [_ Hlegal].
  rewrite (legal_true n) in Hlegal by done.
  intros c1 c2 Hc1 Hc2 Hne Hshare Hnz Heq.
  destruct (decide (c1 = coordinates f)) as [->|Hne1].
  - rewrite (cell_set_cell_eq n) in Heq by done.
    rewrite cell_set_cell_ne in Heq by done.
    specialize (Hlegal c2 Hc2 (eq_sym Heq)).
    apply consistent_pair_true in Hlegal as [?|?]; done.
  - rewrite cell_set_cell_ne in Heq, Hnz by done.
    destruct (decide (c2 = coordinates f)) as [->|Hne2].
    + rewrite (cell_set_cell_eq n) in Heq by done.
      specialize (Hlegal c1 Hc1 Heq).
      apply consistent_pair_true in Hlegal as [?|Hns]; [done|].
      by apply Hns, shares_unit_sym.
    + rewrite cell_set_cell_ne in Heq by done. by apply (IH c1 c2).
Qed.
End stack_grid.

(** ** The search explores every branch *)

Lemma runs_to_refl full s st : runs_to full s st st.
Proof. by exists 0%nat. Qed.

Lemma runs_to_trans full s st1 st2 st3 :
  runs_to full s st1 st2 → runs_to full s st2 st3 → runs_to full s st1 st3.
Proof.
  intros [k1 H1] [k2 H2]. exists (k1 + k2)%nat. intros fuel.
  by rewrite <- Nat.add_assoc, H1, H2.
Qed.

Lemma runs_to_step full s st st' :
  stack st ≠ [] → size (stack st) ≠ full → iteration st s = Ok st' →
  runs_to full s st st'.
Proof.
  intros Hne Hfull Hit. exists 1%nat. intros fuel. simpl.
  destruct (stack st); [done|].
  destruct (Z.eqb_spec (size (s0 :: l)) full); [done|]. by rewrite Hit.
Qed.

Section search.
Context (n s : Z) (g0 : Grid).
Hypothesis Hsq0 : square n g0.

Lemma Inv_not_full_blanks st :
  Inv n s g0 st → size (stack st) ≠ size (blankSquares g0) →
  blanksInProcess st ≠ [].
Proof.
  intros HI Hfull Hnil. pose proof (inv_count _ _ _ _ HI) as Hc.
  rewrite Hnil in Hc. unfold size in Hc at 2. simpl in Hc. lia.
Qed.

Lemma NoSol_tried st f stk' :
  Inv n s g0 st → stack st = f :: stk' → NoSol n s (grid st) →
  (∀ sol, is_solution n s sol → extends n (grid_of stk' g0) sol →
     ∀ (j : nat) v, (j < Z.to_nat (index f))%nat →
       choices f !! j = Some v → cell sol (coordinates f) ≠ v) →
  tried n s g0 stk' f.
Proof.
  intros HI Hstk Hno Hbefore sol Hsol Hext j v Hj Hjv Hcell.
  destruct (decide (j = Z.to_nat (index f))) as [->|Hne].
  - destruct (Inv_top n s g0 Hsq0 st f stk' HI Hstk)
      as (v' & Hf & _ & Hv' & _ & Hgv & _).
    rewrite Hjv in Hv'. injection Hv' as <-.
    apply (Hno sol Hsol). rewrite Hgv, <- Hcell.
    apply extends_place; [by apply square_grid_of|apply Hf|done].
  - apply (Hbefore sol Hsol Hext j v); [lia|done..].
Qed.

Lemma tried_all_NoSol f stk' :
  frame_ok n s (grid_of stk' g0) f → tried n s g0 stk' f →
  index f + 1 = size (choices f) → NoSol n s (grid_of stk' g0).
Proof.
  intros Hf Htried Hlast sol Hsol Hext.
  pose proof Hf as (Hloc & _ & Hch & _).
  pose proof (solution_choice n s _ sol (coordinates f)
                (square_grid_of n g0 Hsq0 stk') Hsol Hext Hloc) as Hin.
  rewrite <- Hch in Hin. apply list_elem_of_lookup_1 in Hin as [j Hj].
  refine (Htried sol Hsol Hext j _ _ Hj eq_refl).
  apply lookup_lt_Some in Hj. unfold size in Hlast. lia.
Qed.

(** Back at a frame whose subtree is exhausted: the remaining choices are
    explored in turn. *)
Lemma explore_revisited m :
  fresh_explored n s g0 m →
  ∀ (k : nat) st f stk',
    Inv n s g0 st → stack st = f :: stk' → revisited f = true →
    tried n s g0 stk' f → (depth g0 st ≤ S m)%nat →
    (Z.to_nat (size (choices f) - index f) ≤ k)%nat →
    explored n s g0 st stk'.
Proof.
  intros IHm. induction k as [|k IHk];
    intros st f stk' HI Hstk Hrev Htried Hdepth Hk.
  { destruct (Inv_top n s g0 Hsq0 st f stk' HI Hstk)
      as (_ & (_ & _ & _ & Hi & _) & _). lia. }
  destruct (decide (size (stack st) = size (blankSquares g0)))
    as [Hfull|Hfull].
  { exists st. split; [apply runs_to_refl|]. split; [done|by left]. }
  pose proof (Inv_not_full_blanks st HI Hfull) as Hbl.
  destruct (Inv_top n s g0 Hsq0 st f stk' HI Hstk)
    as (_ & Hf & _ & _ & _ & _ & _).
  pose proof Hf as (_ & _ & _ & Hi & _).
  assert (stack st ≠ []) as Hne by (by rewrite Hstk).
  destruct (Z.ltb_spec (index f + 1) (size (choices f))) as [Hlt|Hge].
  - (* advance the cursor and explore below the next choice *)
    destruct (increment_cases n s g0 Hsq0 st f stk' HI Hstk Hlt Hbl)
      as (st1 & h & Hinc & HI1 & Hstk1 & Hh0 & Hhrev).
    assert (runs_to (size (blankSquares g0)) s st st1) as Hrun1.
    { apply runs_to_step; [done..|]. unfold iteration. rewrite Hstk, Hrev.
      simpl. by rewrite (proj2 (Z.ltb_lt _ _) Hlt). }
    assert (depth g0 st1 ≤ m)%nat as Hd1.
    { unfold depth in *. rewrite Hstk1. rewrite Hstk in Hdepth.
      unfold size in *. simpl in *. lia. }
    destruct (IHm st1 h _ HI1 Hstk1 Hh0 Hhrev Hd1)
      as (st2 & Hrun2 & HI2 & [Hfull2|[Hstk2 Hno2]]).
    { exists st2. split; [by eapply runs_to_trans|]. split; [done|by left]. }
    simpl in Hstk2.
    set (f2 := StackData (coordinates f) (choices f) (index f + 1) true) in *.
    destruct (IHk st2 f2 stk' HI2 Hstk2 eq_refl) as (st3 & Hrun3 & Hrest).
    + apply (NoSol_tried st2 f2 stk' HI2 Hstk2).
      * by rewrite (inv_grid _ _ _ _ HI2), Hstk2.
      * intros sol Hsol Hext j v Hj. simpl in Hj. apply (Htried sol Hsol Hext).
        lia.
    + unfold depth in *. rewrite Hstk2. rewrite Hstk in Hdepth.
      unfold size in *. simpl in *. lia.
    + simpl. lia.
    + exists st3. split; [|done].
      eapply runs_to_trans; [done|]. by eapply runs_to_trans.
  - (* no choice left: pop *)
    assert (index f + 1 = size (choices f)) as Hlast by lia.
    destruct (pop_ok n s g0 Hsq0 st f stk' HI Hstk Hlast) as [st1 Hpop].
    destruct (pop_preserves n s g0 Hsq0 st st1 HI Hpop)
      as (HI1 & f1 & stk1 & Hs1 & Hs2).
    rewrite Hstk in Hs1. injection Hs1 as <- <-.
    exists st1. split; [|split; [done|right; split; [done|]]].
    + apply runs_to_step; [done..|]. unfold iteration. rewrite Hstk, Hrev.
      simpl. destruct (Z.ltb_spec (index f + 1) (size (choices f))); [lia|done].
    + by apply (tried_all_NoSol f).
Qed.

Lemma explore_fresh m : fresh_explored n s g0 m.
Proof.
  induction m as [|m IHm]; intros st f stk' HI Hstk Hidx Hrev Hdepth.
  { exists st. split; [apply runs_to_refl|]. split; [done|left].
    pose proof (inv_count _ _ _ _ HI) as Hc.
    pose proof (size_nonneg (blanksInProcess st)).
    unfold depth in *. lia. }
  destruct (decide (size (stack st) = size (blankSquares g0)))
    as [Hfull|Hfull].
  { exists st. split; [apply runs_to_refl|]. split; [done|by left]. }
  pose proof (Inv_not_full_blanks st HI Hfull) as Hbl.
  assert (stack st ≠ []) as Hne by (by rewrite Hstk).
  assert (iteration st s = tryToPush st s) as Hit.
  { unfold iteration. by rewrite Hstk, Hrev. }
  destruct (tryToPush_cases n s g0 Hsq0 st f stk' HI Hstk Hbl)
    as [(st1 & h & Htry & HI1 & Hstk1 & Hh0 & Hhrev)
       |(st1 & Htry & HI1 & Hstk1 & Hone & b & Hb & Hblank & Hnil)].
  - assert (runs_to (size (blankSquares g0)) s st st1) as Hrun1.
    { apply runs_to_step; [done..|]. by rewrite Hit. }
    assert (depth g0 st1 ≤ m)%nat as Hd1.
    { unfold depth in *. rewrite Hstk1. rewrite Hstk in Hdepth.
      unfold size in *. simpl in *. lia. }
    destruct (IHm st1 h _ HI1 Hstk1 Hh0 Hhrev Hd1)
      as (st2 & Hrun2 & HI2 & [Hfull2|[Hstk2 Hno2]]).
    { exists st2. split; [by eapply runs_to_trans|]. split; [done|by left]. }
    simpl in Hstk2.
    set (f2 := StackData (coordinates f) (choices f) (index f) true) in *.
    destruct (explore_revisited m IHm
                (Z.to_nat (size (choices f2) - index f2)) st2 f2 stk'
                HI2 Hstk2 eq_refl) as (st3 & Hrun3 & Hrest).
    + apply (NoSol_tried st2 f2 stk' HI2 Hstk2).
      * by rewrite (inv_grid _ _ _ _ HI2), Hstk2.
      * intros sol Hsol Hext j v Hj. simpl in Hj. lia.
    + unfold depth in *. rewrite Hstk2. rewrite Hstk in Hdepth.
      unfold size in *. simpl in *. lia.
    + done.
    + exists st3. split; [|done].
      eapply runs_to_trans; [done|]. by eapply runs_to_trans.
  - exists st1. split; [|split; [done|right; split; [done|]]].
    { apply runs_to_step; [done..|]. by rewrite Hit. }
    destruct (Inv_top n s g0 Hsq0 st f stk' HI Hstk)
      as (_ & Hf & _ & _ & _ & _ & _).
    apply (tried_all_NoSol f); [done| |lia].
    apply (NoSol_tried st f stk' HI Hstk).
    + apply (dead_end n s _ b); [by eapply Inv_square|done..].
    + intros sol Hsol Hext j v Hj. lia.
Qed.
End search.

(** ** What the validator guarantees *)

Lemma checkFormat_square g n : checkFormat g n = true → square n g.
Proof.
  unfold checkFormat. rewrite andb_true_iff, bool_decide_eq_true.
  intros [Hs Hrows]. split; [done|].
  rewrite forallb_forall in Hrows. apply Forall_forall. intros row Hrow.
  apply list_elem_of_In, Hrows in Hrow.
  apply andb_true_iff in Hrow as [Hrow _]. by apply bool_decide_eq_true in Hrow.
Qed.

Lemma checkFormat_range g n c :
  checkFormat g n = true → InRange n c → 0 ≤ cell g c ≤ n.
Proof.
  intros Hfmt Hc. pose proof (checkFormat_square g n Hfmt) as Hsq.
  destruct (inrange_lookup n g c Hsq Hc) as (row & v & Hrow & Hv).
  unfold cell. destruct Hc as [H1 H2]. rewrite nonneg_guard by lia.
  rewrite Hrow. simpl. rewrite Hv. simpl.
  unfold checkFormat in Hfmt. apply andb_true_iff in Hfmt as [_ Hrows].
  rewrite forallb_forall in Hrows.
  apply list_elem_of_lookup_2, list_elem_of_In, Hrows in Hrow.
  apply andb_true_iff in Hrow as [_ Hvals]. rewrite forallb_forall in Hvals.
  apply list_elem_of_lookup_2, list_elem_of_In, Hvals in Hv.
  apply negb_true_iff, orb_false_iff in Hv as [Hlo Hhi].
  apply Z.ltb_ge in Hlo. rewrite Z.gtb_ltb in Hhi. apply Z.ltb_ge in Hhi. lia.
Qed.

Lemma same_subgrid_range s i I :
  0 < s → 0 ≤ i → 0 ≤ I → Z.quot i s = Z.quot I s →
  i - Z.rem i s ≤ I < i - Z.rem i s + s.
Proof.
  intros Hs Hi HI Hq.
  pose proof (Z.quot_rem' i s) as Ei. pose proof (Z.quot_rem' I s) as EI.
  pose proof (Z.rem_bound_pos I s HI Hs). rewrite Hq in Ei. lia.
Qed.

Lemma checkLegal_no_clash g n s :
  0 < s → square n g → checkLegal g s = true → no_clash n s g.
Proof.
  intros Hs Hsq Hlegal [i j] [I J] [Hi Hj] [HI HJ] Hne Hshare Hnz Heq.
  simpl in *. unfold checkLegal in Hlegal. rewrite (proj1 Hsq) in Hlegal.
  rewrite forallb_forall in Hlegal.
  assert (In i (seqZ 0 n)) as Hin by (apply list_elem_of_In, elem_of_seqZ; lia).
  apply Hlegal in Hin. rewrite forallb_forall in Hin.
  assert (In j (seqZ 0 n)) as Hjn by (apply list_elem_of_In, elem_of_seqZ; lia).
  apply Hin in Hjn. unfold checkLegal_at in Hjn.
  apply andb_true_iff in Hjn as [Hhv Hsub].
  apply andb_true_iff in Hhv as [Hhor Hver].
  assert (checkPair (i, j) g = true) as Hpair.
  { apply checkPair_true. rewrite (proj1 Hsq). split; simpl; lia. }
  apply Z.eqb_neq in Hnz.
  destruct (decide (i = I)) as [<-|HiI].
  - (* same row *)
    assert (j ≠ J) as HjJ by congruence.
    unfold checkHorizontal in Hhor. rewrite Hpair, Hnz in Hhor. simpl in Hhor.
    rewrite forallb_forall, (proj1 Hsq) in Hhor.
    assert (In J (seqZ 0 n)) as HJn by (apply list_elem_of_In, elem_of_seqZ; lia).
    apply Hhor in HJn. rewrite Heq, Z.eqb_refl, andb_true_r in HJn.
    apply negb_true_iff, negb_false_iff, Z.eqb_eq in HJn. done.
  - destruct (decide (j = J)) as [<-|HjJ].
    + (* same column *)
      unfold checkVertical in Hver. rewrite Hpair, Hnz in Hver. simpl in Hver.
      rewrite forallb_forall, (proj1 Hsq) in Hver.
      assert (In I (seqZ 0 n)) as HIn by (apply list_elem_of_In, elem_of_seqZ; lia).
      apply Hver in HIn. rewrite Heq, Z.eqb_refl, andb_true_r in HIn.
      apply negb_true_iff, negb_false_iff, Z.eqb_eq in HIn. done.
    + (* same subregion *)
      destruct Hshare as [?|[?|[Hq1 Hq2]]]; [done..|]. simpl in *.
      unfold checkSubgrid in Hsub. rewrite Hpair, Hnz in Hsub. simpl in Hsub.
      rewrite forallb_forall in Hsub.
      assert (In I (seqZ (i - Z.rem i s) s)) as HIn.
      { apply list_elem_of_In, elem_of_seqZ.
        apply same_subgrid_range; (done || lia). }
      apply Hsub in HIn. rewrite forallb_forall in HIn.
      assert (In J (seqZ (j - Z.rem j s) s)) as HJn.
      { apply list_elem_of_In, elem_of_seqZ.
        apply same_subgrid_range; (done || lia). }
      apply HIn in HJn. rewrite Heq, Z.eqb_refl, andb_true_r in HJn.
      apply negb_true_iff, andb_false_iff in HJn as [H1|H2].
      * apply negb_false_iff, Z.eqb_eq in H1. done.
      * apply negb_false_iff, Z.eqb_eq in H2. done.
Qed.

(** ** The whole run *)

Lemma loop_mono full s fuel :
  ∀ st r fuel', loop fuel full s st = Some r → (fuel ≤ fuel')%nat →
                loop fuel' full s st = Some r.
Proof.
  induction fuel as [|fuel IH]; intros st r fuel' Hloop Hle; [done|].
  destruct fuel' as [|fuel']; [lia|]. simpl in *.
  destruct (stack st); [done|].
  destruct (_ =? _); [done|].
  destruct (iteration st s); [|done]. apply IH; [done|lia].
Qed.

Lemma backtrack_mono g s fuel fuel' r :
  backtrack fuel g s = Some r → (fuel ≤ fuel')%nat →
  backtrack fuel' g s = Some r.
Proof.
  unfold backtrack. destruct (blanksInProcess (initial g)); [done|].
  destruct (push (initial g) s) as [[b st1]|]; [|done].
  intros. by eapply loop_mono.
Qed.

(** The result of a run does not depend on the fuel that suffices. *)
Lemma backtrack_det g s fuel1 fuel2 r1 r2 :
  backtrack fuel1 g s = Some r1 → backtrack fuel2 g s = Some r2 → r1 = r2.
Proof.
  intros H1 H2.
  apply (backtrack_mono _ _ _ (fuel1 `max` fuel2)%nat) in H1; [|lia].
  apply (backtrack_mono _ _ _ (fuel1 `max` fuel2)%nat) in H2; [|lia].
  congruence.
Qed.

Lemma loop_full full s fuel st :
  stack st ≠ [] → size (stack st) = full →
  loop (S fuel) full s st = Some (Ok (grid st, st)).
Proof.
  intros Hne Hfull. simpl. destruct (stack st) eqn:Hstk; [done|].
  by rewrite (proj2 (Z.eqb_eq _ _) Hfull).
Qed.

Lemma loop_empty full s fuel st :
  stack st = [] → loop (S fuel) full s st = Some (Ok ([], st)).
Proof. intros Hstk. simpl. by rewrite Hstk. Qed.

Lemma tryToPush_run_state g0 s st st' :
  run_state g0 s st → tryToPush st s = Ok st' → run_state g0 s st'.
Proof.
  intros Hrun. unfold tryToPush.
  destruct (push st s) as [[pushed st1]|] eqn:Hpush; [|done]. simpl.
  pose proof (run_push _ _ _ _ _ Hrun Hpush) as Hrun1.
  destruct pushed; simpl.
  - by intros [= <-].
  - intros Hpop. by eapply run_pop.
Qed.

Lemma iteration_run_state g0 s st st' :
  run_state g0 s st → iteration st s = Ok st' → run_state g0 s st'.
Proof.
  intros Hrun. unfold iteration. destruct (stack st) as [|top stk']; [done|].
  destruct (revisited top && (index top + 1 <? size (choices top))).
  - unfold increment.
    destruct (increment_top st) as [st1|] eqn:Hinc; [|done]. simpl.
    pose proof (run_increment _ _ _ _ Hrun Hinc) as Hrun1.
    destruct (tryToPush st1 s) as [st2|] eqn:Htry; [|done]. simpl.
    pose proof (tryToPush_run_state _ _ _ _ Hrun1 Htry) as Hrun2.
    destruct (stack st2); [|by intros [= <-]].
    destruct (blanksInProcess st2); [by intros [= <-]|].
    destruct (push st2 s) as [[pushed st3]|] eqn:Hpush; [|done]. simpl.
    intros [= <-]. by eapply run_push.
  - destruct (negb (revisited top)).
    + by apply tryToPush_run_state.
    + intros Hpop. by eapply run_pop.
Qed.

Lemma loop_run_state g0 s full fuel :
  ∀ st ret st', run_state g0 s st →
    loop fuel full s st = Some (Ok (ret, st')) → run_state g0 s st'.
Proof.
  induction fuel as [|fuel IH]; intros st ret st' Hrun Hloop; [done|].
  simpl in Hloop. destruct (stack st); [by injection Hloop as <- <-|].
  destruct (_ =? _); [by injection Hloop as <- <-|].
  destruct (iteration st s) as [st1|] eqn:Hit; [|done].
  eapply IH; [|done]. by eapply iteration_run_state.
Qed.

(** The final state of a solve is one of these states. *)
Lemma backtrack_run_state g s fuel ret st' :
  backtrack fuel g s = Some (Ok (ret, st')) → run_state g s st'.
Proof.
  unfold backtrack. destruct (blanksInProcess (initial g)).
  - intros [= <- <-]. constructor.
  - destruct (push (initial g) s) as [[b st1]|] eqn:Hpush; [|done].
    apply loop_run_state. eapply run_push; [constructor|done].
Qed.

Section run.
Context (n s : Z) (g0 : Grid).
Hypothesis Hsq0 : square n g0.

Lemma run_state_Inv st : run_state g0 s st → Inv n s g0 st.
Proof.
  induction 1 as [|st b st' _ IH Hpush|st st' _ IH Hpop|st st' _ IH Hinc].
  - by apply Inv_initial.
  - by eapply push_preserves.
  - by destruct (pop_preserves n s g0 Hsq0 st st' IH Hpop).
  - by destruct (increment_top_preserves n s g0 Hsq0 st st' IH Hinc).
Qed.

Lemma Inv_stack_empty st :
  Inv n s g0 st → stack st = [] → grid st = g0.
Proof. intros HI Hstk. by rewrite (inv_grid _ _ _ _ HI), Hstk. Qed.

(** Every run returns: either with all blanks filled, or with the empty
    vector, the stack empty, the grid as it was, and no solution. *)
Lemma backtrack_total :
  ∃ fuel ret st',
    backtrack fuel g0 s = Some (Ok (ret, st')) ∧ Inv n s g0 st' ∧
    ((ret = grid st' ∧ blanksInProcess st' = []) ∨
     (ret = [] ∧ stack st' = [] ∧ blanksInProcess st' ≠ [] ∧
      NoSol n s g0)).
Proof.
  pose proof Inv_initial n s g0 Hsq0 as HI0.
  unfold backtrack.
  destruct (blanksInProcess (initial g0)) as [|c0 rest] eqn:Hb.
  { exists 0%nat, g0, (initial g0). split; [done|]. split; [done|]. by left. }
  assert (1 ≤ size (blankSquares g0)) as Hfull.
  { simpl in Hb. rewrite Hb. unfold size. simpl. lia. }
  destruct (push_cases n s g0 Hsq0 (initial g0) HI0)
    as [(st1 & h & -> & HI1 & Hstk1 & Hh0 & Hhrev)
       |[-> (b & Hb1 & Hblank & Hnil)]]; [by rewrite Hb|..].
  - destruct (explore_fresh n s g0 Hsq0
                (Z.to_nat (size (blankSquares g0))) st1 h [] HI1 Hstk1
                Hh0 Hhrev) as (st2 & [k Hrun] & HI2 & Hend).
    { unfold depth. pose proof (size_nonneg (stack st1)). lia. }
    exists (k + 1)%nat. rewrite Hrun.
    destruct Hend as [Hfull2|[Hstk2 Hno]].
    + exists (grid st2), st2. split; [|split; [done|left]].
      * apply loop_full; [|done]. intros Hnil. rewrite Hnil in Hfull2.
        unfold size in Hfull2 at 1. simpl in Hfull2. lia.
      * split; [done|]. pose proof (inv_count _ _ _ _ HI2) as Hc.
        destruct (blanksInProcess st2); [done|].
        unfold size in Hc at 2. simpl in Hc. lia.
    + simpl in Hstk2. exists [], st2.
      split; [by apply loop_empty|]. split; [done|]. right.
      split; [done|]. split; [done|]. split; [|done].
      pose proof (inv_count _ _ _ _ HI2) as Hc. rewrite Hstk2 in Hc.
      intros Hnil. rewrite Hnil in Hc. unfold size in Hc at 1 2. simpl in Hc. lia.
  - exists 1%nat, [], (initial g0). simpl. split; [done|]. split; [done|].
    right. split; [done|]. split; [done|].
    split; [simpl in *; by rewrite Hb|].
    by apply (dead_end n s g0 b).
Qed.

(** With all blanks filled the grid is a completion of the input. *)
Lemma filled_completion st :
  (∀ c, InRange n c → 0 ≤ cell g0 c ≤ n) → no_clash n s g0 →
  Inv n s g0 st → blanksInProcess st = [] → completion n s g0 (grid st).
Proof.
  intros Hrange Hclash HI Hnil.
  pose proof (inv_stack _ _ _ _ HI) as HS.
  pose proof (inv_grid _ _ _ _ HI) as Hg.
  destruct (inv_blanks _ _ _ _ HI) as [_ Hbl]. rewrite Hnil in Hbl.
  split; [split; [|split]|].
  - by apply (Inv_square n s g0).
  - intros c Hc. rewrite Hg.
    pose proof (grid_of_range n s g0 Hsq0 (stack st) Hrange HS c Hc) as Hr.
    rewrite <- Hg in *.
    assert (cell (grid st) c ≠ 0); [|lia].
    intros Hz. assert (c ∈ @nil coord) as Hin by (by apply Hbl).
    inversion Hin.
  - rewrite Hg. by apply grid_of_no_clash.
  - rewrite Hg. by apply (grid_of_extends n s).
Qed.
End run.

(** The run on a well-formed grid, with both outcomes spelled out. *)
(** The grids the validator accepts are well-formed. *)
Lemma checkUserGrid_well_formed n s g :
  0 < s → n = s * s → checkUserGrid g n s = true → well_formed n s g.
Proof.
  intros Hs Hn Hcheck. unfold checkUserGrid in Hcheck.
  apply andb_true_iff in Hcheck as [Hfmt Hlegal].
  pose proof (checkFormat_square g n Hfmt) as Hsq.
  split; [done|]. split; [done|]. split; [done|]. split.
  - intros c Hc. by apply checkFormat_range.
  - by apply checkLegal_no_clash.
Qed.

Lemma backtrack_correct n s g :
  well_formed n s g →
  ∃ fuel ret st',
    backtrack fuel g s = Some (Ok (ret, st')) ∧
    ((ret = grid st' ∧ completion n s g ret) ∨
     (ret = [] ∧ stack st' = [] ∧ blanksInProcess st' ≠ [] ∧
      grid st' = g ∧ NoSol n s g)).
Proof.
  intros (Hs & Hn & Hsq & Hrange & Hclash).
  destruct (backtrack_total n s g Hsq)
    as (fuel & ret & st' & Hrun & HI & [[-> Hnil]|(-> & Hstk & Hbl & Hno)]).
  - exists fuel, (grid st'), st'. split; [done|]. left. split; [done|].
    by apply (filled_completion n s g Hsq).
  - exists fuel, [], st'. split; [done|]. right.
    split; [done|]. split; [done|]. split; [done|]. split; [|done].
    by apply (Inv_stack_empty n s g).
Qed.

Lemma solution_nonempty n s sol : 0 < n → is_solution n s sol → sol ≠ [].
Proof.
  intros Hn ([Hsize _] & _) ->. unfold size in Hsize. simpl in Hsize. lia.
Qed.

(** ** Example grids *)

Example small_is_solved :
  returned (backtrack 20 small 2) = Some small_solved.
Proof. vm_compute. reflexivity. Qed.

Example hopeless_has_no_solution :
  returned (backtrack 20 hopeless 2) = Some [].
Proof. vm_compute. reflexivity. Qed.

Example repeated_digit_rejected :
  checkUserGrid [[1;1;0;0];[0;0;0;0];[0;0;0;0];[0;0;0;0]] 4 2 = false.
Proof. vm_compute. reflexivity. Qed.

Lemma well_formed_small : well_formed 4 2 small.
Proof. apply checkUserGrid_well_formed; [lia..|]. vm_compute. reflexivity. Qed.

Lemma well_formed_forced : well_formed 4 2 forced.
Proof. apply checkUserGrid_well_formed; [lia..|]. vm_compute. reflexivity. Qed.

Lemma well_formed_stuck : well_formed 4 2 stuck.
Proof. apply checkUserGrid_well_formed; [lia..|]. vm_compute. reflexivity. Qed.

Lemma well_formed_hopeless : well_formed 4 2 hopeless.
Proof. apply checkUserGrid_well_formed; [lia..|]. vm_compute. reflexivity. Qed.

(** ** Uniqueness by forced moves *)

Lemma forced_unique n s g sol sol' :
  square n g → all_forced g s = true →
  completion n s g sol → completion n s g sol' → sol' = sol.
Proof.
  intros Hsq Hforced [Hsol Hext] [Hsol' Hext'].
  apply (grid_ext n); [apply Hsol'|apply Hsol|]. intros c Hc.
  destruct (decide (cell g c = 0)) as [Hblank|Hfilled].
  - unfold all_forced in Hforced. rewrite forallb_forall in Hforced.
    specialize (Hforced (c, 0)). simpl in Hforced.
    rewrite bool_decide_eq_true in Hforced.
    pose proof (solution_choice n s g sol c Hsq Hsol Hext Hc) as Hin.
    pose proof (solution_choice n s g sol' c Hsq Hsol' Hext' Hc) as Hin'.
    destruct (opts g s c) as [|v [|w l]] eqn:Hopts.
    + inversion Hin.
    + apply list_elem_of_singleton in Hin, Hin'. congruence.
    + exfalso. assert (length (v :: w :: l) = 1%nat) as Hlen; [|done].
      apply Hforced. apply list_elem_of_In, (elem_of_cells_square n); done.
  - rewrite (Hext c Hc Hfilled). by apply Hext'.
Qed.

(** ** Checking a completion by computation *)

Lemma completion_check n s g sol :
  0 < s → square n g → checkUserGrid sol n s = true →
  no_blank sol = true → keeps g sol = true → completion n s g sol.
Proof.
  intros Hs Hsq Hcheck Hfull Hkeeps. unfold checkUserGrid in Hcheck.
  apply andb_true_iff in Hcheck as [Hfmt Hlegal].
  pose proof (checkFormat_square sol n Hfmt) as Hsqs.
  split; [split; [done|split]|].
  - intros c Hc. pose proof (checkFormat_range sol n c Hfmt Hc) as Hr.
    unfold no_blank in Hfull. rewrite forallb_forall in Hfull.
    specialize (Hfull (c, cell sol c)). simpl in Hfull.
    assert (cell sol c ≠ 0); [|lia].
    apply Z.eqb_neq, negb_true_iff, Hfull, list_elem_of_In.
    by apply (elem_of_cells_square n).
  - by apply checkLegal_no_clash.
  - intros c Hc Hnz. unfold keeps in Hkeeps. rewrite forallb_forall in Hkeeps.
    specialize (Hkeeps (c, cell g c)). simpl in Hkeeps.
    apply Z.eqb_neq in Hnz. rewrite Hnz in Hkeeps. simpl in Hkeeps.
    apply Z.eqb_eq, Hkeeps, list_elem_of_In. by apply (elem_of_cells_square n).
Qed.

(** A well-formed grid that has a completion is solved, whatever the
    number of backtracks. *)
Lemma solvable_is_solved n s g sol :
  well_formed n s g → completion n s g sol →
  ∃ fuel ret st', backtrack fuel g s = Some (Ok (ret, st')) ∧
                  completion n s g ret.
Proof.
  intros Hwf [Hsol Hext].
  destruct (backtrack_correct n s g Hwf)
    as (fuel & ret & st' & Hrun & [[_ Hcomp]|(_ & _ & _ & _ & Hno)]).
  - by eauto.
  - by destruct (Hno sol Hsol).
Qed.

(** The stored puzzle is solved. *)
Example hardest_is_solved :
  ∃ fuel ret st', backtrack fuel hardest 3 = Some (Ok (ret, st')) ∧
                  completion 9 3 hardest ret.
Proof.
  apply (solvable_is_solved 9 3 hardest hardest_filled).
  - apply checkUserGrid_well_formed; [lia..|]. vm_compute. reflexivity.
  - apply completion_check; [lia| |vm_compute; reflexivity..].
    apply checkFormat_square. vm_compute. reflexivity.
Qed.

(** The grid without any digit is completed to some solved grid. *)
Example all_blank_is_solved :
  ∃ fuel ret st', backtrack fuel all_blank 3 = Some (Ok (ret, st')) ∧
                  completion 9 3 all_blank ret.
Proof.
  apply (solvable_is_solved 9 3 all_blank hardest_filled).
  - apply checkUserGrid_well_formed; [lia..|]. vm_compute. reflexivity.
  - apply completion_check; [lia| |vm_compute; reflexivity..].
    apply checkFormat_square. vm_compute. reflexivity.
Qed.

(** * The claims *)

(** A run that returns a non-empty vector returns a completion of the
    input. *)
Lemma backtrack_returns_completion n s g fuel ret st' :
  well_formed n s g → backtrack fuel g s = Some (Ok (ret, st')) →
  ret ≠ [] → completion n s g ret.
Proof.
  intros Hwf Hrun Hne.
  destruct (backtrack_correct n s g Hwf)
    as (fuel0 & ret0 & st0 & Hrun0 & [[_ Hcomp]|[Hret _]]);
    pose proof (backtrack_det _ _ _ _ _ _ Hrun Hrun0) as [= -> ->]; done.
Qed.

(** C1. Soundness: when [backtrack] returns a non-empty grid on a
    well-formed input, no cell of it is blank, it keeps every digit of the
    input, and no two different cells of a row, a column or a subregion
    hold the same digit. *)
Theorem backtrack_sound n s g fuel ret st' :
  well_formed n s g → backtrack fuel g s = Some (Ok (ret, st')) → ret ≠ [] →
  (∀ c, InRange n c → cell ret c ≠ 0) ∧
  (∀ c, InRange n c → cell g c ≠ 0 → cell ret c = cell g c) ∧
  (∀ c1 c2, InRange n c1 → InRange n c2 → c1 ≠ c2 →
            shares_unit s c1 c2 → cell ret c1 ≠ cell ret c2).
Proof.
  intros Hwf Hrun Hne.
  destruct (backtrack_returns_completion n s g fuel ret st' Hwf Hrun Hne)
    as [(Hsq & Hfill & Hclash) Hext].
  split; [|split; [done|]].
  - intros c Hc. specialize (Hfill c Hc). lia.
  - intros c1 c2 Hc1 Hc2 Hneq Hshare. apply Hclash; [done..|].
    specialize (Hfill c1 Hc1). lia.
Qed.

Lemma backtrack_sound_witness :
  (∀ c, InRange 4 c → cell small_solved c ≠ 0) ∧
  (∀ c, InRange 4 c → cell small c ≠ 0 → cell small_solved c = cell small c) ∧
  (∀ c1 c2, InRange 4 c1 → InRange 4 c2 → c1 ≠ c2 →
            shares_unit 2 c1 c2 → cell small_solved c1 ≠ cell small_solved c2).
Proof.
  apply (backtrack_sound 4 2 small 20 small_solved
           (final_state small (backtrack 20 small 2))).
  - apply checkUserGrid_well_formed; [lia..|]. vm_compute. reflexivity.
  - vm_compute. reflexivity.
  - discriminate.
Defined.

(** C2. Completeness: on a well-formed input with exactly one completion
    [backtrack] returns that completion; it is not the empty vector, and no
    run ends in anything else. *)
Theorem backtrack_unique_solution n s g sol :
  well_formed n s g → completion n s g sol →
  (∀ sol', completion n s g sol' → sol' = sol) →
  (∃ fuel st', backtrack fuel g s = Some (Ok (sol, st'))) ∧
  sol ≠ [] ∧
  (∀ fuel r, backtrack fuel g s = Some r → ∃ st', r = Ok (sol, st')).
Proof.
  intros Hwf Hcomp Huniq.
  assert (sol ≠ []) as Hne.
  { apply (solution_nonempty n s); [|apply Hcomp].
    destruct Hwf as (? & -> & _). lia. }
  destruct (backtrack_correct n s g Hwf)
    as (fuel0 & ret0 & st0 & Hrun0 & [[_ Hcomp0]|(_ & _ & _ & _ & Hno)]).
  - apply Huniq in Hcomp0 as ->. split; [by eauto|]. split; [done|].
    intros fuel r Hrun. exists st0. by eapply backtrack_det.
  - destruct Hcomp as [Hsol Hext]. by destruct (Hno sol Hsol).
Qed.

Lemma forced_completion : completion 4 2 forced
  [[1;3;2;4];[4;2;3;1];[2;4;1;3];[3;1;4;2]].
Proof.
  apply (backtrack_returns_completion 4 2 forced 20 _
           (final_state forced (backtrack 20 forced 2))).
  - apply well_formed_forced.
  - vm_compute. reflexivity.
  - discriminate.
Qed.

Lemma forced_only_completion sol' :
  completion 4 2 forced sol' → sol' = [[1;3;2;4];[4;2;3;1];[2;4;1;3];[3;1;4;2]].
Proof.
  intros Hcomp. apply (forced_unique 4 2 forced); [| |apply forced_completion|done].
  - apply checkFormat_square. vm_compute. reflexivity.
  - vm_compute. reflexivity.
Qed.

Lemma backtrack_unique_solution_witness :
  (∃ fuel st', backtrack fuel forced 2 =
     Some (Ok ([[1;3;2;4];[4;2;3;1];[2;4;1;3];[3;1;4;2]], st'))) ∧
  [[1;3;2;4];[4;2;3;1];[2;4;1;3];[3;1;4;2]] ≠ [] ∧
  (∀ fuel r, backtrack fuel forced 2 = Some r →
     ∃ st', r = Ok ([[1;3;2;4];[4;2;3;1];[2;4;1;3];[3;1;4;2]], st')).
Proof.
  apply (backtrack_unique_solution 4 2 forced).
  - apply checkUserGrid_well_formed; [lia..|]. vm_compute. reflexivity.
  - apply forced_completion.
  - apply forced_only_completion.
Defined.

(** C3. Unsolvable inputs: on a well-formed input without a completion
    [backtrack] ends with the stack empty and blanks left in the pool, and
    returns the empty vector, which no solved grid equals; no run ends in
    anything else. *)
Theorem backtrack_unsolvable n s g :
  well_formed n s g → (∀ sol, ¬ completion n s g sol) →
  (∃ fuel st', backtrack fuel g s = Some (Ok ([], st')) ∧
               stack st' = [] ∧ blanksInProcess st' ≠ []) ∧
  (∀ fuel r, backtrack fuel g s = Some r → ∃ st', r = Ok ([], st')) ∧
  (∀ sol, is_solution n s sol → sol ≠ []).
Proof.
  intros Hwf Hnone.
  destruct (backtrack_correct n s g Hwf)
    as (fuel0 & ret0 & st0 & Hrun0 & [[_ Hcomp0]|(-> & Hstk & Hbl & _)]).
  { by destruct (Hnone ret0). }
  split; [by eauto 6|]. split.
  - intros fuel r Hrun. exists st0. by eapply backtrack_det.
  - intros sol. apply solution_nonempty. destruct Hwf as (? & -> & _). lia.
Qed.

Lemma stuck_no_completion sol : ¬ completion 4 2 stuck sol.
Proof.
  intros [Hsol Hext].
  assert (square 4 stuck) as Hsq.
  { apply checkFormat_square. vm_compute. reflexivity. }
  assert (InRange 4 (0, 1)) as H01 by (unfold InRange; simpl; lia).
  pose proof (solution_choice 4 2 stuck sol (0, 1) Hsq Hsol Hext H01) as Hin.
  assert (opts stuck 2 (0, 1) = [3]) as Hopts by (vm_compute; reflexivity).
  rewrite Hopts in Hin. apply list_elem_of_singleton in Hin.
  pose proof (extends_place 4 stuck sol (0, 1) Hsq H01 Hext) as Hext1.
  rewrite Hin in Hext1.
  apply (dead_end 4 2 (set_cell stuck (0, 1) 3) (1, 0)) with sol; [| | |done..].
  - by apply square_set_cell.
  - unfold InRange; simpl; lia.
  - vm_compute. reflexivity.
Qed.

Lemma backtrack_unsolvable_witness :
  (∃ fuel st', backtrack fuel stuck 2 = Some (Ok ([], st')) ∧
               stack st' = [] ∧ blanksInProcess st' ≠ []) ∧
  (∀ fuel r, backtrack fuel stuck 2 = Some r → ∃ st', r = Ok ([], st')) ∧
  (∀ sol, is_solution 4 2 sol → sol ≠ []).
Proof.
  apply (backtrack_unsolvable 4 2 stuck).
  - apply checkUserGrid_well_formed; [lia..|]. vm_compute. reflexivity.
  - apply stuck_no_completion.
Defined.

(** C4. Termination: on a well-formed input the loop of [backtrack] makes
    finitely many passes and then returns. What it returns is either the
    grid, by then solved (every cell holds a digit of [1..n], no digit
    occurs twice in a row, a column or a subregion, and the digits of the
    input are kept), or the empty vector, and then no solved grid keeps
    the digits of the input. No bound on the number of passes leads to
    another result. *)
Theorem backtrack_terminates n s g :
  well_formed n s g →
  ∃ fuel ret st',
    backtrack fuel g s = Some (Ok (ret, st')) ∧
    ((ret = grid st' ∧ square n ret ∧
      (∀ c, InRange n c → 1 ≤ cell ret c ≤ n) ∧
      (∀ c1 c2, InRange n c1 → InRange n c2 → c1 ≠ c2 →
                shares_unit s c1 c2 → cell ret c1 ≠ cell ret c2) ∧
      (∀ c, InRange n c → cell g c ≠ 0 → cell ret c = cell g c)) ∨
     (ret = [] ∧ ∀ sol, ¬ completion n s g sol)) ∧
    ∀ fuel' r, backtrack fuel' g s = Some r → r = Ok (ret, st').
Proof.
  intros Hwf.
  destruct (backtrack_correct n s g Hwf)
    as (fuel & ret & st' & Hrun & Hcase).
  exists fuel, ret, st'. split; [done|]. split.
  - destruct Hcase as [[-> ((Hsq & Hfill & Hclash) & Hext)]|
                       (-> & _ & _ & _ & Hno)].
    + left. split; [done|]. split; [done|]. split; [done|].
      split; [|done]. intros c1 c2 Hc1 Hc2 Hne Hshare.
      apply Hclash; [done..|]. specialize (Hfill c1 Hc1). lia.
    + right. split; [done|]. intros sol [Hsol Hext]. by apply (Hno sol).
  - intros fuel' r Hrun'. by eapply backtrack_det.
Qed.

Lemma backtrack_terminates_witness :
  ∃ fuel ret st',
    backtrack fuel hopeless 2 = Some (Ok (ret, st')) ∧
    ((ret = grid st' ∧ square 4 ret ∧
      (∀ c, InRange 4 c → 1 ≤ cell ret c ≤ 4) ∧
      (∀ c1 c2, InRange 4 c1 → InRange 4 c2 → c1 ≠ c2 →
                shares_unit 2 c1 c2 → cell ret c1 ≠ cell ret c2) ∧
      (∀ c, InRange 4 c → cell hopeless c ≠ 0 →
            cell ret c = cell hopeless c)) ∨
     (ret = [] ∧ ∀ sol, ¬ completion 4 2 hopeless sol)) ∧
    ∀ fuel' r, backtrack fuel' hopeless 2 = Some r → r = Ok (ret, st').
Proof.
  apply (backtrack_terminates 4 2 hopeless).
  apply checkUserGrid_well_formed; [lia..|]. vm_compute. reflexivity.
Defined.

(** C5. The consistency check accepts a digit at a location exactly when
    every coordinate recorded under the digit is the location itself or
    shares neither row, nor column, nor subregion with it, two coordinates
    sharing a subregion when their quotients by the subregion size agree
    in both components. *)
Theorem consistent_iff digit location g r s :
  consistent digit location g r s = true ↔
  ∀ c, c ∈ rec_get r digit →
    c = location ∨
    (c.1 ≠ location.1 ∧ c.2 ≠ location.2 ∧
     ¬ (Z.quot c.1 s = Z.quot location.1 s ∧
        Z.quot c.2 s = Z.quot location.2 s)).
Proof.
  unfold consistent. rewrite consistent_column_true.
  apply forall_proper. intros c. apply forall_proper. intros _.
  rewrite consistent_pair_true. unfold shares_unit.
  split; (intros [Heq|H]; [by left|right; lia]).
Qed.

(** C6, counterexample: in [blocked] the blank (1,1) has two options, yet
    [min] clears the flag, because the blank (0,0) has none. *)
Lemma min_flag_not_any_option :
  ¬ flag_tells_any_option blocked (blankSquares blocked)
      (occurrences blocked) 2.
Proof.
  unfold flag_tells_any_option. intros [_ Hflag].
  assert ((min blocked (blankSquares blocked) (occurrences blocked) 2).1.2
          = false) as Hmin by (vm_compute; reflexivity).
  rewrite Hmin in Hflag. assert (false = true) as Habs; [|done].
  apply Hflag. exists (1, 1). split.
  - apply (elem_of_blankSquares 4).
    + apply checkFormat_square. vm_compute. reflexivity.
    + split; [unfold InRange; simpl; lia|]. vm_compute. reflexivity.
  - vm_compute. discriminate.
Qed.

(** C6, amended. On a non-empty pool of blanks lying on the grid, [min]
    returns the position of a blank with the least number of options, no
    blank before it has as few, and the flag is set exactly when every
    blank of the pool has an option, that is, when the selected blank has
    one. *)
Theorem min_selects_least n g blanks r s :
  square n g → blanks ≠ [] → Forall (InRange n) blanks →
  ∃ i loc flag g',
    min g blanks r s = (i, flag, g') ∧
    blanks !! i = Some loc ∧
    (∀ c, c ∈ blanks → num_options loc g r s ≤ num_options c g r s) ∧
    (∀ j c, (j < i)%nat → blanks !! j = Some c →
            num_options loc g r s < num_options c g r s) ∧
    (flag = true ↔ num_options loc g r s ≠ 0) ∧
    (flag = true ↔ ∀ c, c ∈ blanks → (options c g r s).1 ≠ []).
Proof.
  intros Hsq Hne Hall. destruct blanks as [|c0 rest]; [done|].
  rewrite Forall_forall in Hall.
  assert (∀ c, c ∈ c0 :: rest →
               num_options c g r s = size (raw_opts c r s n)) as Hnum.
  { intros c Hc. unfold num_options. rewrite (options_raw n) by auto. done. }
  destruct (min_spec n g (c0 :: rest) r s c0 rest Hsq eq_refl)
    as (i & loc & Hmin & Hi & Hleast & Hfirst); [apply Hall; by left|].
  assert (loc ∈ c0 :: rest) as Hloc by (by eapply list_elem_of_lookup_2).
  exists i, loc, (negb (size (raw_opts loc r s n) =? 0)), (set_cell g c0 0).
  split; [done|]. split; [done|]. rewrite (Hnum loc Hloc).
  assert (negb (size (raw_opts loc r s n) =? 0) = true
          ↔ size (raw_opts loc r s n) ≠ 0) as Hflag.
  { rewrite negb_true_iff. apply Z.eqb_neq. }
  split; [|split; [|split; [done|]]].
  - intros c Hc. rewrite (Hnum c Hc). by apply Hleast.
  - intros j c Hj Hjc. rewrite (Hnum c) by (by eapply list_elem_of_lookup_2).
    by eapply Hfirst.
  - rewrite Hflag. split.
    + intros Hnz c Hc Hnil. specialize (Hleast c Hc).
      pose proof (Hnum c Hc) as Hc'. unfold num_options in Hc'.
      rewrite Hnil in Hc'. unfold size in Hc' at 1. simpl in Hc'.
      pose proof (size_nonneg (raw_opts loc r s n)). lia.
    + intros Hevery Hz. apply (Hevery loc Hloc).
      pose proof (Hnum loc Hloc) as Hl. unfold num_options in Hl.
      rewrite Hz in Hl. unfold size in Hl.
      destruct ((options loc g r s).1); [done|simpl in Hl; lia].
Qed.

Lemma min_selects_least_witness :
  ∃ i loc flag g',
    min blocked (blankSquares blocked) (occurrences blocked) 2
      = (i, flag, g') ∧
    blankSquares blocked !! i = Some loc ∧
    (∀ c, c ∈ blankSquares blocked →
          num_options loc blocked (occurrences blocked) 2
          ≤ num_options c blocked (occurrences blocked) 2) ∧
    (∀ j c, (j < i)%nat → blankSquares blocked !! j = Some c →
            num_options loc blocked (occurrences blocked) 2
            < num_options c blocked (occurrences blocked) 2) ∧
    (flag = true ↔ num_options loc blocked (occurrences blocked) 2 ≠ 0) ∧
    (flag = true ↔
     ∀ c, c ∈ blankSquares blocked →
          (options c blocked (occurrences blocked) 2).1 ≠ []).
Proof.
  apply (min_selects_least 4 blocked (blankSquares blocked)
           (occurrences blocked) 2).
  - apply checkFormat_square. vm_compute. reflexivity.
  - vm_compute. discriminate.
  - apply Forall_forall. intros c Hc.
    apply (elem_of_blankSquares 4) in Hc; [tauto|].
    apply checkFormat_square. vm_compute. reflexivity.
Defined.

(** C7. Coherence of the occurrence index: in the initial state and after
    every completed [push], [pop] and [increment] of a solve, a coordinate
    is recorded under a digit exactly when the grid holds that digit
    there. *)
Theorem index_coherent n g s st :
  square n g → run_state g s st →
  ∀ d c, d ≠ 0 →
    (c ∈ rec_get (record st) d ↔ InRange n c ∧ cell (grid st) c = d).
Proof.
  intros Hsq Hrun d c Hd.
  pose proof (run_state_Inv n s g Hsq st Hrun) as HI.
  destruct (inv_record _ _ _ _ HI d) as [_ Hmem]. rewrite Hmem. tauto.
Qed.

Lemma index_coherent_witness :
  (0, 2) ∈ rec_get (record (pushed (pushed (initial small) 2) 2)) 2
  ↔ InRange 4 (0, 2) ∧ cell (grid (pushed (pushed (initial small) 2) 2)) (0, 2) = 2.
Proof.
  apply (index_coherent 4 small 2).
  - apply checkFormat_square. vm_compute. reflexivity.
  - apply (run_push small 2 (pushed (initial small) 2) true).
    + apply (run_push small 2 (initial small) true); [apply run_initial|].
      vm_compute. reflexivity.
    + vm_compute. reflexivity.
  - discriminate.
Defined.

(** C8. Conservation: in the initial state and after every completed
    [push], [pop] and [increment] of a solve, the sizes of the stack and
    of the blank pool add up to the number of blanks of the input. *)
Theorem stack_pool_conservation n g s st :
  square n g → run_state g s st →
  size (stack st) + size (blanksInProcess st) = size (blankSquares g).
Proof.
  intros Hsq Hrun.
  exact (inv_count _ _ _ _ (run_state_Inv n s g Hsq st Hrun)).
Qed.

Lemma stack_pool_conservation_witness :
  size (stack (pushed (pushed (initial small) 2) 2))
  + size (blanksInProcess (pushed (pushed (initial small) 2) 2))
  = size (blankSquares small).
Proof.
  apply (stack_pool_conservation 4 small 2).
  - apply checkFormat_square. vm_compute. reflexivity.
  - apply (run_push small 2 (pushed (initial small) 2) true).
    + apply (run_push small 2 (initial small) true); [apply run_initial|].
      vm_compute. reflexivity.
    + vm_compute. reflexivity.
Defined.

(** C9. No internal error: on a grid that [checkUserGrid] accepts, a run
    of [backtrack] takes none of the branches that throw: [push] is not
    called on an empty pool and finds choices, [pop] is not called on an
    empty stack and finds the coordinate under the last choice of the
    frame, [increment] is not applied at the last choice and finds the
    coordinate under the digit of the cell; and the run ends. *)
Theorem no_internal_error n s g :
  checkUserGrid g n s = true →
  (∀ fuel e, backtrack fuel g s ≠ Some (Throw e)) ∧
  (∃ fuel r, backtrack fuel g s = Some (Ok r)).
Proof.
  intros Hcheck. unfold checkUserGrid in Hcheck.
  apply andb_true_iff in Hcheck as [Hfmt _].
  destruct (backtrack_total n s g (checkFormat_square g n Hfmt))
    as (fuel0 & ret & st' & Hrun0 & _).
  split; [|by eauto].
  intros fuel e Hrun. by pose proof (backtrack_det _ _ _ _ _ _ Hrun Hrun0).
Qed.

Lemma no_internal_error_witness :
  (∀ fuel e, backtrack fuel hopeless 2 ≠ Some (Throw e)) ∧
  (∃ fuel r, backtrack fuel hopeless 2 = Some (Ok r)).
Proof.
  apply (no_internal_error 4 2 hopeless). vm_compute. reflexivity.
Defined.

(** C10. Restoration: when [backtrack] returns the empty vector on a
    well-formed input, the caller's grid is the input grid again. *)
Theorem backtrack_restores n s g fuel st' :
  well_formed n s g → backtrack fuel g s = Some (Ok ([], st')) →
  grid st' = g.
Proof.
  intros Hwf Hrun.
  destruct (backtrack_correct n s g Hwf)
    as (fuel0 & ret0 & st0 & Hrun0 & Hcase).
  pose proof (backtrack_det _ _ _ _ _ _ Hrun Hrun0) as [= <- <-].
  destruct Hcase as [[_ [Hsol _]]|(_ & _ & _ & Hg & _)]; [|done].
  exfalso. refine (solution_nonempty n s [] _ Hsol eq_refl).
  destruct Hwf as (? & -> & _). lia.
Qed.

Lemma backtrack_restores_witness :
  grid (final_state hopeless (backtrack 20 hopeless 2)) = hopeless.
Proof.
  apply (backtrack_restores 4 2 hopeless 20).
  - apply checkUserGrid_well_formed; [lia..|]. vm_compute. reflexivity.
  - vm_compute. reflexivity.
Defined.

(** * Further properties *)

(** ** The validator *)

Lemma cell_nonzero_InRange n g c : square n g → cell g c ≠ 0 → InRange n c.
Proof.
  intros Hsq Hnz. unfold cell in Hnz.
  destruct ((0 <=? c.1) && (0 <=? c.2)) eqn:Hguard; [|done].
  apply andb_true_iff in Hguard as [H1%Z.leb_le H2%Z.leb_le].
  destruct (g !! Z.to_nat c.1) as [row|] eqn:Hrow; [|done]. simpl in Hnz.
  destruct (row !! Z.to_nat c.2) as [v|] eqn:Hv; [|done].
  pose proof (square_row _ _ _ _ Hsq Hrow) as Hs.
  apply lookup_lt_Some in Hrow, Hv. destruct Hsq as [Hsz _].
  unfold size in *. split; lia.
Qed.

(** The window of [checkSubgrid] holds the indices with the quotient of
    [sameSubgrid]. *)
Lemma subgrid_window s i I :
  0 < s → 0 ≤ i →
  i - Z.rem i s ≤ I < i - Z.rem i s + s ↔ 0 ≤ I ∧ Z.quot i s = Z.quot I s.
Proof.
  intros Hs Hi. split.
  - intros HI. pose proof (Z.quot_rem' i s) as Ei.
    pose proof (Z.rem_bound_pos i s Hi Hs) as Hr.
    assert (0 ≤ Z.quot i s) as Hq by (apply Z.quot_pos; lia).
    assert (0 ≤ I) as HI0 by nia. split; [done|].
    rewrite (Z.quot_div_nonneg I s) by lia.
    apply (Z.div_unique_pos I s _ (I - s * Z.quot i s)); lia.
  - intros [HI Hq]. by apply same_subgrid_range.
Qed.

Lemma checkHorizontal_true n g i j :
  square n g → InRange n (i, j) →
  checkHorizontal i j g = true ↔
  (cell g (i, j) ≠ 0 →
   ∀ J, 0 ≤ J < n → J ≠ j → cell g (i, J) ≠ cell g (i, j)).
Proof.
  intros Hsq Hc. unfold checkHorizontal.
  rewrite (proj2 (checkPair_true (i, j) g)) by (by rewrite (proj1 Hsq)).
  simpl. destruct (Z.eqb_spec (cell g (i, j)) 0) as [Hz|Hnz].
  { split; [by intros _ ?|done]. }
  rewrite forallb_forall, (proj1 Hsq). split.
  - intros H _ J HJ HJj Heq.
    specialize (H J). rewrite Heq, Z.eqb_refl, andb_true_r in H.
    assert (negb (negb (j =? J)) = true) as Hjj.
    { apply H, list_elem_of_In, elem_of_seqZ. lia. }
    apply negb_true_iff, negb_false_iff, Z.eqb_eq in Hjj. congruence.
  - intros H J HJ%list_elem_of_In%elem_of_seqZ.
    apply negb_true_iff, andb_false_iff.
    destruct (Z.eqb_spec j J) as [|HjJ]; [by left|right].
    apply Z.eqb_neq. apply H; [done|lia|done].
Qed.

Lemma checkVertical_true n g i j :
  square n g → InRange n (i, j) →
  checkVertical i j g = true ↔
  (cell g (i, j) ≠ 0 →
   ∀ I, 0 ≤ I < n → I ≠ i → cell g (I, j) ≠ cell g (i, j)).
Proof.
  intros Hsq Hc. unfold checkVertical.
  rewrite (proj2 (checkPair_true (i, j) g)) by (by rewrite (proj1 Hsq)).
  simpl. destruct (Z.eqb_spec (cell g (i, j)) 0) as [Hz|Hnz].
  { split; [by intros _ ?|done]. }
  rewrite forallb_forall, (proj1 Hsq). split.
  - intros H _ I HI HIi Heq.
    specialize (H I). rewrite Heq, Z.eqb_refl, andb_true_r in H.
    assert (negb (negb (i =? I)) = true) as Hii.
    { apply H, list_elem_of_In, elem_of_seqZ. lia. }
    apply negb_true_iff, negb_false_iff, Z.eqb_eq in Hii. congruence.
  - intros H I HI%list_elem_of_In%elem_of_seqZ.
    apply negb_true_iff, andb_false_iff.
    destruct (Z.eqb_spec i I) as [|HiI]; [by left|right].
    apply Z.eqb_neq. intros Heq. apply (H Hnz I); [lia|done|done].
Qed.

Lemma checkSubgrid_reflect n s g i j :
  0 < s → square n g → InRange n (i, j) → cell g (i, j) ≠ 0 →
  checkSubgrid i j g s = true ↔
  ∀ c, InRange n c → sameSubgrid (i, j) c s = true →
       c.1 ≠ i → c.2 ≠ j → cell g c ≠ cell g (i, j).
Proof.
  intros Hs Hsq Hc Hnz. unfold checkSubgrid.
  rewrite (proj2 (checkPair_true (i, j) g)) by (by rewrite (proj1 Hsq)).
  simpl. rewrite (proj2 (Z.eqb_neq _ _) Hnz).
  destruct Hc as [Hi Hj]. simpl in Hi, Hj.
  rewrite forallb_forall. split.
  - intros H [I J] [HI HJ] Hsame HIi HJj Heq. simpl in *.
    unfold sameSubgrid in Hsame. simpl in Hsame.
    apply andb_true_iff in Hsame as [Hq1%Z.eqb_eq Hq2%Z.eqb_eq].
    assert (In I (seqZ (i - Z.rem i s) s)) as HIn.
    { apply list_elem_of_In, elem_of_seqZ, subgrid_window; (done || lia). }
    apply H in HIn. rewrite forallb_forall in HIn.
    assert (In J (seqZ (j - Z.rem j s) s)) as HJn.
    { apply list_elem_of_In, elem_of_seqZ, subgrid_window; (done || lia). }
    apply HIn in HJn. rewrite Heq, Z.eqb_refl, andb_true_r in HJn.
    apply negb_true_iff, andb_false_iff in HJn as [H1|H2].
    + apply negb_false_iff, Z.eqb_eq in H1. congruence.
    + apply negb_false_iff, Z.eqb_eq in H2. congruence.
  - intros H I HI%list_elem_of_In%elem_of_seqZ. apply forallb_forall.
    intros J HJ%list_elem_of_In%elem_of_seqZ.
    apply subgrid_window in HI as [HI0 Hq1]; [|done|lia].
    apply subgrid_window in HJ as [HJ0 Hq2]; [|done|lia].
    apply negb_true_iff.
    destruct (Z.eqb_spec i I) as [|HiI]; [done|].
    destruct (Z.eqb_spec j J) as [|HjJ]; [done|]. simpl.
    apply Z.eqb_neq. intros Heq.
    apply (H (I, J)); simpl; [| |congruence|congruence|done].
    + apply (cell_nonzero_InRange n g); [done|congruence].
    + unfold sameSubgrid. simpl. rewrite Hq1, Hq2, !Z.eqb_refl. done.
Qed.

(** X1. On an [n]×[n] grid with [n = s * s], where the window of
    [checkSubgrid] stays on the grid, and on a cell that holds a digit,
    [checkSubgrid] accepts exactly when no cell that [sameSubgrid] puts
    in the same subregion, in another row and another column, holds the
    same digit: the window [i - i % s .. + s] of the validator and the
    quotients of the engine describe the same subregions. *)
Theorem checkSubgrid_sameSubgrid n s g i j :
  0 < s → n = s * s → square n g → InRange n (i, j) → cell g (i, j) ≠ 0 →
  checkSubgrid i j g s = true ↔
  ∀ c, InRange n c → sameSubgrid (i, j) c s = true →
       c.1 ≠ i → c.2 ≠ j → cell g c ≠ cell g (i, j).
Proof. intros Hs _. by apply checkSubgrid_reflect. Qed.

Lemma checkSubgrid_sameSubgrid_witness :
  checkSubgrid 0 0 small 2 = true ↔
  ∀ c, InRange 4 c → sameSubgrid (0, 0) c 2 = true →
       c.1 ≠ 0 → c.2 ≠ 0 → cell small c ≠ cell small (0, 0).
Proof.
  apply (checkSubgrid_sameSubgrid 4 2 small 0 0).
  - lia.
  - reflexivity.
  - apply checkFormat_square. vm_compute. reflexivity.
  - unfold InRange. simpl. lia.
  - vm_compute. discriminate.
Defined.

Lemma well_formed_checkLegal n s g :
  0 < s → square n g → no_clash n s g → checkLegal g s = true.
Proof.
  intros Hs Hsq Hclash. unfold checkLegal. rewrite (proj1 Hsq).
  apply forallb_forall. intros i Hi%list_elem_of_In%elem_of_seqZ.
  apply forallb_forall. intros j Hj%list_elem_of_In%elem_of_seqZ.
  assert (InRange n (i, j)) as Hc by (unfold InRange; simpl; lia).
  unfold checkLegal_at. rewrite !andb_true_iff. split; [split|].
  - apply (checkHorizontal_true n); [done..|]. intros Hnz J HJ HJj Heq.
    apply (Hclash (i, j) (i, J));
      [done|unfold InRange; simpl; lia|intros [= E]; lia|by left|done|done].
  - apply (checkVertical_true n); [done..|]. intros Hnz I HI HIi Heq.
    apply (Hclash (i, j) (I, j));
      [done|unfold InRange; simpl; lia|intros [= E]; lia|
       by right; left|done|done].
  - destruct (decide (cell g (i, j) = 0)) as [Hz|Hnz].
    { unfold checkSubgrid.
      rewrite (proj2 (checkPair_true (i, j) g)) by (by rewrite (proj1 Hsq)).
      simpl. by rewrite Hz. }
    apply (checkSubgrid_reflect n); [done..|].
    intros c Hc' Hsame H1 H2 Heq. unfold sameSubgrid in Hsame.
    apply andb_true_iff in Hsame as [Hq1%Z.eqb_eq Hq2%Z.eqb_eq].
    apply (Hclash (i, j) c); [done|done| | |done|done].
    + intros <-. simpl in H1. done.
    + right; right. done.
Qed.

Lemma square_range_checkFormat n g :
  square n g → (∀ c, InRange n c → 0 ≤ cell g c ≤ n) →
  checkFormat g n = true.
Proof.
  intros Hsq Hrange. unfold checkFormat.
  apply andb_true_iff. split; [by apply bool_decide_eq_true, Hsq|].
  apply forallb_forall. intros row Hrow%list_elem_of_In.
  apply list_elem_of_lookup_1 in Hrow as [i Hi].
  pose proof (square_row _ _ _ _ Hsq Hi) as Hs.
  apply andb_true_iff. split; [by apply bool_decide_eq_true|].
  apply forallb_forall. intros v Hv%list_elem_of_In.
  apply list_elem_of_lookup_1 in Hv as [j Hj].
  assert (InRange n (Z.of_nat i, Z.of_nat j)) as Hc.
  { apply lookup_lt_Some in Hi, Hj. destruct Hsq as [Hsz _].
    unfold InRange, size in *. simpl. lia. }
  specialize (Hrange _ Hc). unfold cell in Hrange. simpl in Hrange.
  rewrite !Nat2Z.id, Hi in Hrange. simpl in Hrange. rewrite Hj in Hrange.
  simpl in Hrange.
  destruct (0 <=? Z.of_nat i) eqn:E1; [|apply Z.leb_gt in E1; lia].
  destruct (0 <=? Z.of_nat j) eqn:E2; [|apply Z.leb_gt in E2; lia].
  simpl in Hrange. apply negb_true_iff, orb_false_iff.
  split; [apply Z.ltb_ge; lia|]. rewrite Z.gtb_ltb. apply Z.ltb_ge. lia.
Qed.

Lemma well_formed_checkUserGrid n s g :
  well_formed n s g → checkUserGrid g n s = true.
Proof.
  intros (Hs & Hn & Hsq & Hrange & Hclash). unfold checkUserGrid.
  apply andb_true_iff. split.
  - by apply square_range_checkFormat.
  - by apply (well_formed_checkLegal n).
Qed.

(** X2. For a positive subregion size [s] and [n = s * s], the validator
    [checkUserGrid] accepts exactly the [n]×[n] grids with values in
    [0..n] in which no two different cells of a row, a column or a
    subregion hold the same digit. *)
Theorem checkUserGrid_exact n s g :
  0 < s → n = s * s → checkUserGrid g n s = true ↔ well_formed n s g.
Proof.
  intros Hs Hn. split.
  - by apply checkUserGrid_well_formed.
  - apply well_formed_checkUserGrid.
Qed.

Lemma checkUserGrid_exact_witness :
  checkUserGrid small 4 2 = true ↔ well_formed 4 2 small.
Proof. apply (checkUserGrid_exact 4 2 small); lia. Defined.

Lemma no_clash_consistent n s g :
  square n g →
  no_clash n s g ↔
  ∀ c, InRange n c → cell g c ≠ 0 →
       consistent (cell g c) c g (occurrences g) s = true.
Proof.
  intros Hsq. pose proof (rec_ok_occurrences n g Hsq) as Hrec. split.
  - intros Hclash c Hc Hnz. unfold consistent.
    apply consistent_column_true. intros c' Hin.
    apply (Hrec (cell g c)) in Hin as (_ & Hc' & Heq).
    apply consistent_pair_true.
    destruct (decide (c = c')) as [|Hne]; [by left|right].
    intros Hshare. by apply (Hclash c c').
  - intros Hcons c1 c2 Hc1 Hc2 Hne Hshare Hnz Heq.
    specialize (Hcons c1 Hc1 Hnz). unfold consistent in Hcons.
    rewrite consistent_column_true in Hcons.
    assert (c2 ∈ rec_get (occurrences g) (cell g c1)) as Hin.
    { apply (Hrec (cell g c1)). done. }
    apply Hcons, consistent_pair_true in Hin as [?|?]; done.
Qed.

(** X3. The scan of the validator and the index-based checker agree: on
    an [n]×[n] grid with [n = s * s], where the scan stays on the grid,
    [checkLegal] accepts exactly when [consistent], run against the
    occurrence index of the grid, accepts every digit of the grid at its
    own cell. *)
Theorem checkLegal_consistent n s g :
  0 < s → n = s * s → square n g →
  checkLegal g s = true ↔
  ∀ c, InRange n c → cell g c ≠ 0 →
       consistent (cell g c) c g (occurrences g) s = true.
Proof.
  intros Hs _ Hsq. rewrite <- (no_clash_consistent n s g Hsq). split.
  - by apply checkLegal_no_clash.
  - by apply well_formed_checkLegal.
Qed.

Lemma checkLegal_consistent_witness :
  checkLegal small 2 = true ↔
  ∀ c, InRange 4 c → cell small c ≠ 0 →
       consistent (cell small c) c small (occurrences small) 2 = true.
Proof.
  apply (checkLegal_consistent 4 2 small); [lia|reflexivity|].
  apply checkFormat_square. vm_compute. reflexivity.
Defined.

(** ** [options], [blankSquares] and [occurrences] *)

(** X4. On a coordinate of an [n]×[n] grid, and for a subregion size
    other than 0 (by which [sameSubgrid] divides), [options] returns the
    digits of [1..n] that [consistent] accepts, in ascending order, and
    leaves the cell at the coordinate at 0, whatever it held before; on a
    coordinate outside the grid it returns no digit and leaves the grid
    alone. *)
Theorem options_exact n g r s c :
  s ≠ 0 → square n g →
  (InRange n c →
   options c g r s =
   (filter (λ d, consistent d c g r s = true) (seqZ 1 n), set_cell g c 0)) ∧
  (¬ InRange n c → options c g r s = ([], g)).
Proof.
  intros _ Hsq. split.
  - intros Hc. by apply options_raw.
  - intros Hc. unfold options.
    destruct (checkPair c g) eqn:Hpair; [|done].
    apply checkPair_true in Hpair. by rewrite (proj1 Hsq) in Hpair.
Qed.

Lemma options_exact_witness :
  (InRange 4 (0, 0) →
   options (0, 0) small (occurrences small) 2 =
   (filter (λ d, consistent d (0, 0) small (occurrences small) 2 = true)
      (seqZ 1 4), set_cell small (0, 0) 0)) ∧
  (¬ InRange 4 (0, 0) →
   options (0, 0) small (occurrences small) 2 = ([], small)).
Proof.
  apply (options_exact 4 small); [lia|].
  apply checkFormat_square. vm_compute. reflexivity.
Defined.

Lemma lookup_seqZ_0 n (i : nat) :
  (i < Z.to_nat n)%nat → seqZ 0 n !! i = Some (Z.of_nat i).
Proof. intros Hi. apply lookup_seqZ. lia. Qed.

Lemma bind_join_fmap {A B} (f : A → list B) (l : list A) :
  l ≫= f = mjoin (f <$> l).
Proof. induction l as [|x l IH]; [done|]. csimpl. by rewrite IH. Qed.

Lemma fmap_join {A B} (h : A → B) (ls : list (list A)) :
  h <$> mjoin ls = mjoin (fmap h <$> ls).
Proof.
  induction ls as [|l ls IH]; [done|]. csimpl. by rewrite fmap_app, IH.
Qed.

(** The cells of a square grid, as the index pairs with what they hold. *)
Lemma cells_index_pairs n g :
  square n g → cells g = (λ c, (c, cell g c)) <$> index_pairs n.
Proof.
  intros Hsq. pose proof (proj1 Hsq) as Hsz. unfold size in Hsz.
  unfold cells, index_pairs. rewrite concat_join.
  rewrite bind_join_fmap, fmap_join.
  f_equal. apply list_eq_same_length with (Z.to_nat n).
  - rewrite !length_fmap, length_seqZ. done.
  - rewrite length_imap. lia.
  - intros i r1 r2 Hi Hr1 Hr2.
    rewrite list_lookup_imap in Hr1.
    rewrite !list_lookup_fmap, (lookup_seqZ_0 n i Hi) in Hr2. simpl in Hr2.
    injection Hr2 as <-.
    destruct (g !! i) as [row|] eqn:Hrow; [|done]. simpl in Hr1.
    injection Hr1 as <-.
    pose proof (square_row _ _ _ _ Hsq Hrow) as Hs. unfold size in Hs.
    apply list_eq_same_length with (Z.to_nat n).
    + rewrite !length_fmap, length_seqZ. done.
    + rewrite length_imap. lia.
    + intros j x y Hj Hx Hy. rewrite list_lookup_imap in Hx.
      rewrite !list_lookup_fmap, (lookup_seqZ_0 n j Hj) in Hy. simpl in Hy.
      injection Hy as <-.
      destruct (row !! j) as [v|] eqn:Hv; [|done]. simpl in Hx.
      injection Hx as <-. f_equal. unfold cell. simpl.
      rewrite !Nat2Z.id, Hrow. simpl. rewrite Hv. simpl.
      destruct (0 <=? Z.of_nat i) eqn:E1; [|apply Z.leb_gt in E1; lia].
      destruct (0 <=? Z.of_nat j) eqn:E2; [|apply Z.leb_gt in E2; lia].
      done.
Qed.

Lemma filter_cells_index_pairs n g (d : Z) :
  square n g →
  (filter (λ cv, cv.2 = d) (cells g)).*1 =
  filter (λ c, cell g c = d) (index_pairs n).
Proof.
  intros Hsq. rewrite (cells_index_pairs n g Hsq).
  induction (index_pairs n) as [|c l IH]; [done|].
  rewrite fmap_cons, !filter_cons. cbn [snd].
  destruct (decide (cell g c = d)).
  - rewrite fmap_cons. cbn [fst]. by rewrite IH.
  - done.
Qed.

(** X5. [blankSquares] lists the blank cells of an [n]×[n] grid in
    row-major order, each once: it is the row-major enumeration of the
    coordinates, filtered by "the cell holds 0". *)
Theorem blankSquares_exact n g :
  square n g →
  blankSquares g = filter (λ c, cell g c = 0) (index_pairs n) ∧
  NoDup (blankSquares g).
Proof.
  intros Hsq. split; [|apply NoDup_blankSquares].
  rewrite blankSquares_filter. by apply filter_cells_index_pairs.
Qed.

Lemma blankSquares_exact_witness :
  blankSquares small = filter (λ c, cell small c = 0) (index_pairs 4) ∧
  NoDup (blankSquares small).
Proof.
  apply (blankSquares_exact 4 small).
  apply checkFormat_square. vm_compute. reflexivity.
Defined.

(** X6. [occurrences] files under every digit the cells of an [n]×[n]
    grid that hold it, in row-major order, each once; nothing is filed
    under 0, and a digit the grid does not hold reads as the empty
    vector. *)
Theorem occurrences_exact n g d :
  square n g →
  rec_get (occurrences g) d =
    (if decide (d = 0) then []
     else filter (λ c, cell g c = d) (index_pairs n)) ∧
  NoDup (rec_get (occurrences g) d) ∧
  ((∀ c, InRange n c → cell g c ≠ d) → rec_get (occurrences g) d = []).
Proof.
  intros Hsq. pose proof (rec_ok_occurrences n g Hsq d) as [Hnd Hmem].
  split; [|split; [done|]].
  - rewrite rec_get_occurrences. case_decide; [done|].
    by apply filter_cells_index_pairs.
  - intros Hnone. destruct (rec_get (occurrences g) d) as [|c l]; [done|].
    exfalso. destruct (proj1 (Hmem c)) as (_ & Hc & Hcd); [by left|].
    by apply (Hnone c).
Qed.

Lemma occurrences_exact_witness :
  rec_get (occurrences small) 3 =
    (if decide (3 = 0) then []
     else filter (λ c, cell small c = 3) (index_pairs 4)) ∧
  NoDup (rec_get (occurrences small) 3) ∧
  ((∀ c, InRange 4 c → cell small c ≠ 3) →
   rec_get (occurrences small) 3 = []).
Proof.
  apply (occurrences_exact 4 small 3).
  apply checkFormat_square. vm_compute. reflexivity.
Defined.

(** ** The grids and the helpers during a solve *)

Lemma run_state_grid n s g st :
  well_formed n s g → run_state g s st →
  well_formed n s (grid st) ∧ extends n g (grid st).
Proof.
  intros (Hs & Hn & Hsq & Hrange & Hclash) Hrun.
  pose proof (run_state_Inv n s g Hsq st Hrun) as HI.
  pose proof (inv_stack _ _ _ _ HI) as HS.
  rewrite (inv_grid _ _ _ _ HI). split.
  - split; [done|]. split; [done|]. split; [by apply square_grid_of|].
    split; [by apply (grid_of_range n s)|by apply grid_of_no_clash].
  - by apply (grid_of_extends n s).
Qed.

(** X7. Every grid of a solve of a well-formed input is itself
    well-formed and keeps the digits of the input: [push] and [increment]
    never write a digit that clashes with a cell already filled, and only
    cells that were blank in the input change. In particular the
    validator accepts every such grid. *)
Theorem solve_grids_valid n s g st :
  well_formed n s g → run_state g s st →
  well_formed n s (grid st) ∧ extends n g (grid st) ∧
  checkUserGrid (grid st) n s = true.
Proof.
  intros Hwf Hrun. destruct (run_state_grid n s g st Hwf Hrun) as [Hw He].
  split; [done|]. split; [done|]. by apply well_formed_checkUserGrid.
Qed.

Lemma solve_grids_valid_witness :
  well_formed 4 2 (grid (pushed (pushed (initial small) 2) 2)) ∧
  extends 4 small (grid (pushed (pushed (initial small) 2) 2)) ∧
  checkUserGrid (grid (pushed (pushed (initial small) 2) 2)) 4 2 = true.
Proof.
  apply (solve_grids_valid 4 2 small).
  - apply checkUserGrid_well_formed; [lia..|]. vm_compute. reflexivity.
  - apply (run_push small 2 (pushed (initial small) 2) true).
    + apply (run_push small 2 (initial small) true); [apply run_initial|].
      vm_compute. reflexivity.
    + vm_compute. reflexivity.
Defined.

Lemma errorIntroduced_Fine blanks g :
  errorIntroduced blanks g = Fine ↔ ∀ c, c ∈ blanks → cell g c = 0.
Proof.
  induction blanks as [|c blanks IH]; simpl.
  - split; [|done]. intros _ c Hc. inversion Hc.
  - destruct c as [i j]. simpl.
    destruct (Z.eqb_spec (cell g (i, j)) 0) as [Hz|Hnz].
    + rewrite IH. split.
      * intros H c [->|Hc]%elem_of_cons; auto.
      * intros H c Hc. apply H. by right.
    + split; [done|]. intros H. destruct Hnz. apply H. by left.
Qed.

Lemma errorCopyChanged_loop_Fine l copy :
  errorCopyChanged_loop l copy = Fine ↔
  ∀ c v, (c, v) ∈ l → v ≠ 0 → cell copy c = v.
Proof.
  induction l as [|[c v] l IH]; simpl.
  - split; [|done]. intros _ c v Hc. inversion Hc.
  - destruct (Z.eqb_spec v 0) as [->|Hv]; simpl.
    + rewrite IH. split.
      * intros H c' v' [[= -> ->]|Hc]%elem_of_cons; [done|by apply H].
      * intros H c' v' Hc. apply H. by right.
    + destruct (Z.eqb_spec (cell copy c) v) as [Heq|Hne]; simpl.
      * rewrite IH. split.
        -- intros H c' v' [[= -> ->]|Hc]%elem_of_cons; [done|by apply H].
        -- intros H c' v' Hc. apply H. by right.
      * split; [done|]. intros H. destruct Hne. apply H; [by left|done].
Qed.

(** [errorCopyChanged] returns exactly when the copy keeps every digit of
    the original. *)
Lemma errorCopyChanged_Fine n original copy :
  square n original →
  errorCopyChanged original copy = Fine ↔ extends n original copy.
Proof.
  intros Hsq. unfold errorCopyChanged. rewrite errorCopyChanged_loop_Fine.
  split.
  - intros H c Hc Hnz. apply H; [|done]. by apply (elem_of_cells_square n).
  - intros H c v Hin Hv.
    apply (elem_of_cells_square n) in Hin as [Hc <-]; [|done]. by apply H.
Qed.

(** X8. The checks written for bug tracking never fire during a solve of
    an [n]×[n] grid with a subregion size other than 0: in every state no
    coordinate of the pool is filled ([errorIntroduced] and [checkBlank]
    return), and no digit of the input has changed ([errorCopyChanged]
    returns). *)
Theorem solve_checks_pass n s g st :
  s ≠ 0 → square n g → run_state g s st →
  errorIntroduced (blanksInProcess st) (grid st) = Fine ∧
  (∀ c, c ∈ blanksInProcess st → checkBlank c (grid st) = Fine) ∧
  errorCopyChanged g (grid st) = Fine.
Proof.
  intros _ Hsq Hrun. pose proof (run_state_Inv n s g Hsq st Hrun) as HI.
  destruct (inv_blanks _ _ _ _ HI) as [_ Hbl].
  assert (∀ c, c ∈ blanksInProcess st → cell (grid st) c = 0) as Hblank.
  { intros c Hc. by apply Hbl. }
  split; [by apply errorIntroduced_Fine|]. split.
  - intros [i j] Hc. unfold checkBlank, checkBlank_at. simpl.
    by rewrite (Hblank _ Hc).
  - apply (errorCopyChanged_Fine n); [done|].
    rewrite (inv_grid _ _ _ _ HI). apply (grid_of_extends n s).
    apply (inv_stack _ _ _ _ HI).
Qed.

Lemma solve_checks_pass_witness :
  errorIntroduced (blanksInProcess (pushed (pushed (initial small) 2) 2))
    (grid (pushed (pushed (initial small) 2) 2)) = Fine ∧
  (∀ c, c ∈ blanksInProcess (pushed (pushed (initial small) 2) 2) →
        checkBlank c (grid (pushed (pushed (initial small) 2) 2)) = Fine) ∧
  errorCopyChanged small (grid (pushed (pushed (initial small) 2) 2)) = Fine.
Proof.
  apply (solve_checks_pass 4 2 small).
  - lia.
  - apply checkFormat_square. vm_compute. reflexivity.
  - apply (run_push small 2 (pushed (initial small) 2) true).
    + apply (run_push small 2 (initial small) true); [apply run_initial|].
      vm_compute. reflexivity.
    + vm_compute. reflexivity.
Defined.

(** ** [tooManyChanges] *)

Lemma elem_of_index_pairs n c : c ∈ index_pairs n ↔ InRange n c.
Proof.
  unfold index_pairs, InRange. rewrite list_elem_of_bind. split.
  - intros (i & Hc & Hi). apply list_elem_of_fmap in Hc as (j & -> & Hj).
    apply elem_of_seqZ in Hi, Hj. simpl. lia.
  - intros [H1 H2]. exists c.1. split.
    + apply list_elem_of_fmap. exists c.2. split; [by destruct c|].
      apply elem_of_seqZ. lia.
    + apply elem_of_seqZ. lia.
Qed.

Lemma NoDup_index_pairs n : NoDup (index_pairs n).
Proof.
  unfold index_pairs. apply NoDup_bind; [| |apply NoDup_seqZ].
  - intros i1 i2 c _ _ H1 H2.
    apply list_elem_of_fmap in H1 as (j1 & -> & _).
    apply list_elem_of_fmap in H2 as (j2 & [= -> _] & _). done.
  - intros i _. apply NoDup_fmap_2; [|apply NoDup_seqZ].
    intros j1 j2 [= ->]. done.
Qed.

(** The loop throws exactly when the count of changes reaches 2. *)
Lemma tooManyChanges_loop_spec p q l :
  ∀ k, 0 ≤ k ≤ 1 →
    tooManyChanges_loop l k p q =
    if decide (2 ≤ k + size (filter (λ c, cell p c ≠ cell q c) l))
    then Raise TooManyChanges else Fine.
Proof.
  induction l as [|c l IH]; intros k Hk.
  - simpl. unfold size. simpl. by rewrite decide_False by lia.
  - cbn [tooManyChanges_loop]. rewrite filter_cons.
    pose proof (size_nonneg (filter (λ c, cell p c ≠ cell q c) l)) as Hs.
    destruct (decide (cell p c ≠ cell q c)) as [Hne|Heq].
    + rewrite (proj2 (Z.eqb_neq _ _) Hne). cbn [negb].
      unfold size in *. simpl length.
      destruct (Z.eqb_spec (k + 1) 2) as [Hk2|Hk2].
      * by rewrite decide_True by lia.
      * rewrite IH by lia.
        destruct (decide (2 ≤ k + 1 + _)), (decide (2 ≤ k + _)); (done || lia).
    + assert (cell p c = cell q c) as Heq'.
      { destruct (decide (cell p c = cell q c)); [done|by destruct Heq]. }
      rewrite (proj2 (Z.eqb_eq _ _) Heq'). cbn [negb]. by apply IH.
Qed.

Lemma length_le_1_of_all_eq {A} (l : list A) (c : A) :
  NoDup l → (∀ x, x ∈ l → x = c) → (length l ≤ 1)%nat.
Proof.
  intros Hnd Hall. destruct l as [|a [|b l]]; simpl; [lia..|]. exfalso.
  assert (a = c) as -> by (apply Hall; by left).
  assert (b = c) as -> by (apply Hall; right; by left).
  apply NoDup_cons in Hnd as [Hnd _]. apply Hnd. by left.
Qed.

Lemma length_ge_2_of_two {A} (l : list A) (x y : A) :
  x ≠ y → x ∈ l → y ∈ l → (2 ≤ length l)%nat.
Proof.
  intros Hne Hx Hy. destruct l as [|a [|b l]]; simpl; [|exfalso|lia].
  - inversion Hx.
  - apply list_elem_of_singleton in Hx, Hy. congruence.
Qed.

(** Grids that differ in one cell at most pass. *)
Lemma tooManyChanges_one p q c :
  (∀ c', c' ≠ c → cell p c' = cell q c') → tooManyChanges p q = Fine.
Proof.
  intros Hsame. unfold tooManyChanges.
  rewrite tooManyChanges_loop_spec by lia. rewrite decide_False; [done|].
  assert (length (filter (λ c, cell p c ≠ cell q c)
                    (index_pairs (size p))) ≤ 1)%nat as Hlen.
  { apply (length_le_1_of_all_eq _ c).
    - apply NoDup_filter, NoDup_index_pairs.
    - intros x [Hx _]%list_elem_of_filter.
      destruct (decide (x = c)) as [|Hne]; [done|]. by destruct (Hx (Hsame x Hne)). }
  unfold size at 1. lia.
Qed.

(** Grids that differ in two cells do not. *)
Lemma tooManyChanges_two n p q c1 c2 :
  size p = n → InRange n c1 → InRange n c2 → c1 ≠ c2 →
  cell p c1 ≠ cell q c1 → cell p c2 ≠ cell q c2 →
  tooManyChanges p q = Raise TooManyChanges.
Proof.
  intros Hn Hc1 Hc2 Hne H1 H2. unfold tooManyChanges.
  rewrite tooManyChanges_loop_spec by lia. rewrite decide_True; [done|].
  assert (2 ≤ length (filter (λ c, cell p c ≠ cell q c)
                        (index_pairs (size p))))%nat as Hlen.
  { apply (length_ge_2_of_two _ c1 c2); [done|..];
      apply list_elem_of_filter; (split; [done|]);
      apply elem_of_index_pairs; by rewrite Hn. }
  unfold size at 1. lia.
Qed.

Section changes.
Context (n s : Z) (g0 : Grid).
Hypothesis Hsq0 : square n g0.

Lemma Inv_push_grid st st' :
  Inv n s g0 st → push st s = Ok (true, st') →
  ∃ f v, stack st' = f :: stack st ∧ Inv n s g0 st' ∧ 1 ≤ v ≤ n ∧
         InRange n (coordinates f) ∧ cell (grid st) (coordinates f) = 0 ∧
         grid st' = set_cell (grid st) (coordinates f) v.
Proof.
  intros HI Hpush.
  destruct (blanksInProcess st) as [|c0 rest] eqn:Hb.
  { unfold push in Hpush. by rewrite Hb in Hpush. }
  destruct (push_cases n s g0 Hsq0 st HI) as
    [(st1 & f & Hp & HI1 & Hstk1 & _)|[Hp _]]; [by rewrite Hb|..];
    rewrite Hp in Hpush; [|done]. injection Hpush as <-.
  destruct (Inv_top n s g0 Hsq0 st1 f (stack st) HI1 Hstk1)
    as (v & Hf & _ & _ & Hv & Hgv & _).
  rewrite <- (inv_grid _ _ _ _ HI) in Hgv, Hf.
  exists f, v. split; [done|]. split; [done|]. split; [done|].
  split; [apply Hf|]. split; [apply Hf|done].
Qed.

Lemma one_operation_one_cell st st' :
  Inv n s g0 st →
  (∃ pushed, push st s = Ok (pushed, st')) ∨ pop st = Ok st' ∨
  increment_top st = Ok st' →
  ∃ c, ∀ c', c' ≠ c → cell (grid st) c' = cell (grid st') c'.
Proof.
  intros HI [[pushed Hpush]|[Hpop|Hinc]].
  - destruct pushed.
    + destruct (Inv_push_grid st st' HI Hpush) as (f & v & _ & _ & _ & _ & _ & ->).
      exists (coordinates f). intros c' Hne. by rewrite cell_set_cell_ne.
    + destruct (blanksInProcess st) as [|c0 rest] eqn:Hb.
      { unfold push in Hpush. by rewrite Hb in Hpush. }
      destruct (push_cases n s g0 Hsq0 st HI) as
        [(st1 & f & Hp & _)|[Hp _]]; [by rewrite Hb|..];
        rewrite Hp in Hpush; [done|]. injection Hpush as <-.
      by exists (0, 0).
  - destruct (pop_preserves n s g0 Hsq0 st st' HI Hpop)
      as (HI' & f & stk' & Hstk & Hstk').
    destruct (Inv_top n s g0 Hsq0 st f stk' HI Hstk)
      as (v & _ & _ & _ & _ & Hgv & _).
    exists (coordinates f). intros c' Hne.
    rewrite (inv_grid _ _ _ _ HI'), Hstk', grid_of_mark_revisited, Hgv.
    by rewrite cell_set_cell_ne.
  - destruct (increment_top_preserves n s g0 Hsq0 st st' HI Hinc)
      as (HI' & f & stk' & Hstk & _ & Hstk').
    destruct (Inv_top n s g0 Hsq0 st f stk' HI Hstk)
      as (v & _ & _ & _ & _ & Hgv & _).
    destruct (Inv_top n s g0 Hsq0 st' _ stk' HI' Hstk')
      as (w & _ & _ & _ & _ & Hgw & _).
    exists (coordinates f). intros c' Hne. rewrite Hgv, Hgw. simpl.
    by rewrite !cell_set_cell_ne.
Qed.
End changes.

(** X9. One operation changes one cell at most: between the grid before
    and the grid after a completed [push], [pop] or [increment] (the
    three-argument overload) of a solve of an [n]×[n] grid with a
    subregion size other than 0, [tooManyChanges] returns. *)
Theorem one_operation_passes n s g st st' :
  s ≠ 0 → square n g → run_state g s st →
  (∃ pushed, push st s = Ok (pushed, st')) ∨ pop st = Ok st' ∨
  increment_top st = Ok st' →
  tooManyChanges (grid st) (grid st') = Fine.
Proof.
  intros _ Hsq Hrun Hop.
  pose proof (run_state_Inv n s g Hsq st Hrun) as HI.
  destruct (one_operation_one_cell n s g Hsq st st' HI Hop) as [c Hc].
  by apply (tooManyChanges_one _ _ c).
Qed.

Lemma one_operation_passes_witness :
  tooManyChanges (grid (pushed (initial small) 2))
    (grid (pushed (pushed (initial small) 2) 2)) = Fine.
Proof.
  apply (one_operation_passes 4 2 small).
  - lia.
  - apply checkFormat_square. vm_compute. reflexivity.
  - apply (run_push small 2 (initial small) true); [apply run_initial|].
    vm_compute. reflexivity.
  - left. exists true. vm_compute. reflexivity.
Defined.

(** ** The operations of the engine on the states of a solve

    The theorems of this part are about the states of a solve of an
    [n]×[n] grid; they take the subregion size other than 0, since
    [sameSubgrid] divides by it. *)

Lemma find_None column c : c ∉ column → find column c = None.
Proof.
  intros Hnot. unfold find.
  destruct (list_find (λ x, x = c) column) as [[i x]|] eqn:E; [|done].
  apply list_find_Some in E as (Hl & -> & _).
  destruct Hnot. by eapply list_elem_of_lookup_2.
Qed.

Lemma passes_run_state g0 s k :
  ∀ st, run_state g0 s st → run_state g0 s (passes k st s).
Proof.
  induction k as [|k IH]; intros st Hrun; [done|]. simpl.
  destruct (iteration st s) as [st'|] eqn:Hit; [|done].
  apply IH. by eapply iteration_run_state.
Qed.

Section operations.
Context (n s : Z) (g0 : Grid).
Hypothesis Hsq0 : square n g0.

Lemma increment_top_blanks st st' :
  increment_top st = Ok st' → blanksInProcess st' = blanksInProcess st.
Proof.
  unfold increment_top. destruct (stack st) as [|f stk']; [done|].
  destruct (_ >=? _); [done|]. destruct (find _ _); [|done].
  by intros [= <-].
Qed.

(** A completed [increment] has moved the top frame on and pushed a
    frame on it. *)
Lemma increment_Ok_inv st st' :
  Inv n s g0 st → increment st s = Ok st' →
  ∃ f stk' h,
    stack st = f :: stk' ∧ index f + 1 < size (choices f) ∧
    Inv n s g0 st' ∧
    stack st' =
      h :: StackData (coordinates f) (choices f) (index f + 1) (revisited f)
        :: stk' ∧
    index h = 0 ∧ revisited h = false.
Proof.
  intros HI Hinc.
  destruct (increment_top st) as [st1|e] eqn:Htop;
    [|unfold increment in Hinc; by rewrite Htop in Hinc].
  destruct (increment_top_preserves n s g0 Hsq0 st st1 HI Htop)
    as (HI1 & f & stk' & Hstk & Hidx & Hstk1).
  pose proof (increment_top_blanks st st1 Htop) as Hb1.
  assert (blanksInProcess st ≠ []) as Hne.
  { intros Hnil. unfold increment in Hinc. rewrite Htop in Hinc.
    simpl in Hinc. unfold tryToPush, push in Hinc.
    by rewrite Hb1, Hnil in Hinc. }
  destruct (increment_cases n s g0 Hsq0 st f stk' HI Hstk Hidx Hne)
    as (st'' & h & Hinc' & HI' & Hstk' & Hh).
  rewrite Hinc in Hinc'. injection Hinc' as <-. by exists f, stk', h.
Qed.

(** The two cells a completed [increment] changes. *)
Lemma increment_two_cells st st' :
  Inv n s g0 st → increment st s = Ok st' →
  ∃ c1 c2, InRange n c1 ∧ InRange n c2 ∧ c1 ≠ c2 ∧
    cell (grid st) c1 ≠ cell (grid st') c1 ∧
    cell (grid st) c2 ≠ cell (grid st') c2.
Proof.
  intros HI Hinc.
  destruct (increment_Ok_inv st st' HI Hinc)
    as (f & stk' & h & Hstk & Hidx & HI' & Hstk' & _).
  set (f' := StackData (coordinates f) (choices f) (index f + 1) (revisited f))
    in *.
  destruct (Inv_top n s g0 Hsq0 st f stk' HI Hstk)
    as (v & Hf & _ & Hv & Hvr & Hgv & Hcv).
  destruct (Inv_top n s g0 Hsq0 st' h (f' :: stk') HI' Hstk')
    as (u & Hh & [Hf' _] & _ & Hur & Hgu & Hcu).
  pose proof (square_grid_of n g0 Hsq0 stk') as HsqG.
  destruct (frame_choice n s _ f' HsqG Hf') as (w & Hw & Hwr & _).
  simpl in Hw.
  assert (grid_of (f' :: stk') g0
          = set_cell (grid_of stk' g0) (coordinates f) w) as HG'.
  { simpl. by rewrite (list_lookup_total_correct _ _ _ Hw). }
  destruct Hf as (Hcf & Hblank & Hch & Hi & _).
  destruct Hh as (Hch' & Hblank' & _).
  rewrite HG' in Hblank', Hgu.
  assert (coordinates h ≠ coordinates f) as Hne.
  { intros Heq. rewrite Heq in Hblank'.
    rewrite (cell_set_cell_eq n) in Hblank' by done. lia. }
  assert (v ≠ w) as Hvw.
  { intros ->.
    assert (Z.to_nat (index f) = Z.to_nat (index f + 1)) as Heq; [|lia].
    eapply NoDup_lookup; [|exact Hv|exact Hw]. rewrite Hch. apply NoDup_opts. }
  exists (coordinates f), (coordinates h).
  split; [done|]. split; [done|]. split; [done|]. split.
  - rewrite Hcv, Hgu. rewrite cell_set_cell_ne by done.
    by rewrite (cell_set_cell_eq n).
  - rewrite Hcu, Hgv. rewrite cell_set_cell_ne by done.
    rewrite cell_set_cell_ne in Hblank' by done. lia.
Qed.

(** What [pop] does to the top frame, by the place of its cursor. *)
Lemma pop_by_cursor st f stk' :
  Inv n s g0 st → stack st = f :: stk' →
  (index f + 1 = size (choices f) →
   ∃ st', pop st = Ok st' ∧ stack st' = mark_revisited stk' ∧
          grid st' = set_cell (grid st) (coordinates f) 0 ∧
          blanksInProcess st' = blanksInProcess st ++ [coordinates f]) ∧
  (index f + 1 ≠ size (choices f) → pop st = Throw PopNotInRecord).
Proof.
  intros HI Hstk.
  destruct (Inv_top n s g0 Hsq0 st f stk' HI Hstk)
    as (v & Hf & _ & Hv & Hvr & Hgv & Hcv).
  destruct Hf as (Hcf & Hblank & Hch & Hi & _). split.
  - intros Hlast.
    destruct (pop_ok n s g0 Hsq0 st f stk' HI Hstk Hlast) as [st' Hpop].
    exists st'. split; [done|]. unfold pop in Hpop. rewrite Hstk in Hpop.
    destruct (last (choices f)); [|done]. destruct (find _ _); [|done].
    by injection Hpop as <-.
  - intros Hnot. unfold pop. rewrite Hstk.
    destruct (last (choices f)) as [back|] eqn:Hlast.
    + rewrite find_None; [done|]. intros Hin.
      apply (inv_record _ _ _ _ HI) in Hin as (_ & _ & Hcell).
      rewrite Hcv in Hcell. subst back. rewrite last_lookup in Hlast.
      assert (Z.to_nat (index f) = pred (length (choices f))) as Heq.
      { eapply NoDup_lookup; [|exact Hv|exact Hlast].
        rewrite Hch. apply NoDup_opts. }
      unfold size in *. lia.
    + apply last_None in Hlast. rewrite Hlast in Hi. unfold size in Hi.
      simpl in Hi. lia.
Qed.

(** A frame pushed and popped at once leaves the state as it was, up to
    the order of the pool and of the occurrence lists. *)
Lemma push_pop_restores st st1 st2 :
  Inv n s g0 st → push st s = Ok (true, st1) → pop st1 = Ok st2 →
  grid st2 = grid st ∧ stack st2 = mark_revisited (stack st) ∧
  blanksInProcess st2 ≡ₚ blanksInProcess st ∧
  ∀ d, rec_get (record st2) d ≡ₚ rec_get (record st) d.
Proof.
  intros HI Hpush Hpop.
  pose proof (push_preserves n s g0 Hsq0 st true st1 HI Hpush) as HI1.
  destruct (pop_preserves n s g0 Hsq0 st1 st2 HI1 Hpop)
    as (HI2 & f & stk' & Hstk1 & Hstk2).
  assert (stk' = stack st) as ->.
  { destruct (blanksInProcess st) as [|c0 rest] eqn:Hb.
    { unfold push in Hpush. by rewrite Hb in Hpush. }
    destruct (push_cases n s g0 Hsq0 st HI) as
      [(st1' & f' & Hp & _ & Hs & _)|[Hp _]]; [by rewrite Hb|..];
      rewrite Hp in Hpush; [|done]. injection Hpush as ->.
    rewrite Hstk1 in Hs. by injection Hs. }
  assert (grid st2 = grid st) as Hg.
  { rewrite (inv_grid _ _ _ _ HI2), Hstk2, grid_of_mark_revisited.
    by rewrite (inv_grid _ _ _ _ HI). }
  split; [done|]. split; [done|]. split.
  - destruct (inv_blanks _ _ _ _ HI) as [Hnd Hmem].
    destruct (inv_blanks _ _ _ _ HI2) as [Hnd2 Hmem2].
    apply NoDup_Permutation; [done..|]. intros c.
    by rewrite Hmem, Hmem2, Hg.
  - intros d. destruct (inv_record _ _ _ _ HI d) as [Hnd Hmem].
    destruct (inv_record _ _ _ _ HI2 d) as [Hnd2 Hmem2].
    apply NoDup_Permutation; [done..|]. intros c.
    by rewrite Hmem, Hmem2, Hg.
Qed.

(** When [push] places nothing. *)
Lemma push_false_iff st :
  Inv n s g0 st → blanksInProcess st ≠ [] →
  (push st s = Ok (false, st) ↔
   ∃ b, b ∈ blanksInProcess st ∧ (options b (grid st) (record st) s).1 = [])
  ∧ (∀ st', push st s = Ok (false, st') → st' = st)
  ∧ (∀ e, push st s ≠ Throw e).
Proof.
  intros HI Hne. pose proof (Inv_square n s g0 Hsq0 st HI) as Hsq.
  assert (∀ b, b ∈ blanksInProcess st →
               (options b (grid st) (record st) s).1 = opts (grid st) s b)
    as Hopt.
  { intros b Hb. apply (inv_blanks _ _ _ _ HI) in Hb as [Hb _].
    rewrite (options_spec n); [done..|]. apply (inv_record _ _ _ _ HI). }
  destruct (push_cases n s g0 Hsq0 st HI Hne)
    as [(st1 & f & Hp & HI1 & Hstk1 & _)|[Hp (b & Hb & Hblank & Hnil)]].
  - split; [|split]; [|intros st'|intros e]; rewrite Hp; [|done..].
    split; [done|]. intros (b & Hb & Hnil). exfalso.
    rewrite (Hopt b Hb) in Hnil.
    apply (inv_blanks _ _ _ _ HI) in Hb as [Hb Hblank].
    destruct (Inv_top n s g0 Hsq0 st1 f (stack st) HI1 Hstk1)
      as (_ & (_ & _ & _ & Hi & Hmrv) & _).
    rewrite <- (inv_grid _ _ _ _ HI) in Hmrv.
    specialize (Hmrv b Hb Hblank). rewrite Hnil in Hmrv.
    unfold size in Hmrv at 2. simpl in Hmrv. lia.
  - split; [|split]; [|intros st'|intros e]; rewrite Hp; [|by intros [= <-]|done].
    split; [|done]. intros _. exists b. split.
    + by apply (inv_blanks _ _ _ _ HI).
    + rewrite Hopt; [done|]. by apply (inv_blanks _ _ _ _ HI).
Qed.

(** In every frame the cursor points at the digit the grid holds at the
    cell of the frame. *)
Lemma stack_cells stk f :
  StackOK n s g0 stk → f ∈ stk →
  InRange n (coordinates f) ∧
  0 ≤ index f < size (choices f) ∧
  choices f !! Z.to_nat (index f) = Some (cell (grid_of stk g0) (coordinates f))
  ∧ 1 ≤ cell (grid_of stk g0) (coordinates f) ≤ n ∧ cell g0 (coordinates f) = 0.
Proof.
  induction stk as [|h stk IH]; intros HS Hin; [inversion Hin|].
  destruct HS as [Hh HS].
  pose proof (square_grid_of n g0 Hsq0 stk) as HsqG.
  destruct (frame_choice n s _ h HsqG Hh) as (v & Hv & Hvr & _).
  assert (grid_of (h :: stk) g0 = set_cell (grid_of stk g0) (coordinates h) v)
    as HG.
  { simpl. by rewrite (list_lookup_total_correct _ _ _ Hv). }
  rewrite HG. pose proof Hh as (Hch & Hblank & _ & Hi & _).
  assert (∀ c, InRange n c → cell (grid_of stk g0) c = 0 → cell g0 c = 0)
    as Hzero.
  { intros c Hc Hz. destruct (Z.eq_dec (cell g0 c) 0) as [|Hnz]; [done|].
    pose proof (grid_of_extends n s g0 stk HS c Hc Hnz). lia. }
  apply elem_of_cons in Hin as [->|Hin].
  - rewrite (cell_set_cell_eq n) by done.
    split; [done|]. split; [done|]. split; [done|]. split; [done|].
    by apply Hzero.
  - destruct (IH HS Hin) as (Hcf & Hif & Hvf & Hrf & Hzf).
    assert (coordinates f ≠ coordinates h) as Hne.
    { intros Heq. rewrite Heq in Hrf. lia. }
    rewrite cell_set_cell_ne by done. done.
Qed.
End operations.

(** X10. The five-argument [increment] changes two cells: it moves the
    top frame to its next choice and pushes a frame on it. So between the
    grid before and the grid after any completed [increment] of a solve
    [tooManyChanges] throws: the check fits one operation, not one pass
    of the loop of [backtrack]. *)
Theorem increment_changes_two_cells n s g st st' :
  s ≠ 0 → square n g → run_state g s st → increment st s = Ok st' →
  tooManyChanges (grid st) (grid st') = Raise TooManyChanges.
Proof.
  intros _ Hsq Hrun Hinc.
  pose proof (run_state_Inv n s g Hsq st Hrun) as HI.
  destruct (increment_two_cells n s g Hsq st st' HI Hinc)
    as (c1 & c2 & Hc1 & Hc2 & Hne & H1 & H2).
  apply (tooManyChanges_two n _ _ c1 c2); [|done..].
  apply (Inv_square n s g Hsq st HI).
Qed.

Lemma increment_changes_two_cells_witness :
  tooManyChanges (grid (passes 2 (pushed (initial hopeless) 2) 2))
    (grid (passes 3 (pushed (initial hopeless) 2) 2))
  = Raise TooManyChanges.
Proof.
  apply (increment_changes_two_cells 4 2 hopeless).
  - lia.
  - apply checkFormat_square. vm_compute. reflexivity.
  - apply passes_run_state.
    apply (run_push hopeless 2 (initial hopeless) true); [apply run_initial|].
    vm_compute. reflexivity.
  - vm_compute. reflexivity.
Defined.

(** X11. [pop] looks the cell of the top frame up under [choices.back()],
    the last choice, not under the current one. On a state of a solve it
    completes when the cursor of the top frame is on the last choice: the
    frame goes, the cell is blanked and joins the pool at the back.
    With the cursor anywhere else it throws, the cell not being recorded
    under the last choice. *)
Theorem pop_needs_last_choice n s g st f stk' :
  s ≠ 0 → square n g → run_state g s st → stack st = f :: stk' →
  (index f + 1 = size (choices f) →
   ∃ st', pop st = Ok st' ∧ stack st' = mark_revisited stk' ∧
          grid st' = set_cell (grid st) (coordinates f) 0 ∧
          blanksInProcess st' = blanksInProcess st ++ [coordinates f]) ∧
  (index f + 1 ≠ size (choices f) → pop st = Throw PopNotInRecord).
Proof.
  intros _ Hsq Hrun Hstk. apply (pop_by_cursor n s g Hsq); [|done].
  by apply (run_state_Inv n s g Hsq).
Qed.

Lemma pop_needs_last_choice_witness :
  pop (pushed (initial blank4) 2) = Throw PopNotInRecord.
Proof.
  apply (pop_needs_last_choice 4 2 blank4 (pushed (initial blank4) 2)
           (StackData (0, 0) [1; 2; 3; 4] 0 false) []).
  - lia.
  - apply checkFormat_square. vm_compute. reflexivity.
  - apply (run_push blank4 2 (initial blank4) true); [apply run_initial|].
    vm_compute. reflexivity.
  - vm_compute. reflexivity.
  - vm_compute. discriminate.
Defined.

(** X12. Round trip: when a [push] places a digit and the [pop] that
    follows at once completes (the frame pushed has one choice, see
    X11), the grid and the stack are as they were (the top of the stack
    now marked revisited); the pool and every occurrence list hold what
    they held, in another order. *)
Theorem push_pop_round_trip n s g st st1 st2 :
  s ≠ 0 → square n g → run_state g s st →
  push st s = Ok (true, st1) → pop st1 = Ok st2 →
  grid st2 = grid st ∧ stack st2 = mark_revisited (stack st) ∧
  blanksInProcess st2 ≡ₚ blanksInProcess st ∧
  ∀ d, rec_get (record st2) d ≡ₚ rec_get (record st) d.
Proof.
  intros _ Hsq Hrun Hpush Hpop.
  apply (push_pop_restores n s g Hsq st st1 st2); [|done..].
  by apply (run_state_Inv n s g Hsq).
Qed.

Lemma push_pop_round_trip_witness :
  grid (popped (pushed (initial small) 2)) = grid (initial small) ∧
  stack (popped (pushed (initial small) 2))
  = mark_revisited (stack (initial small)) ∧
  blanksInProcess (popped (pushed (initial small) 2))
  ≡ₚ blanksInProcess (initial small) ∧
  ∀ d, rec_get (record (popped (pushed (initial small) 2))) d
       ≡ₚ rec_get (record (initial small)) d.
Proof.
  apply (push_pop_round_trip 4 2 small (initial small)
           (pushed (initial small) 2)).
  - lia.
  - apply checkFormat_square. vm_compute. reflexivity.
  - apply run_initial.
  - vm_compute. reflexivity.
  - vm_compute. reflexivity.
Defined.

(** X13. On a state of a solve with a blank left, [push] never throws.
    It places nothing and returns false exactly when some blank of the
    pool has no option, and then every container is as before: the grid
    that [min] and [options] blank and restore cell by cell is back to
    what it was. *)
Theorem push_fails_iff_dead_end n s g st :
  s ≠ 0 → square n g → run_state g s st → blanksInProcess st ≠ [] →
  (push st s = Ok (false, st) ↔
   ∃ b, b ∈ blanksInProcess st ∧ (options b (grid st) (record st) s).1 = [])
  ∧ (∀ st', push st s = Ok (false, st') → st' = st)
  ∧ (∀ e, push st s ≠ Throw e).
Proof.
  intros _ Hsq Hrun Hne. apply (push_false_iff n s g Hsq); [|done].
  by apply (run_state_Inv n s g Hsq).
Qed.

Lemma push_fails_iff_dead_end_witness :
  push (initial blocked) 2 = Ok (false, initial blocked).
Proof.
  apply (push_fails_iff_dead_end 4 2 blocked (initial blocked)).
  - lia.
  - apply checkFormat_square. vm_compute. reflexivity.
  - apply run_initial.
  - vm_compute. discriminate.
  - exists (0, 0). split; [|vm_compute; reflexivity].
    apply (elem_of_blankSquares 4).
    + apply checkFormat_square. vm_compute. reflexivity.
    + split; [unfold InRange; simpl; lia|reflexivity].
Defined.

(** X14. Where [backtrack] calls the five-argument [increment], on a
    state whose top frame has a choice after the cursor and whose pool
    has a blank left, the [push] within it always places a digit: the
    frame it moved on has two choices at least, and such a frame was the
    most constrained blank, so no blank is without an option. Hence
    [increment] never pops, never leaves the stack empty, and its last
    two lines, which push again on an empty stack, never run. *)
Theorem increment_never_restarts n s g st f stk' :
  s ≠ 0 → square n g → run_state g s st → stack st = f :: stk' →
  index f + 1 < size (choices f) → blanksInProcess st ≠ [] →
  ∃ st1 st2,
    increment_top st = Ok st1 ∧ push st1 s = Ok (true, st2) ∧
    increment st s = Ok st2 ∧ stack st2 ≠ [].
Proof.
  intros _ Hsq Hrun Hstk Hidx Hne.
  pose proof (run_state_Inv n s g Hsq st Hrun) as HI.
  destruct (increment_top_ok n s g Hsq st f stk' HI Hstk Hidx) as [st1 Htop].
  destruct (increment_top_preserves n s g Hsq st st1 HI Htop)
    as (HI1 & f1 & stk1 & Hs & _ & Hstk1).
  rewrite Hstk in Hs. injection Hs as <- <-.
  pose proof (increment_top_blanks st st1 Htop) as Hb1.
  destruct (push_cases n s g Hsq st1 HI1)
    as [(st2 & h & Hp & _ & Hstk2 & _)|[_ (b & Hb & Hblank & Hnil)]];
    [by rewrite Hb1|..].
  - exists st1, st2. split; [done|]. split; [done|].
    split; [|by rewrite Hstk2].
    unfold increment. rewrite Htop. simpl. unfold tryToPush. rewrite Hp.
    simpl. by rewrite Hstk2.
  - exfalso.
    destruct (Inv_top n s g Hsq st f stk' HI Hstk)
      as (_ & (_ & _ & _ & Hi & _) & _).
    refine (several_choices_no_dead_end n s g Hsq st1 _ stk' HI1 Hstk1 _
              b Hb Hblank Hnil).
    simpl. lia.
Qed.

Lemma increment_never_restarts_witness :
  ∃ st1 st2,
    increment_top (passes 2 (pushed (initial hopeless) 2) 2) = Ok st1 ∧
    push st1 2 = Ok (true, st2) ∧
    increment (passes 2 (pushed (initial hopeless) 2) 2) 2 = Ok st2 ∧
    stack st2 ≠ [].
Proof.
  apply (increment_never_restarts 4 2 hopeless
           (passes 2 (pushed (initial hopeless) 2) 2)
           (StackData (0, 0) [2; 4] 0 true) []).
  - lia.
  - apply checkFormat_square. vm_compute. reflexivity.
  - apply passes_run_state.
    apply (run_push hopeless 2 (initial hopeless) true); [apply run_initial|].
    vm_compute. reflexivity.
  - vm_compute. reflexivity.
  - vm_compute. reflexivity.
  - vm_compute. discriminate.
Defined.

(** X15. The stack tracks the grid: in every state of a solve, the cell
    of every frame was blank in the input, the cursor of the frame is
    inside its choices, and the choice under the cursor is the digit, one
    of [1..n], that the grid holds at that cell; the choices of a frame
    are pairwise different. *)
Theorem frames_track_grid n s g st f :
  s ≠ 0 → square n g → run_state g s st → f ∈ stack st →
  InRange n (coordinates f) ∧ cell g (coordinates f) = 0 ∧
  0 ≤ index f < size (choices f) ∧ NoDup (choices f) ∧
  choices f !! Z.to_nat (index f) = Some (cell (grid st) (coordinates f)) ∧
  1 ≤ cell (grid st) (coordinates f) ≤ n.
Proof.
  intros _ Hsq Hrun Hin.
  pose proof (run_state_Inv n s g Hsq st Hrun) as HI.
  pose proof (inv_stack _ _ _ _ HI) as HS.
  destruct (stack_cells n s g Hsq (stack st) f HS Hin)
    as (Hc & Hi & Hv & Hr & Hz).
  rewrite (inv_grid _ _ _ _ HI).
  split; [done|]. split; [done|]. split; [done|]. split; [|done].
  clear Hv Hr. induction (stack st) as [|h stk IH]; [inversion Hin|].
  destruct HS as [Hh HS]. apply elem_of_cons in Hin as [->|Hin].
  - destruct Hh as (_ & _ & -> & _). apply NoDup_opts.
  - by apply IH.
Qed.

Lemma frames_track_grid_witness :
  InRange 4 (0, 3) ∧ cell small (0, 3) = 0 ∧
  0 ≤ 0 < size [4] ∧ NoDup [4] ∧
  [4] !! Z.to_nat 0
  = Some (cell (grid (pushed (pushed (initial small) 2) 2)) (0, 3)) ∧
  1 ≤ cell (grid (pushed (pushed (initial small) 2) 2)) (0, 3) ≤ 4.
Proof.
  apply (frames_track_grid 4 2 small (pushed (pushed (initial small) 2) 2)
           (StackData (0, 3) [4] 0 false)).
  - lia.
  - apply checkFormat_square. vm_compute. reflexivity.
  - apply (run_push small 2 (pushed (initial small) 2) true).
    + apply (run_push small 2 (initial small) true); [apply run_initial|].
      vm_compute. reflexivity.
    + vm_compute. reflexivity.
  - assert (stack (pushed (pushed (initial small) 2) 2)
            = [StackData (0, 2) [2] 0 false; StackData (0, 3) [4] 0 false])
      as ->; [vm_compute; reflexivity|].
    right. left.
Defined.

(** ** The run as a whole *)

(** X16. [backtrack] decides solvability of a well-formed grid: it
    returns, the empty vector exactly when no solved grid keeps the
    digits of the input, and otherwise such a solved grid (one of them,
    if there are several). *)
Theorem backtrack_decides n s g :
  well_formed n s g →
  ∃ fuel ret st',
    backtrack fuel g s = Some (Ok (ret, st')) ∧
    (ret = [] ↔ ∀ sol, ¬ completion n s g sol) ∧
    (ret ≠ [] ↔ completion n s g ret).
Proof.
  intros Hwf. assert (0 < n) as Hn by (destruct Hwf as (? & -> & _); lia).
  destruct (backtrack_correct n s g Hwf)
    as (fuel & ret & st' & Hrun & [[_ Hcomp]|(-> & _ & _ & _ & Hno)]);
    eexists fuel, _, st'; (split; [exact Hrun|]).
  - assert (ret ≠ []) as Hne by (apply (solution_nonempty n s); [done|apply Hcomp]).
    split; [|done]. split; [done|]. intros Hnone. by destruct (Hnone ret).
  - split.
    + split; [|done]. intros _ sol [Hsol Hext]. by apply (Hno sol).
    + split; [done|]. intros [Hsol _] _.
      by apply (solution_nonempty n s [] Hn Hsol).
Qed.

Lemma backtrack_decides_witness :
  ∃ fuel ret st',
    backtrack fuel small 2 = Some (Ok (ret, st')) ∧
    (ret = [] ↔ ∀ sol, ¬ completion 4 2 small sol) ∧
    (ret ≠ [] ↔ completion 4 2 small ret).
Proof.
  apply (backtrack_decides 4 2 small).
  apply checkUserGrid_well_formed; [lia..|]. vm_compute. reflexivity.
Defined.

Lemma blankSquares_nil n g :
  square n g → (∀ c, InRange n c → cell g c ≠ 0) → blankSquares g = [].
Proof.
  intros Hsq Hfull. destruct (blankSquares g) as [|c l] eqn:E; [done|].
  assert (c ∈ blankSquares g) as Hin by (rewrite E; by left).
  apply (elem_of_blankSquares n) in Hin as [Hc Hz]; [|done].
  by destruct (Hfull c Hc).
Qed.

(** X17. What [backtrack] returns for a well-formed grid, if not the
    empty vector, passes the validator of the input, has no blank, and
    is a fixed point: [backtrack] called on it returns it at once. *)
Theorem backtrack_result_accepted n s g fuel ret st' :
  well_formed n s g → backtrack fuel g s = Some (Ok (ret, st')) → ret ≠ [] →
  checkUserGrid ret n s = true ∧ blankSquares ret = [] ∧
  ∀ fuel', backtrack fuel' ret s = Some (Ok (ret, initial ret)).
Proof.
  intros Hwf Hrun Hne.
  destruct (backtrack_returns_completion n s g fuel ret st' Hwf Hrun Hne)
    as [(Hsq & Hfill & Hclash) _].
  assert (blankSquares ret = []) as Hnil.
  { apply (blankSquares_nil n); [done|]. intros c Hc.
    specialize (Hfill c Hc). lia. }
  split; [|split; [done|]].
  - apply well_formed_checkUserGrid.
    destruct Hwf as (Hs & Hn & _).
    split; [done|]. split; [done|]. split; [done|]. split; [|done].
    intros c Hc. specialize (Hfill c Hc). lia.
  - intros fuel'. unfold backtrack. simpl. by rewrite Hnil.
Qed.

Lemma backtrack_result_accepted_witness :
  checkUserGrid small_solved 4 2 = true ∧ blankSquares small_solved = [] ∧
  ∀ fuel', backtrack fuel' small_solved 2
           = Some (Ok (small_solved, initial small_solved)).
Proof.
  apply (backtrack_result_accepted 4 2 small 20 small_solved
           (final_state small (backtrack 20 small 2))).
  - apply checkUserGrid_well_formed; [lia..|]. vm_compute. reflexivity.
  - vm_compute. reflexivity.
  - discriminate.
Defined.

(** ** One pass of the loop of [backtrack] *)

Lemma iteration_stack_step n s g0 st :
  square n g0 → Inv n s g0 st → stack st ≠ [] → blanksInProcess st ≠ [] →
  ∃ st', iteration st s = Ok st' ∧ Inv n s g0 st' ∧
         (size (stack st') = size (stack st) + 1 ∨
          size (stack st') = size (stack st) - 1).
Proof.
  intros Hsq0 HI Hne Hbl.
  destruct (stack st) as [|f stk'] eqn:Hstk; [done|].
  destruct (Inv_top n s g0 Hsq0 st f stk' HI Hstk)
    as (_ & (_ & _ & _ & Hi & _) & _).
  assert (size (f :: stk') = size stk' + 1) as Hsz
    by (unfold size; simpl; lia).
  unfold iteration. rewrite Hstk.
  destruct (revisited f) eqn:Hrev; simpl.
  - destruct (Z.ltb_spec (index f + 1) (size (choices f))) as [Hlt|Hge].
    + destruct (increment_cases n s g0 Hsq0 st f stk' HI Hstk Hlt Hbl)
        as (st' & h & Hrun & HI' & Hstk' & _).
      exists st'. split; [done|]. split; [done|]. left. rewrite Hstk'.
      unfold size in *. simpl. lia.
    + destruct (pop_ok n s g0 Hsq0 st f stk' HI Hstk) as [st' Hpop]; [lia|].
      destruct (pop_preserves n s g0 Hsq0 st st' HI Hpop)
        as (HI' & f1 & stk1 & Hs1 & Hs2).
      rewrite Hstk in Hs1. injection Hs1 as <- <-.
      exists st'. split; [done|]. split; [done|]. right.
      rewrite Hs2, size_mark_revisited. lia.
  - destruct (tryToPush_cases n s g0 Hsq0 st f stk' HI Hstk Hbl)
      as [(st' & h & Hrun & HI' & Hstk' & _)|(st' & Hrun & HI' & Hstk' & _)].
    + exists st'. split; [done|]. split; [done|]. left. rewrite Hstk'.
      unfold size in *. simpl. lia.
    + exists st'. split; [done|]. split; [done|]. right.
      rewrite Hstk', size_mark_revisited. lia.
Qed.

(** X18. Where [backtrack] calls [tryToPush], on a state of a solve
    with a frame on the stack and a blank left, it never throws. It
    pushes a frame, or, when some blank has no option, pops the top
    frame; the frame popped then has one choice only, so that its cursor
    is on the last choice, which is what [pop] needs. *)
Theorem tryToPush_pops_single_choice n s g st f stk' :
  s ≠ 0 → square n g → run_state g s st → stack st = f :: stk' →
  blanksInProcess st ≠ [] →
  ∃ st', tryToPush st s = Ok st' ∧
    ((∃ h, stack st' = h :: f :: stk' ∧ index h = 0 ∧ revisited h = false) ∨
     (stack st' = mark_revisited stk' ∧ size (choices f) = 1 ∧
      grid st' = set_cell (grid st) (coordinates f) 0)).
Proof.
  intros _ Hsq Hrun Hstk Hbl.
  pose proof (run_state_Inv n s g Hsq st Hrun) as HI.
  destruct (tryToPush_cases n s g Hsq st f stk' HI Hstk Hbl)
    as [(st' & h & Htry & _ & Hstk' & Hh)|(st' & Htry & _ & Hstk' & Hone & Hdead)].
  - exists st'. split; [done|]. left. by exists h.
  - exists st'. split; [done|]. right. split; [done|]. split; [done|].
    destruct (Inv_top n s g Hsq st f stk' HI Hstk)
      as (_ & (_ & _ & _ & Hi & _) & _).
    destruct (proj1 (pop_by_cursor n s g Hsq st f stk' HI Hstk))
      as (st1 & Hpop & _ & Hg & _); [lia|].
    destruct Hdead as (b & Hb & Hblank & Hnil).
    destruct (push_cases n s g Hsq st HI Hbl)
      as [(st2 & h & Hp & HI2 & Hstk2 & _)|[Hp _]].
    + exfalso.
      destruct (Inv_top n s g Hsq st2 h (stack st) HI2 Hstk2)
        as (_ & (_ & _ & _ & Hih & Hmrv) & _).
      rewrite <- (inv_grid _ _ _ _ HI) in Hmrv.
      specialize (Hmrv b Hb Hblank). rewrite Hnil in Hmrv.
      unfold size in Hmrv at 2. simpl in Hmrv. lia.
    + unfold tryToPush in Htry. rewrite Hp in Htry. simpl in Htry.
      rewrite Hpop in Htry. by injection Htry as <-.
Qed.

Lemma tryToPush_pops_single_choice_witness :
  ∃ st', tryToPush (passes 1 (pushed (initial hopeless) 2) 2) 2 = Ok st' ∧
    ((∃ h, stack st'
           = h :: StackData (0, 2) [4] 0 false
               :: [StackData (0, 0) [2; 4] 0 false] ∧
           index h = 0 ∧ revisited h = false) ∨
     (stack st' = mark_revisited [StackData (0, 0) [2; 4] 0 false] ∧
      size (choices (StackData (0, 2) [4] 0 false)) = 1 ∧
      grid st'
      = set_cell (grid (passes 1 (pushed (initial hopeless) 2) 2))
          (coordinates (StackData (0, 2) [4] 0 false)) 0)).
Proof.
  apply (tryToPush_pops_single_choice 4 2 hopeless).
  - lia.
  - apply checkFormat_square. vm_compute. reflexivity.
  - apply passes_run_state.
    apply (run_push hopeless 2 (initial hopeless) true); [apply run_initial|].
    vm_compute. reflexivity.
  - vm_compute. reflexivity.
  - vm_compute. discriminate.
Defined.

(** X19. Every pass through the loop of [backtrack], entered with a
    stack neither empty nor full, completes and moves the stack by one
    frame: [increment] and a successful [tryToPush] add one, [pop] and a
    failed [tryToPush] take one away; the pool holds the blanks that are
    not on the stack. *)
Theorem pass_moves_one_frame n s g st :
  s ≠ 0 → square n g → run_state g s st → stack st ≠ [] →
  size (stack st) ≠ size (blankSquares g) →
  ∃ st', iteration st s = Ok st' ∧
    (size (stack st') = size (stack st) + 1 ∨
     size (stack st') = size (stack st) - 1) ∧
    size (blanksInProcess st') = size (blankSquares g) - size (stack st').
Proof.
  intros _ Hsq Hrun Hne Hfull.
  pose proof (run_state_Inv n s g Hsq st Hrun) as HI.
  pose proof (Inv_not_full_blanks n s g st HI Hfull) as Hbl.
  destruct (iteration_stack_step n s g st Hsq HI Hne Hbl)
    as (st' & Hit & HI' & Hmove).
  exists st'. split; [done|]. split; [done|].
  pose proof (inv_count _ _ _ _ HI'). lia.
Qed.

Lemma pass_moves_one_frame_witness :
  ∃ st', iteration (pushed (initial small) 2) 2 = Ok st' ∧
    (size (stack st') = size (stack (pushed (initial small) 2)) + 1 ∨
     size (stack st') = size (stack (pushed (initial small) 2)) - 1) ∧
    size (blanksInProcess st') = size (blankSquares small) - size (stack st').
Proof.
  apply (pass_moves_one_frame 4 2 small).
  - lia.
  - apply checkFormat_square. vm_compute. reflexivity.
  - apply (run_push small 2 (initial small) true); [apply run_initial|].
    vm_compute. reflexivity.
  - vm_compute. discriminate.
  - vm_compute. discriminate.
Defined.

(** * The recursive solver of [EPI_Simplified.cpp] *)

(** ** [ValidToAddVal] *)

Lemma entry_cell n g i j :
  square n g → InRange n (i, j) → entry g i j = Some (cell g (i, j)).
Proof.
  intros Hsq Hc.
  destruct (inrange_lookup _ _ _ Hsq Hc) as (row & v & Hrow & Hv).
  destruct Hc as [H1 H2]. simpl in *. unfold entry, cell. simpl.
  assert ((0 <=? i) && (0 <=? j) = true) as ->.
  { apply andb_true_iff. split; apply Z.leb_le; lia. }
  rewrite Hrow. simpl. by rewrite Hv.
Qed.

Lemma no_entry_is_spec n g val places :
  square n g → (∀ c, c ∈ places → InRange n c) →
  no_entry_is val g places
  = Ok (forallb (λ c, negb (val =? cell g c)) places).
Proof.
  intros Hsq. induction places as [|[i j] rest IH]; intros Hin; [done|].
  cbn [no_entry_is forallb fst snd].
  rewrite (entry_cell n) by (done || apply Hin; by left).
  destruct (val =? cell g (i, j)); [done|]. simpl. apply IH.
  intros c Hc. apply Hin. by right.
Qed.

Lemma forallb_places g val places (Q : coord → Prop) :
  (∀ c, c ∈ places ↔ Q c) →
  forallb (λ c, negb (val =? cell g c)) places = true ↔
  ∀ c, Q c → cell g c ≠ val.
Proof.
  intros HQ. rewrite forallb_forall. split.
  - intros H c Hc. apply HQ, list_elem_of_In, H in Hc.
    apply negb_true_iff, Z.eqb_neq in Hc. congruence.
  - intros H c Hc. apply list_elem_of_In, HQ, H in Hc.
    apply negb_true_iff, Z.eqb_neq. congruence.
Qed.

Lemma elem_of_column_places n j c :
  0 ≤ j < n → c ∈ (λ k, (k, j)) <$> seqZ 0 n ↔ InRange n c ∧ c.2 = j.
Proof.
  intros Hj. rewrite list_elem_of_fmap. split.
  - intros (k & -> & Hk%elem_of_seqZ). unfold InRange. simpl. lia.
  - intros [[H1 H2] <-]. exists c.1. split; [by destruct c|].
    apply elem_of_seqZ. lia.
Qed.

Lemma elem_of_row_places n i c :
  0 ≤ i < n → c ∈ (λ k, (i, k)) <$> seqZ 0 n ↔ InRange n c ∧ c.1 = i.
Proof.
  intros Hi. rewrite list_elem_of_fmap. split.
  - intros (k & -> & Hk%elem_of_seqZ). unfold InRange. simpl. lia.
  - intros [[H1 H2] <-]. exists c.2. split; [by destruct c|].
    apply elem_of_seqZ. lia.
Qed.

Lemma region_offset s i r :
  0 < s → 0 ≤ i →
  (∃ a, 0 ≤ a < s ∧ r = s * Z.quot i s + a) ↔
  0 ≤ r ∧ Z.quot i s = Z.quot r s.
Proof.
  intros Hs Hi. rewrite <- (subgrid_window s i r Hs Hi).
  pose proof (Z.quot_rem' i s) as E. split.
  - intros (a & Ha & ->). lia.
  - intros Hr. exists (r - s * Z.quot i s). lia.
Qed.

Lemma quot_square_bound s i : 0 < s → 0 ≤ i < s * s → 0 ≤ Z.quot i s < s.
Proof.
  intros Hs Hi. rewrite Z.quot_div_nonneg by lia. split.
  - apply Z.div_pos; lia.
  - apply Z.div_lt_upper_bound; lia.
Qed.

Lemma elem_of_region_places s i j c :
  0 < s → InRange (s * s) (i, j) →
  c ∈ region_places s i j ↔
  InRange (s * s) c ∧ Z.quot i s = Z.quot c.1 s ∧ Z.quot j s = Z.quot c.2 s.
Proof.
  intros Hs [Hi Hj]. simpl in *. unfold region_places.
  rewrite list_elem_of_bind.
  pose proof (quot_square_bound s i Hs Hi) as HI.
  pose proof (quot_square_bound s j Hs Hj) as HJ.
  pose proof (region_offset s i c.1 Hs (proj1 Hi)) as Ri.
  pose proof (region_offset s j c.2 Hs (proj1 Hj)) as Rj.
  split.
  - intros (a & Hc & Ha%elem_of_seqZ).
    apply list_elem_of_fmap in Hc as (b & -> & Hb%elem_of_seqZ). simpl in *.
    destruct (proj1 Ri) as [_ Ei]; [exists a; lia|].
    destruct (proj1 Rj) as [_ Ej]; [exists b; lia|].
    split; [|done]. unfold InRange. simpl. nia.
  - intros ([H1 H2] & Ei & Ej).
    destruct (proj2 Ri) as (a & Ha & Ea); [split; [lia|done]|].
    destruct (proj2 Rj) as (b & Hb & Eb); [split; [lia|done]|].
    exists a. split; [|apply elem_of_seqZ; lia].
    apply list_elem_of_fmap. exists b. split; [|apply elem_of_seqZ; lia].
    destruct c as [c1 c2]. simpl in *. by rewrite Ea, Eb.
Qed.

(** [ValidToAddVal] on a cell of an [n]×[n] grid with regions of size
    [s]: no read is outside the grid, and the result tells whether no
    cell of the row, the column or the region holds [val]. *)
Lemma ValidToAddVal_spec n s g i j val :
  0 < s → n = s * s → square n g → InRange n (i, j) →
  ∃ b, ValidToAddVal g i j val = Ok b ∧
       (b = true ↔
        ∀ c, InRange n c → shares_unit s (i, j) c → cell g c ≠ val).
Proof.
  intros Hs -> Hsq Hc. pose proof Hc as [Hi Hj]. simpl in Hi, Hj.
  pose proof (forallb_places g val _ _
                (λ c, elem_of_column_places (s * s) j c Hj)) as F1.
  pose proof (forallb_places g val _ _
                (λ c, elem_of_row_places (s * s) i c Hi)) as F2.
  pose proof (forallb_places g val _ _
                (λ c, elem_of_region_places s i j c Hs Hc)) as F3.
  unfold ValidToAddVal. rewrite (proj1 Hsq).
  rewrite Z.sqrt_square by lia.
  rewrite (no_entry_is_spec (s * s) g val ((λ k, (k, j)) <$> _) Hsq)
    by (intros c Hc'; apply (proj1 (elem_of_column_places _ _ _ Hj) Hc')).
  rewrite (no_entry_is_spec (s * s) g val ((λ k, (i, k)) <$> _) Hsq)
    by (intros c Hc'; apply (proj1 (elem_of_row_places _ _ _ Hi) Hc')).
  rewrite (no_entry_is_spec (s * s) g val (region_places s i j) Hsq)
    by (intros c Hc'; apply (proj1 (elem_of_region_places _ _ _ _ Hs Hc) Hc')).
  assert ((s =? 0) = false) as -> by (apply Z.eqb_neq; lia).
  cbn [bind].
  destruct (forallb (λ c : coord, negb (val =? cell g c))
              ((λ k : Z, (k, j)) <$> seqZ 0 (s * s))) eqn:E1; cbn [negb].
  2:{ exists false. split; [done|]. split; [done|]. intros H.
      apply F1. intros c [Hc' Hcj]. apply H; [done|].
      right. left. by simpl. }
  cbn [bind].
  destruct (forallb (λ c : coord, negb (val =? cell g c))
              ((λ k : Z, (i, k)) <$> seqZ 0 (s * s))) eqn:E2; cbn [negb].
  2:{ exists false. split; [done|]. split; [done|]. intros H.
      apply F2. intros c [Hc' Hci]. apply H; [done|].
      left. by simpl. }
  eexists. split; [done|]. rewrite F3. split.
  - intros H3 c Hc' [Hrow|[Hcol|[Hq1 Hq2]]]; simpl in *.
    + by apply (proj1 F2 eq_refl).
    + by apply (proj1 F1 eq_refl).
    + by apply H3.
  - intros H c (Hc' & Hq1 & Hq2). apply H; [done|]. right. right. by simpl.
Qed.

(** ** [SolvePartialSudoku] *)

Lemma ahead_next i j c : ahead i j c ↔ c = (i, j) ∨ ahead (i + 1) j c.
Proof.
  unfold ahead. destruct c as [c1 c2]. simpl. split.
  - intros [H|[H1 H2]]; [right; by left|].
    destruct (decide (c1 = i)) as [->|Hne]; [left; by subst|].
    right. right. lia.
  - intros [[= -> ->]|[H|[H1 H2]]]; [right|by left|right]; lia.
Qed.

Lemma solved_from_ahead n s i j i' j' g r :
  (∀ c, InRange n c → ahead i j c ↔ ahead i' j' c) →
  solved_from n s i j g r → solved_from n s i' j' g r.
Proof.
  intros Hsame. unfold solved_from. destruct r.1; [|done].
  intros (H1 & H2 & H3 & H4 & H5 & H6).
  split; [done|]. split; [done|]. split; [done|]. split; [done|]. split.
  - intros c Hc Ha. apply H5; [done|]. by apply Hsame.
  - intros c Hc Ha. apply H6; [done|]. by rewrite Hsame.
Qed.

(** A digit that no other cell of its units holds may be written to a
    blank. *)
Lemma no_clash_place n s g c v :
  square n g → InRange n c → no_clash n s g → cell g c = 0 →
  (∀ c', InRange n c' → c' ≠ c → shares_unit s c c' → cell g c' ≠ v) →
  no_clash n s (set_cell g c v).
Proof.
  intros Hsq Hc Hclash Hblank Hfree c1 c2 Hc1 Hc2 Hne Hshare Hnz Heq.
  destruct (decide (c1 = c)) as [->|Hne1].
  - rewrite (cell_set_cell_eq n) in Heq by done.
    rewrite cell_set_cell_ne in Heq by done.
    by apply (Hfree c2).
  - rewrite cell_set_cell_ne in Heq, Hnz by done.
    destruct (decide (c2 = c)) as [->|Hne2].
    + rewrite (cell_set_cell_eq n) in Heq by done.
      apply (Hfree c1); [done..| |done]. by apply shares_unit_sym.
    + rewrite cell_set_cell_ne in Heq by done. by apply (Hclash c1 c2).
Qed.

Lemma try_vals_spec n s next i j g :
  0 < s → n = s * s → square n g → (∀ c, InRange n c → 0 ≤ cell g c ≤ n) →
  no_clash n s g → InRange n (i, j) → cell g (i, j) = 0 →
  (∀ g1, square n g1 → (∀ c, InRange n c → 0 ≤ cell g1 c ≤ n) →
         no_clash n s g1 →
         ∃ r, next g1 = Some (Ok r) ∧ solved_from n s (i + 1) j g1 r) →
  ∀ vals w,
    NoDup vals → w ∉ vals → (∀ v, v ∈ vals → 1 ≤ v ≤ n) → 0 ≤ w ≤ n →
    (∀ sol, is_solution n s sol → extends n g sol → cell sol (i, j) ∈ vals) →
    ∃ r, try_vals next i j vals (set_cell g (i, j) w) = Some (Ok r) ∧
         solved_from n s i j g r.
Proof.
  intros Hs Hn Hsq Hrange Hclash Hc Hblank Hnext.
  induction vals as [|val vals IH]; intros w Hnd Hw Hvals Hwr Hsols.
  - exists (false, g). split.
    + cbn [try_vals]. unfold kEmptyEntry. rewrite set_cell_set_cell.
      pose proof (set_cell_id n g (i, j) Hsq Hc) as Hid.
      rewrite Hblank in Hid. by rewrite Hid.
    + split; [done|]. intros sol Hsol Hext.
      specialize (Hsols sol Hsol Hext). inversion Hsols.
  - apply NoDup_cons in Hnd as [Hval Hnd].
    assert (w ≠ val ∧ w ∉ vals) as [Hwv Hw'].
    { split; intros H; apply Hw; [subst; by left|by right]. }
    assert (1 ≤ val ≤ n) as Hvr by (apply Hvals; by left).
    pose proof (square_set_cell n g (i, j) w Hsq) as Hsqw.
    destruct (ValidToAddVal_spec n s (set_cell g (i, j) w) i j val
                Hs Hn Hsqw Hc) as (b & Hb & Hvalid).
    cbn [try_vals]. rewrite Hb.
    assert (∀ sol, is_solution n s sol → extends n g sol →
                   cell sol (i, j) = val → b = true) as Hforced.
    { intros sol (Hsqs & Hfill & Hcl) Hext Hcell. apply Hvalid.
      intros c' Hc' Hshare Hcv.
      destruct (decide (c' = (i, j))) as [->|Hne].
      - rewrite (cell_set_cell_eq n) in Hcv by done. done.
      - rewrite cell_set_cell_ne in Hcv by done.
        assert (cell sol c' = val) as Hsv.
        { rewrite <- Hcv. apply Hext; [done|]. lia. }
        apply (Hcl (i, j) c'); [done..|congruence| |congruence].
        rewrite Hcell. lia. }
    destruct b.
    + rewrite set_cell_set_cell.
      pose proof (square_set_cell n g (i, j) val Hsq) as Hsq1.
      assert (∀ c, InRange n c → 0 ≤ cell (set_cell g (i, j) val) c ≤ n)
        as Hrange1.
      { intros c Hc'. destruct (decide (c = (i, j))) as [->|Hne].
        - rewrite (cell_set_cell_eq n) by done. lia.
        - rewrite cell_set_cell_ne by done. by apply Hrange. }
      assert (no_clash n s (set_cell g (i, j) val)) as Hclash1.
      { apply no_clash_place; [done..|]. intros c' Hc' Hne Hshare.
        rewrite <- (cell_set_cell_ne g c' (i, j) w) by done.
        by apply (proj1 Hvalid eq_refl). }
      destruct (Hnext _ Hsq1 Hrange1 Hclash1) as ([[|] g'] & -> & Hr).
      * exists (true, g'). split; [done|].
        destruct Hr as (H1 & H2 & H3 & H4 & H5 & H6). simpl in *.
        split; [done|]. split; [done|]. split; [done|]. split; [|split].
        -- intros c Hc' Hnz. rewrite H4; [|done|].
           ++ apply cell_set_cell_ne. intros ->. congruence.
           ++ rewrite cell_set_cell_ne; [done|]. intros ->. congruence.
        -- intros c Hc' [->|Ha]%ahead_next; [|by apply H5].
           rewrite H6; [|done|unfold ahead; simpl; lia].
           rewrite (cell_set_cell_eq n) by done. lia.
        -- intros c Hc' Ha.
           assert (c ≠ (i, j)) as Hne.
           { intros ->. apply Ha. unfold ahead. simpl. lia. }
           rewrite H6; [by apply cell_set_cell_ne|done|].
           intros Ha'. apply Ha, ahead_next. by right.
      * destruct Hr as [Hg' Hno]. simpl in Hg'. subst g'.
        apply IH; [done|done| |lia|].
        { intros v Hv. apply Hvals. by right. }
        intros sol Hsol Hext.
        pose proof (Hsols sol Hsol Hext) as [Heq|Hin]%elem_of_cons; [|done].
        exfalso. apply (Hno sol Hsol). rewrite <- Heq.
        by apply (extends_place n).
    + apply IH; [done|done| |done|].
      { intros v Hv. apply Hvals. by right. }
      intros sol Hsol Hext.
      pose proof (Hsols sol Hsol Hext) as [Heq|Hin]%elem_of_cons; [|done].
      by pose proof (Hforced sol Hsol Hext Heq).
Qed.

Lemma SolvePartialSudoku_spec n s :
  0 < s → n = s * s →
  ∀ fuel i j g,
    square n g → (∀ c, InRange n c → 0 ≤ cell g c ≤ n) → no_clash n s g →
    0 ≤ i ≤ n → 0 ≤ j < n → (n - j) * n - i < Z.of_nat fuel →
    ∃ r, SolvePartialSudoku fuel i j g = Some (Ok r) ∧
         solved_from n s i j g r.
Proof.
  intros Hs Hn. induction fuel as [|fuel IH];
    intros i j g Hsq Hrange Hclash Hi Hj Hfuel; [nia|].
  assert (∀ i1 j1, InRange n (i1, j1) →
            (n - j1) * n - i1 - 1 < Z.of_nat fuel →
            ∃ r, match entry g i1 j1 with
                 | None => Some (Throw Undefined)
                 | Some v =>
                     if negb (v =? kEmptyEntry)
                     then SolvePartialSudoku fuel (i1 + 1) j1 g
                     else try_vals (SolvePartialSudoku fuel (i1 + 1) j1) i1 j1
                            (seqZ 1 n) g
                 end = Some (Ok r) ∧ solved_from n s i1 j1 g r) as Hstep.
  { intros i1 j1 Hc Hm. pose proof Hc as [Hi1 Hj1]. simpl in Hi1, Hj1.
    rewrite (entry_cell n) by done. unfold kEmptyEntry.
    destruct (Z.eqb_spec (cell g (i1, j1)) 0) as [Hblank|Hfilled]; cbn [negb].
    - pose proof (set_cell_id n g (i1, j1) Hsq Hc) as Hid.
      rewrite Hblank in Hid.
      destruct (try_vals_spec n s (SolvePartialSudoku fuel (i1 + 1) j1)
                  i1 j1 g Hs Hn Hsq Hrange Hclash Hc Hblank)
        with (vals := seqZ 1 n) (w := 0) as (r & Hrun & Hr).
      + intros g1 Hsq1 Hrange1 Hclash1. apply IH; (done || lia).
      + apply NoDup_seqZ.
      + intros Hin%elem_of_seqZ. lia.
      + intros v Hv%elem_of_seqZ. lia.
      + lia.
      + intros sol (_ & Hfill & _) _. apply elem_of_seqZ.
        specialize (Hfill _ Hc). lia.
      + rewrite Hid in Hrun. by exists r.
    - destruct (IH (i1 + 1) j1 g Hsq Hrange Hclash) as (r & Hrun & Hr);
        [lia..|].
      exists r. split; [done|]. unfold solved_from in *.
      destruct r.1; [|done]. destruct Hr as (H1 & H2 & H3 & H4 & H5 & H6).
      split; [done|]. split; [done|]. split; [done|]. split; [done|]. split.
      + intros c Hc' [->|Ha]%ahead_next; [|by apply H5].
        rewrite H6; [done..|]. unfold ahead. simpl. lia.
      + intros c Hc' Ha. apply H6; [done|]. intros Ha'.
        apply Ha, ahead_next. by right. }
  cbn [SolvePartialSudoku]. cbv zeta. rewrite (proj1 Hsq).
  destruct (Z.eqb_spec i n) as [->|Hin].
  - destruct (lookup_lt_is_Some_2 g 0) as [row Hrow].
    { destruct Hsq as [Hsz _]. unfold size in Hsz. lia. }
    rewrite Hrow, (square_row _ _ _ _ Hsq Hrow).
    destruct (Z.eqb_spec (j + 1) n) as [Hlast|Hmore].
    + exists (true, g). split; [done|].
      split; [done|]. split; [done|]. split; [done|]. split; [done|]. simpl.
      split; [|done]. intros c [Hc1 Hc2] [Ha|[_ Ha]]; lia.
    + destruct (Hstep 0 (j + 1)) as (r & Hrun & Hr).
      { unfold InRange. simpl. lia. }
      { nia. }
      exists r. split; [done|].
      apply (solved_from_ahead n s 0 (j + 1)); [|done].
      intros c [Hc1 Hc2]. unfold ahead. lia.
  - apply Hstep; [unfold InRange; simpl; lia|lia].
Qed.

Lemma try_vals_mono next next' i j :
  (∀ g r, next g = Some r → next' g = Some r) →
  ∀ vals g r, try_vals next i j vals g = Some r →
              try_vals next' i j vals g = Some r.
Proof.
  intros Hle. induction vals as [|val vals IH]; intros g r; [done|].
  cbn [try_vals]. destruct (ValidToAddVal g i j val) as [[|]|]; [|by apply IH|done].
  destruct (next _) as [nr|] eqn:Hnext; [|done].
  rewrite (Hle _ _ Hnext). destruct nr as [[[|] g']|]; [done| |done].
  by apply IH.
Qed.

Lemma SolvePartialSudoku_mono fuel :
  ∀ fuel' i j g r, (fuel ≤ fuel')%nat →
    SolvePartialSudoku fuel i j g = Some r →
    SolvePartialSudoku fuel' i j g = Some r.
Proof.
  induction fuel as [|fuel IH]; intros fuel' i j g r Hle; [done|].
  destruct fuel' as [|fuel']; [lia|]. cbn [SolvePartialSudoku]. cbv zeta.
  destruct (if i =? size g then _ else _) as [[|]|]; [done| |done].
  destruct (entry g _ _) as [v|]; [|done].
  destruct (negb (v =? kEmptyEntry)).
  - apply IH. lia.
  - apply try_vals_mono. intros g1 r1. apply IH. lia.
Qed.

Lemma SolvePartialSudoku_det fuel1 fuel2 i j g r1 r2 :
  SolvePartialSudoku fuel1 i j g = Some r1 →
  SolvePartialSudoku fuel2 i j g = Some r2 → r1 = r2.
Proof.
  intros H1 H2.
  apply (SolvePartialSudoku_mono _ (fuel1 `max` fuel2)%nat) in H1; [|lia].
  apply (SolvePartialSudoku_mono _ (fuel1 `max` fuel2)%nat) in H2; [|lia].
  congruence.
Qed.

(** The call at the first cell, on a well-formed grid. *)
Lemma SolvePartialSudoku_correct n s g :
  well_formed n s g →
  ∃ b g', SolvePartialSudoku (S (Z.to_nat (n * n))) 0 0 g = Some (Ok (b, g')) ∧
    (b = true → completion n s g g') ∧
    (b = false → g' = g ∧ NoSol n s g).
Proof.
  intros (Hs & Hn & Hsq & Hrange & Hclash).
  destruct (SolvePartialSudoku_spec n s Hs Hn (S (Z.to_nat (n * n))) 0 0 g)
    as ([b g'] & Hrun & Hr); [done..|nia|nia|nia|].
  exists b, g'. split; [done|]. unfold solved_from in Hr. simpl in Hr. split.
  - intros ->. destruct Hr as (H1 & H2 & H3 & H4 & H5 & _).
    split; [|done]. split; [done|]. split; [|done].
    intros c Hc. specialize (H2 c Hc).
    assert (cell g' c ≠ 0); [|lia].
    apply H5; [done|]. destruct Hc as [Hc1 Hc2]. unfold ahead. lia.
  - by intros ->.
Qed.

(** X20. On a cell of an [n]×[n] grid with [n = s * s], [ValidToAddVal]
    reads no entry outside the grid and does not divide by zero; it
    returns true exactly when no cell of the row, of the column or of the
    region of the cell (the cell itself included) holds [val]. The
    region size, the truncated square root of [n], is [s]. *)
Theorem ValidToAddVal_exact n s g i j val :
  0 < s → n = s * s → square n g → InRange n (i, j) →
  ∃ b, ValidToAddVal g i j val = Ok b ∧
       (b = true ↔
        ∀ c, InRange n c → shares_unit s (i, j) c → cell g c ≠ val).
Proof. apply ValidToAddVal_spec. Qed.

Lemma ValidToAddVal_exact_witness :
  ∃ b, ValidToAddVal small 0 1 3 = Ok b ∧
       (b = true ↔
        ∀ c, InRange 4 c → shares_unit 2 (0, 1) c → cell small c ≠ 3).
Proof.
  apply (ValidToAddVal_exact 4 2 small 0 1 3).
  - lia.
  - reflexivity.
  - apply checkFormat_square. vm_compute. reflexivity.
  - unfold InRange. simpl. lia.
Defined.

(** X21. The two programs test a digit alike: on a cell of an [n]×[n]
    grid that does not hold [val] itself, and for a digit [val] other
    than 0, the scan of [ValidToAddVal] gives what the index-based
    [consistent] of the stack solver gives on the occurrence index of
    the grid. *)
Theorem ValidToAddVal_consistent n s g i j val :
  0 < s → n = s * s → square n g → InRange n (i, j) →
  cell g (i, j) ≠ val → val ≠ 0 →
  ValidToAddVal g i j val = Ok (consistent val (i, j) g (occurrences g) s).
Proof.
  intros Hs Hn Hsq Hc Hcell Hval.
  destruct (ValidToAddVal_spec n s g i j val Hs Hn Hsq Hc) as (b & -> & Hb).
  f_equal. apply eq_true_iff_eq. rewrite Hb.
  rewrite (consistent_legal n) by (done || by apply rec_ok_occurrences).
  rewrite (legal_true n) by done. split.
  - intros H c Hc' Hv. apply consistent_pair_true. right. intros Hshare.
    by apply (H c).
  - intros H c Hc' Hshare Hv.
    destruct (proj1 (consistent_pair_true _ _ _) (H c Hc' Hv)) as [<-|Hno];
      done.
Qed.

Lemma ValidToAddVal_consistent_witness :
  ValidToAddVal small 0 1 3 = Ok (consistent 3 (0, 1) small (occurrences small) 2).
Proof.
  apply (ValidToAddVal_consistent 4 2 small 0 1 3).
  - lia.
  - reflexivity.
  - apply checkFormat_square. vm_compute. reflexivity.
  - unfold InRange. simpl. lia.
  - vm_compute. discriminate.
  - discriminate.
Defined.

(** X22. Called at the first cell of a well-formed [n]×[n] grid,
    [SolvePartialSudoku] returns: the recursion is [n * n + 1] calls deep
    at most, no read is outside the grid, and the result is the same for
    every bound on the depth that is large enough. *)
Theorem SolvePartialSudoku_returns n s g :
  well_formed n s g →
  ∃ b g',
    SolvePartialSudoku (S (Z.to_nat (n * n))) 0 0 g = Some (Ok (b, g')) ∧
    ∀ fuel r, SolvePartialSudoku fuel 0 0 g = Some r → r = Ok (b, g').
Proof.
  intros Hwf.
  destruct (SolvePartialSudoku_correct n s g Hwf) as (b & g' & Hrun & _).
  exists b, g'. split; [done|]. intros fuel r Hr.
  by apply (SolvePartialSudoku_det _ _ _ _ _ _ _ Hr Hrun).
Qed.

Lemma SolvePartialSudoku_returns_witness :
  ∃ b g',
    SolvePartialSudoku (S (Z.to_nat (4 * 4))) 0 0 small = Some (Ok (b, g')) ∧
    ∀ fuel r, SolvePartialSudoku fuel 0 0 small = Some r → r = Ok (b, g').
Proof.
  apply (SolvePartialSudoku_returns 4 2 small).
  apply checkUserGrid_well_formed; [lia..|]. vm_compute. reflexivity.
Defined.

(** X23. When [SolvePartialSudoku], called at the first cell of a
    well-formed grid, returns true, the grid behind the pointer is
    solved: no blank, no digit twice in a row, a column or a region, and
    every digit of the input kept. *)
Theorem SolvePartialSudoku_sound n s g fuel g' :
  well_formed n s g →
  SolvePartialSudoku fuel 0 0 g = Some (Ok (true, g')) →
  completion n s g g'.
Proof.
  intros Hwf Hrun.
  destruct (SolvePartialSudoku_correct n s g Hwf)
    as (b & g1 & Hrun1 & Htrue & _).
  pose proof (SolvePartialSudoku_det _ _ _ _ _ _ _ Hrun Hrun1) as [= <- <-].
  by apply Htrue.
Qed.

Lemma SolvePartialSudoku_sound_witness : completion 4 2 small small_solved.
Proof.
  apply (SolvePartialSudoku_sound 4 2 small 17 small_solved).
  - apply checkUserGrid_well_formed; [lia..|]. vm_compute. reflexivity.
  - vm_compute. reflexivity.
Defined.

(** X24. When [SolvePartialSudoku], called at the first cell of a
    well-formed grid, returns false, no solved grid keeps the digits of
    the input, and the grid behind the pointer is the input again: every
    cell tried has been emptied. *)
Theorem SolvePartialSudoku_restores n s g fuel g' :
  well_formed n s g →
  SolvePartialSudoku fuel 0 0 g = Some (Ok (false, g')) →
  g' = g ∧ ∀ sol, ¬ completion n s g sol.
Proof.
  intros Hwf Hrun.
  destruct (SolvePartialSudoku_correct n s g Hwf)
    as (b & g1 & Hrun1 & _ & Hfalse).
  pose proof (SolvePartialSudoku_det _ _ _ _ _ _ _ Hrun Hrun1) as [= <- <-].
  destruct (Hfalse eq_refl) as [-> Hno]. split; [done|].
  intros sol [Hsol Hext]. by apply (Hno sol).
Qed.

Lemma SolvePartialSudoku_restores_witness :
  hopeless = hopeless ∧ ∀ sol, ¬ completion 4 2 hopeless sol.
Proof.
  apply (SolvePartialSudoku_restores 4 2 hopeless 17 hopeless).
  - apply checkUserGrid_well_formed; [lia..|]. vm_compute. reflexivity.
  - vm_compute. reflexivity.
Defined.

(** X25. The two solvers agree on every well-formed grid: the recursive
    one returns true exactly when the stack-based one returns a grid
    rather than the empty vector; both grids are then solved and keep the
    digits of the input, and they are the same grid when the input has
    one solution only. *)
Theorem solvers_agree n s g :
  well_formed n s g →
  ∃ fuel b g' ret st',
    SolvePartialSudoku fuel 0 0 g = Some (Ok (b, g')) ∧
    backtrack fuel g s = Some (Ok (ret, st')) ∧
    (b = true ↔ ret ≠ []) ∧
    (b = true → completion n s g g' ∧ completion n s g ret) ∧
    ((∀ sol sol', completion n s g sol → completion n s g sol' → sol = sol') →
     b = true → g' = ret).
Proof.
  intros Hwf.
  assert (0 < n) as Hn by (destruct Hwf as (? & -> & _); lia).
  destruct (SolvePartialSudoku_correct n s g Hwf)
    as (b & g' & Hrun1 & Htrue & Hfalse).
  destruct (backtrack_correct n s g Hwf)
    as (fuel2 & ret & st' & Hrun2 & Hcase).
  exists (S (Z.to_nat (n * n)) `max` fuel2)%nat, b, g', ret, st'.
  split; [by apply (SolvePartialSudoku_mono (S (Z.to_nat (n * n)))); [lia|]|].
  split; [by apply (backtrack_mono _ _ fuel2); [|lia]|].
  destruct b.
  - destruct (Htrue eq_refl) as [Hsol Hext].
    destruct Hcase as [[_ Hcomp]|(_ & _ & _ & _ & Hno)];
      [|by destruct (Hno g' Hsol)].
    assert (ret ≠ []) as Hne
      by (apply (solution_nonempty n s); [done|apply Hcomp]).
    split; [done|]. split; [done|]. intros Huniq _. by apply Huniq.
  - destruct (Hfalse eq_refl) as [_ Hno].
    destruct Hcase as [[_ [Hsol Hext]]|(-> & _)];
      [by destruct (Hno ret Hsol)|].
    split; [|done]. split; [done|]. intros H. by destruct H.
Qed.

Lemma solvers_agree_witness :
  ∃ fuel b g' ret st',
    SolvePartialSudoku fuel 0 0 small = Some (Ok (b, g')) ∧
    backtrack fuel small 2 = Some (Ok (ret, st')) ∧
    (b = true ↔ ret ≠ []) ∧
    (b = true → completion 4 2 small g' ∧ completion 4 2 small ret) ∧
    ((∀ sol sol', completion 4 2 small sol → completion 4 2 small sol' →
                  sol = sol') →
     b = true → g' = ret).
Proof.
  apply (solvers_agree 4 2 small).
  apply checkUserGrid_well_formed; [lia..|]. vm_compute. reflexivity.
Defined.
